(** * reno history scanner: a shallow embedding of [reno/scanner.py]

    The development follows the layout of the Python module: the
    filename helpers first, then the change aggregator, the repository
    accessor ([RenoRepo]), and finally the [Scanner] with its history
    linearizer and the version assigner.

    Conventions.
    - Python [str]/[bytes] values are modelled as [string]; every
      character is a code point below 256, so the class [\d] of the
      regular expression is exactly ['0'..'9'].
    - Paths are decoded from UTF-8 before they are looked at. The
      embedding covers ASCII paths, for which decoding is the identity
      and never raises; the statements that need a change stream to
      decode say so with [ascii_paths].
    - Exceptions are modelled by the sum type [result]; loops whose
      termination depends on the shape of the repository take a [fuel]
      argument and return [None] when it runs out.
    - The dulwich library (object store, walker, tree diffs) is not part
      of the repository; what the scanner reads from it is passed in as
      data. *)

From Stdlib Require Import ZArith Ascii String.
From stdpp Require Import base tactics option list sorting gmap strings pretty.

#[global] Set Warnings "-clear-no-such-hyp".


(** ** Exceptions *)

Inductive exn : Type :=
  | ValueError (msg : string)
  | KeyError
  | IndexError
  | TypeError
  | AttributeError.

Inductive result (A : Type) : Type :=
  | Ok (a : A)
  | Raise (e : exn).
Arguments Ok {A} a.
Arguments Raise {A} e.

#[global] Instance result_ret : MRet result := fun A a => Ok a.
#[global] Instance result_bind : MBind result := fun A B k r =>
  match r with
  | Ok a => k a
  | Raise e => Raise e
  end.

Definition is_ok {A} (r : result A) : bool :=
  match r with Ok _ => true | Raise _ => false end.

(** ** Python string primitives *)

Module Py.

Definition chars (s : string) : list ascii := list_ascii_of_string s.
Definition str (l : list ascii) : string := string_of_list_ascii l.

(** [c in s] for a one-character needle. *)
Definition contains (c : ascii) (l : list ascii) : bool :=
  existsb (Ascii.eqb c) l.

(** [s.rfind(c)]: index of the last occurrence, [None] for Python's -1. *)
Fixpoint rfind (c : ascii) (l : list ascii) : option nat :=
  match l with
  | [] => None
  | x :: r =>
      match rfind c r with
      | Some i => Some (S i)
      | None => if Ascii.eqb x c then Some 0 else None
      end
  end.

(** [s[-n:]] for [n > 0]. *)
Definition last_n (n : nat) (l : list ascii) : list ascii :=
  drop (length l - n) l.

(** [posixpath.basename]: [i = p.rfind('/') + 1; return p[i:]]. *)
Definition basename (p : list ascii) : list ascii :=
  match rfind "/" p with
  | Some i => drop (S i) p
  | None => p
  end.

(** [posixpath.splitext] ([genericpath._splitext] with separator ['/']
    and extension separator ['.']): split at the last dot, unless that
    dot lies before the last separator or only dots precede it in the
    last path component. *)
Definition splitext (p : list ascii) : list ascii * list ascii :=
  let filenameIndex :=
    match rfind "/" p with Some i => S i | None => 0 end in
  match rfind "." p with
  | Some dotIndex =>
      if decide (filenameIndex ≤ dotIndex) then
        if existsb (fun c => negb (Ascii.eqb c "."))
             (take (dotIndex - filenameIndex) (drop filenameIndex p))
        then (take dotIndex p, drop dotIndex p)
        else (p, [])
      else (p, [])
  | None => (p, [])
  end.

(** [fnmatch.fnmatch(name, '*.yaml')] on a POSIX system: the name ends
    with [.yaml]. *)
Definition endswith (suffix l : list ascii) : bool :=
  bool_decide (last_n (length suffix) l = suffix ∧ length suffix ≤ length l).

(** [posixpath.join(a, b)]. *)
Definition path_join (a b : list ascii) : list ascii :=
  match b with
  | "/"%char :: _ => b
  | _ =>
      match a with
      | [] => b
      | _ => if endswith ["/"%char] a then a ++ b else a ++ "/"%char :: b
      end
  end.

(** [s.startswith(prefix)] *)
Fixpoint startswith (prefix l : list ascii) : bool :=
  match prefix, l with
  | [], _ => true
  | p :: prefix', c :: l' => Ascii.eqb p c && startswith prefix' l'
  | _ :: _, [] => false
  end.

(** [s.partition(sep)[-1]] for a non-empty [sep]: what follows the
    first occurrence of [sep], the empty string when there is none. *)
Fixpoint after_first (sep l : list ascii) : list ascii :=
  match l with
  | [] => []
  | _ :: l' => if startswith sep l then drop (length sep) l else after_first sep l'
  end.

(** [s.split(sep)] for a one-character separator. *)
Fixpoint split (sep : ascii) (l : list ascii) : list (list ascii) :=
  match l with
  | [] => [[]]
  | c :: l' =>
      if Ascii.eqb c sep then [] :: split sep l'
      else match split sep l' with
           | w :: ws => (c :: w) :: ws
           | [] => [[c]]
           end
  end.

(** [sep.join(words)] *)
Fixpoint join (sep : list ascii) (words : list (list ascii)) : list ascii :=
  match words with
  | [] => []
  | [w] => w
  | w :: ws => w ++ sep ++ join sep ws
  end.

(** [s.rstrip(c)] for a one-character set. *)
Fixpoint rstrip (c : ascii) (l : list ascii) : list ascii :=
  match l with
  | [] => []
  | x :: l' =>
      match rstrip c l' with
      | [] => if Ascii.eqb x c then [] else [x]
      | r => x :: r
      end
  end.

(** Truth value of an optional string: [None] and [''] are false. *)
Definition truthy (s : option string) : bool :=
  match s with
  | None | Some "" => false
  | Some _ => true
  end.

End Py.

(** ** Filename helpers *)

(** [_get_unique_id(filename)] *)
Definition _get_unique_id (filename : string) : string :=
  let base := Py.basename (Py.chars filename) in
  let root := fst (Py.splitext base) in
  let uniqueid := Py.last_n 16 root in
  if Py.contains "-" uniqueid
  then Py.str (take 16 root)
  else Py.str uniqueid.

(** [_note_file(name)]; [None] stands for a missing path. *)
Definition _note_file (name : option string) : bool :=
  match name with
  | None => false
  | Some n =>
      match Py.chars n with
      | [] => false
      | l => Py.endswith (Py.chars ".yaml") l
      end
  end.

(** ** Sorting

    Python's [sorted] and [list.sort] are stable; the model is a stable
    insertion sort driven by a boolean "less or equal" test. *)

Section PySorted.
Context {A : Type} (leb : A → A → bool).

Fixpoint insert_sorted (x : A) (l : list A) : list A :=
  match l with
  | [] => [x]
  | y :: r => if leb x y then x :: y :: r else y :: insert_sorted x r
  end.

Definition py_sorted (l : list A) : list A := foldr insert_sorted [] l.
End PySorted.

(** ** Change aggregation *)

(** Git object names, as hex digests. *)
Abbreviation sha := string (only parsing).

(** The change types of [dulwich.diff_tree]. *)
Inductive change_type : Type :=
  | CHANGE_ADD
  | CHANGE_MODIFY
  | CHANGE_DELETE
  | CHANGE_RENAME
  | CHANGE_COPY
  | CHANGE_UNCHANGED.

#[global] Instance change_type_eq_dec : EqDecision change_type.
Proof. solve_decision. Defined.

(** A [TreeChange]: its type and the paths of its old and new entries
    (modes and blob ids are never read by the scanner). *)
Record TreeChange : Type := {
  tc_type : change_type;
  tc_old_path : option string;
  tc_new_path : option string;
}.

(** An element of the change stream: [tree_changes] yields single
    changes, [tree_changes_for_merge] yields lists of them. *)
Inductive change_item : Type :=
  | One (c : TreeChange)
  | Many (cs : list TreeChange).

(** The tuples stored per unique id: [(type, path, sha)] for an add or
    a modification, [(type, path)] for a delete. *)
Inductive uid_change : Type :=
  | UAdd (path : string) (commit : sha)
  | UDelete (path : string)
  | UModify (path : string) (commit : sha).

Definition uc_type (c : uid_change) : change_type :=
  match c with
  | UAdd _ _ => CHANGE_ADD
  | UDelete _ => CHANGE_DELETE
  | UModify _ _ => CHANGE_MODIFY
  end.

Definition uc_path (c : uid_change) : string :=
  match c with
  | UAdd p _ | UDelete p | UModify p _ => p
  end.

(** The tuples returned by [_aggregate_changes]. *)
Inductive ChangeRecord : Type :=
  | RAdd (uid path : string) (commit : sha)
  | RDelete (uid path : string)
  | RModify (uid path : string) (commit : sha)
  | RRename (uid old_path new_path : string) (commit : sha).

Definition cr_uid (r : ChangeRecord) : string :=
  match r with
  | RAdd u _ _ | RDelete u _ | RModify u _ _ | RRename u _ _ _ => u
  end.

Definition cr_type (r : ChangeRecord) : change_type :=
  match r with
  | RAdd _ _ _ => CHANGE_ADD
  | RDelete _ _ => CHANGE_DELETE
  | RModify _ _ _ => CHANGE_MODIFY
  | RRename _ _ _ _ => CHANGE_RENAME
  end.

(** [path.decode('utf-8') if path else None], for an ASCII path: the
    decoded text is the path itself. *)
Definition decode_path (p : option string) : option string :=
  match p with
  | Some "" => None
  | _ => p
  end.

(** [by_uid[uid].append(c)] on a [defaultdict(list)], which keeps its
    keys in insertion order. *)
Fixpoint by_uid_append (uid : string) (c : uid_change)
    (d : list (string * list uid_change)) : list (string * list uid_change) :=
  match d with
  | [] => [(uid, [c])]
  | (k, cs) :: rest =>
      if decide (k = uid) then (k, cs ++ [c]) :: rest
      else (k, cs) :: by_uid_append uid c rest
  end.

(** The body of the inner loop over raw changes. *)
Definition collect_change (commit : sha) (d : list (string * list uid_change))
    (c : TreeChange) : result (list (string * list uid_change)) :=
  match tc_type c with
  | CHANGE_ADD =>
      let path := decode_path (tc_new_path c) in
      if _note_file path then
        match path with
        | Some p => Ok (by_uid_append (_get_unique_id p) (UAdd p commit) d)
        | None => Ok d
        end
      else Ok d
  | CHANGE_DELETE =>
      let path := decode_path (tc_old_path c) in
      if _note_file path then
        match path with
        | Some p => Ok (by_uid_append (_get_unique_id p) (UDelete p) d)
        | None => Ok d
        end
      else Ok d
  | CHANGE_MODIFY =>
      let path := decode_path (tc_new_path c) in
      if _note_file path then
        match path with
        | Some p => Ok (by_uid_append (_get_unique_id p) (UModify p commit) d)
        | None => Ok d
        end
      else Ok d
  | _ => Raise (ValueError "unhandled change type")
  end.

(** [if not isinstance(ec, list): ec = [ec]] *)
Definition item_changes (ec : change_item) : list TreeChange :=
  match ec with
  | One c => [c]
  | Many cs => cs
  end.

(** A loop whose body may raise. *)
Fixpoint for_each {S X : Type} (body : S → X → result S) (s : S) (xs : list X)
    : result S :=
  match xs with
  | [] => Ok s
  | x :: rest => s' ← body s x; for_each body s' rest
  end.

(** The same loop, seen from the object it updates: the state it
    leaves behind and the exception, if any, that ended it. An
    exception keeps what the iterations before it have done. *)
Fixpoint for_each_keep {S X : Type} (body : S → X → result S) (s : S)
    (xs : list X) : S * option exn :=
  match xs with
  | [] => (s, None)
  | x :: rest =>
      match body s x with
      | Ok s' => for_each_keep body s' rest
      | Raise e => (s, Some e)
      end
  end.

Definition collect_changes (commit : sha) (changes : list change_item)
    : result (list (string * list uid_change)) :=
  for_each (fun d ec => for_each (collect_change commit) d (item_changes ec))
    [] changes.

(** [set(c[0] for c in changes) == set(ts)] *)
Definition types_are (ts : list change_type) (changes : list uid_change) : bool :=
  forallb (fun c => bool_decide (uc_type c ∈ ts)) changes
  && forallb (fun t => bool_decide (t ∈ uc_type <$> changes)) ts.

(** [[c for c in changes if c[0] == CHANGE_ADD][0][1:]] *)
Fixpoint first_added (changes : list uid_change) : result (string * sha) :=
  match changes with
  | [] => Raise IndexError
  | UAdd p s :: _ => Ok (p, s)
  | _ :: rest => first_added rest
  end.

(** [[c for c in changes if c[0] == CHANGE_DELETE][0][1]] *)
Fixpoint first_deleted (changes : list uid_change) : result string :=
  match changes with
  | [] => Raise IndexError
  | UDelete p :: _ => Ok p
  | _ :: rest => first_deleted rest
  end.

(** The body of the loop over [sorted(by_uid.items())]: the records
    contributed by one unique id. *)
Definition resolve_group (commit : sha) (uid : string)
    (changes : list uid_change) : result (list ChangeRecord) :=
  match changes with
  | [UAdd p s] => Ok [RAdd uid p s]
  | [UDelete p] => Ok [RDelete uid p]
  | [UModify p s] => Ok [RModify uid p s]
  | _ =>
      if types_are [CHANGE_ADD; CHANGE_DELETE] changes then
        added ← first_added changes;
        deled ← first_deleted changes;
        Ok [RRename uid deled added.1 added.2]
      else if types_are [CHANGE_MODIFY] changes then
        Ok ((fun c => RModify uid (uc_path c) commit) <$> changes)
      else Raise (ValueError "Unrecognized changes")
  end.

(** Keys of a dictionary are pairwise different, so [sorted] on its
    items only ever compares the keys. *)
Definition key_leb {V} (a b : string * V) : bool := String.leb a.1 b.1.

(** [_aggregate_changes(walk_entry, changes, notesdir)], where [commit]
    is [walk_entry.commit.id]. *)
Definition _aggregate_changes (commit : sha) (changes : list change_item)
    : result (list ChangeRecord) :=
  by_uid ← collect_changes commit changes;
  for_each
    (fun results '(uid, cs) =>
       rs ← resolve_group commit uid cs; Ok (results ++ rs))
    [] (py_sorted key_leb by_uid).

(** ** The two filename conventions *)

(** Lowercase hexadecimal digits. *)
Definition is_hex_digit (c : ascii) : bool :=
  Py.contains c (Py.chars "0123456789abcdef").

(** A note identifier: 16 lowercase hexadecimal digits. *)
Definition is_note_id (s : string) : Prop :=
  length (Py.chars s) = 16 ∧ Forall (fun c => is_hex_digit c = true) (Py.chars s).

(** Modern convention: [<slug>-<id>.yaml]. *)
Definition modern_name (slug id : string) : string :=
  slug +:+ "-" +:+ id +:+ ".yaml".

(** Legacy convention: [<id>-<slug>.yaml], possibly below a directory
    [dir] (empty, or ending with a slash). *)
Definition legacy_name (dir id slug : string) : string :=
  dir +:+ id +:+ "-" +:+ slug +:+ ".yaml".

Definition is_dir_prefix (dir : string) : Prop :=
  dir = "" ∨ ∃ d, dir = d +:+ "/".

(** *** Vocabulary for the statements about [_aggregate_changes] *)

(** The raw changes in stream order, nested lists flattened. *)
Definition flat_changes (changes : list change_item) : list TreeChange :=
  changes ≫= item_changes.

Definition handled_type (t : change_type) : bool :=
  match t with
  | CHANGE_ADD | CHANGE_DELETE | CHANGE_MODIFY => true
  | _ => false
  end.

(** What one raw change of a handled type contributes: its unique id
    and tuple, or nothing when its path is not a note file. *)
Definition classify (commit : sha) (c : TreeChange) : option (string * uid_change) :=
  match tc_type c with
  | CHANGE_ADD =>
      p ← decode_path (tc_new_path c);
      if _note_file (Some p) then Some (_get_unique_id p, UAdd p commit) else None
  | CHANGE_DELETE =>
      p ← decode_path (tc_old_path c);
      if _note_file (Some p) then Some (_get_unique_id p, UDelete p) else None
  | CHANGE_MODIFY =>
      p ← decode_path (tc_new_path c);
      if _note_file (Some p) then Some (_get_unique_id p, UModify p commit) else None
  | _ => None
  end.

(** The aggregation group of [uid]: the tuples of the raw changes that
    carry this identifier, in stream order. *)
Definition raw_group (commit : sha) (uid : string) (cs : list TreeChange)
    : list uid_change :=
  omap (fun c => '(u, e) ← classify commit c;
                 if decide (u = uid) then Some e else None) cs.

(** [by_uid[uid]] on the [defaultdict]: the empty list for a new key. *)
Fixpoint by_uid_get (uid : string) (d : list (string * list uid_change))
    : list uid_change :=
  match d with
  | [] => []
  | (k, cs) :: rest => if decide (k = uid) then cs else by_uid_get uid rest
  end.

(** The set of types of a group is exactly the set [ts]. *)
Definition group_types_eq (ts : list change_type) (g : list uid_change) : Prop :=
  ∀ t, t ∈ uc_type <$> g ↔ t ∈ ts.

(** ** The repository accessor ([RenoRepo]) *)

Record Commit : Type := {
  commit_id : sha;
  commit_parents : list sha;
  commit_tree : sha;
  commit_time : Z;
}.

#[global] Instance commit_eq_dec : EqDecision Commit.
Proof. solve_decision. Defined.

(** An annotated (signed) tag object: [tag_object] is [object[1]], the
    name of the tagged object, and [tag_time] the time the tag itself
    was made. *)
Record Tag : Type := {
  tag_id : sha;
  tag_object : sha;
  tag_time : Z;
}.

(** A tree object: its own name and its entries, name to object name. *)
Record Tree : Type := {
  tree_id : sha;
  tree_entries : list (string * sha);
}.

Inductive GitObject : Type :=
  | OCommit (c : Commit)
  | OTag (t : Tag)
  | OTree (t : Tree)
  | OBlob (id : sha) (data : string).

(** What the scanner reads from a dulwich [Repo]: [get_refs()] (every
    reference with the object name it resolves to, in the order of the
    dictionary) and the object store. *)
Record RenoRepo : Type := {
  repo_refs : list (string * sha);
  repo_objects : gmap sha GitObject;
}.

(** [repo[sha]] *)
Definition repo_get (repo : RenoRepo) (s : sha) : result GitObject :=
  match repo_objects repo !! s with
  | Some o => Ok o
  | None => Raise KeyError
  end.

(** [repo.refs[key]] and [key in repo.refs] *)
Fixpoint refs_get (refs : list (string * sha)) (key : string) : option sha :=
  match refs with
  | [] => None
  | (k, v) :: rest => if decide (k = key) then Some v else refs_get rest key
  end.

(** [d[k] = v] on a dictionary kept in insertion order. *)
Fixpoint dict_set {V} (k : string) (v : V) (d : list (string * V))
    : list (string * V) :=
  match d with
  | [] => [(k, v)]
  | (k', v') :: rest =>
      if decide (k' = k) then (k, v) :: rest else (k', v') :: dict_set k v rest
  end.

(** The tag index built by [_load_tags]. *)
Record TagIndex : Type := {
  _all_tags : list (string * sha);
  _shas_to_tags : gmap sha (list (string * Z));
}.

(** The dictionary comprehension of [_load_tags]. *)
Definition load_all_tags (refs : list (string * sha)) : list (string * sha) :=
  foldl (fun d '(k, v) =>
           if Py.startswith (Py.chars "refs/tags/") (Py.chars k)
           then dict_set (Py.str (Py.after_first (Py.chars "/tags/") (Py.chars k))) v d
           else d)
    [] refs.

(** The body of the loop of [_load_tags]: the commit a tag marks and the
    date it is ordered by. *)
Definition tag_target (repo : RenoRepo) (tag_sha : sha) : result (sha * Z) :=
  tag_obj ← repo_get repo tag_sha;
  match tag_obj with
  | OTag t => Ok (tag_object t, tag_time t)
  | OCommit c => Ok (commit_id c, commit_time c)
  | _ => Raise (ValueError "Unrecognized tag object")
  end.

(** [m.setdefault(k, []).append(x)] *)
Definition setdefault_append {X} (k : sha) (x : X) (m : gmap sha (list X))
    : gmap sha (list X) :=
  <[k := default [] (m !! k) ++ [x]]> m.

Definition _load_tags (repo : RenoRepo) : result TagIndex :=
  let all_tags := load_all_tags (repo_refs repo) in
  shas_to_tags ←
    for_each (fun m '(tag, tag_sha) =>
                '(tagged_sha, date) ← tag_target repo tag_sha;
                Ok (setdefault_append tagged_sha (tag, date) m))
      ∅ all_tags;
  Ok {| _all_tags := all_tags; _shas_to_tags := shas_to_tags |}.

(** [key=lambda x: x[1]] *)
Definition date_leb (a b : string * Z) : bool := (a.2 <=? b.2)%Z.

(** What [_load_tags] does to the attributes of the accessor:
    [_all_tags] is set first, then [_shas_to_tags] is filled tag by tag,
    and an exception leaves the index as far as it got. *)
Definition _load_tags_state (repo : RenoRepo) : TagIndex * option exn :=
  let all_tags := load_all_tags (repo_refs repo) in
  let '(shas_to_tags, e) :=
    for_each_keep (fun m '(tag, tag_sha) =>
                     '(tagged_sha, date) ← tag_target repo tag_sha;
                     Ok (setdefault_append tagged_sha (tag, date) m))
      ∅ all_tags in
  ({| _all_tags := all_tags; _shas_to_tags := shas_to_tags |}, e).

(** [get_tags_on_commit], with the attributes of the accessor passed in
    and out; [None] is the fresh accessor, whose [_all_tags] is [None].
    The index is loaded on first use. An exception of [_load_tags] ends
    that call and leaves the half-built index in place, so that no
    later call loads it again. [list.sort] reorders the list stored in
    the index. *)
Definition get_tags_on_commit_cached (repo : RenoRepo) (cache : option TagIndex)
    (s : sha) : result (list string) * option TagIndex :=
  let '(idx, e) :=
    match cache with
    | None => _load_tags_state repo
    | Some idx => (idx, None)
    end in
  match e with
  | Some e => (Raise e, Some idx)
  | None =>
      match _shas_to_tags idx !! s with
      | Some tags_and_dates =>
          let sorted := py_sorted date_leb tags_and_dates in
          (Ok sorted.*1,
           Some {| _all_tags := _all_tags idx;
                   _shas_to_tags := <[s := sorted]> (_shas_to_tags idx) |})
      | None => (Ok [], Some idx)
      end
  end.

(** The tags on a commit as the first call on a fresh accessor reports
    them. Where the index can be built, every later call on the same
    accessor gives the same list; where it cannot, this first call
    raises, which ends the run of the scanner that made it. *)
Definition get_tags_on_commit (repo : RenoRepo) (s : sha) : result (list string) :=
  (get_tags_on_commit_cached repo None s).1.

(** [_get_subtree(tree, path)], with the path already cut at the
    separators ([path.partition(os.sep)] at every level); [None] is the
    sentinel for a missing component. *)
Definition tree_lookup (o : GitObject) (name : string) : result (option sha) :=
  match o with
  | OTree t => Ok (refs_get (tree_entries t) name)
  | _ => Raise TypeError
  end.

Fixpoint _get_subtree (repo : RenoRepo) (tree : GitObject)
    (components : list string) : result (option GitObject) :=
  match components with
  | [] => Ok None
  | [name] =>
      entry ← tree_lookup tree name;
      match entry with
      | Some s => Ok (repo_objects repo !! s)
      | None => Ok None
      end
  | prefix :: trailing =>
      entry ← tree_lookup tree prefix;
      match entry with
      | Some s =>
          match repo_objects repo !! s with
          | Some subtree => _get_subtree repo subtree trailing
          | None => Ok None
          end
      | None => Ok None
      end
  end.

Definition path_components (path : string) : list string :=
  Py.str <$> Py.split "/" (Py.chars path).

(** The states of the tag cache that calls of [get_tags_on_commit] can
    bring about on one accessor, whether they return or raise. *)
Inductive cache_reachable (repo : RenoRepo) : option TagIndex → Prop :=
  | cache_fresh : cache_reachable repo None
  | cache_after_call cache s :
      cache_reachable repo cache →
      cache_reachable repo (get_tags_on_commit_cached repo cache s).2.

(** The entries [(tag, date)] recorded for a commit by [_load_tags]. *)
Definition tags_and_dates (idx : TagIndex) (s : sha) : list (string * Z) :=
  default [] (_shas_to_tags idx !! s).

(** Every entry of the index stands for a tag reference of the
    repository that resolves to the commit it is filed under. *)
Definition index_sound (repo : RenoRepo) (idx : TagIndex) : Prop :=
  ∀ s name date,
    (name, date) ∈ tags_and_dates idx s →
    ∃ tag_sha, (name, tag_sha) ∈ load_all_tags (repo_refs repo)
               ∧ tag_target repo tag_sha = Ok (s, date).

(** What [_load_tags] records for the tag reference [tag_sha]: the
    commit [s] it marks and the [date] it is ordered by. *)
Definition tag_ordering_entry (repo : RenoRepo) (tag_sha s : sha) (date : Z) : Prop :=
  match repo_objects repo !! tag_sha with
  | Some (OTag t) => s = tag_object t ∧ date = tag_time t
  | Some (OCommit c) => s = commit_id c ∧ date = commit_time c
  | _ => False
  end.

(** The ordering date of every annotated tag is the commit time of the
    commit it marks. *)
Definition annotated_tags_use_commit_time (repo : RenoRepo) : Prop :=
  ∀ idx name tag_sha t c,
    _load_tags repo = Ok idx →
    (name, tag_sha) ∈ _all_tags idx →
    repo_objects repo !! tag_sha = Some (OTag t) →
    repo_objects repo !! tag_object t = Some (OCommit c) →
    (name, commit_time c) ∈ tags_and_dates idx (tag_object t).

(** A one-commit repository carrying two annotated tags, [2.0.0] made at
    time 300 and [1.0.0] made at time 200, on a commit of time 100. *)
Definition two_tags_commit : Commit :=
  {| commit_id := "c1"; commit_parents := []; commit_tree := "t1";
     commit_time := 100 |}.

Definition two_tags_repo : RenoRepo :=
  {| repo_refs := [("HEAD", "c1"); ("refs/heads/master", "c1");
                   ("refs/tags/2.0.0", "tagA"); ("refs/tags/1.0.0", "tagB")];
     repo_objects :=
       list_to_map
         [("c1", OCommit two_tags_commit);
          ("tagA", OTag {| tag_id := "tagA"; tag_object := "c1";
                           tag_time := 300 |});
          ("tagB", OTag {| tag_id := "tagB"; tag_object := "c1";
                           tag_time := 200 |})] |}.

(** ** The scanner *)

(** [o.sha().hexdigest()] *)
Definition object_id (o : GitObject) : sha :=
  match o with
  | OCommit c => commit_id c
  | OTag t => tag_id t
  | OTree t => tree_id t
  | OBlob i _ => i
  end.

(** Truth value of an object: a [Tree] has a length, its number of
    entries; the other objects are always true. *)
Definition object_truthy (o : GitObject) : bool :=
  match o with
  | OTree t => match tree_entries t with [] => false | _ => true end
  | _ => true
  end.

(** [repo[sha]] where the code goes on to read the attributes of a
    commit. *)
Definition repo_get_commit (repo : RenoRepo) (s : sha) : result Commit :=
  o ← repo_get repo s;
  match o with
  | OCommit c => Ok c
  | _ => Raise AttributeError
  end.

(** [tags[-1]] *)
Definition last_tag (tags : list string) : result string :=
  match last tags with
  | Some t => Ok t
  | None => Raise IndexError
  end.

(** [_get_ref]: the first of the candidate references that exists,
    dereferenced if it names a tag object. *)
Definition ref_candidates (name : string) : list string :=
  ["refs/heads/" +:+ name;
   "refs/remotes/" +:+ name;
   "refs/tags/" +:+ name;
   "refs/tags/" +:+ (Py.str (Py.basename (Py.chars name)) +:+ "-eol")].

Fixpoint first_ref (repo : RenoRepo) (candidates : list string) : result sha :=
  match candidates with
  | [] => Raise (ValueError "Unknown reference")
  | ref :: rest =>
      match refs_get (repo_refs repo) ref with
      | Some s =>
          o ← repo_get repo s;
          match o with
          | OTag t => Ok (tag_object t)
          | _ => Ok s
          end
      | None => first_ref repo rest
      end
  end.

Definition _get_ref (repo : RenoRepo) (name : option string) : result sha :=
  if Py.truthy name then first_ref repo (ref_candidates (default "" name))
  else match refs_get (repo_refs repo) "HEAD" with
       | Some s => Ok s
       | None => Raise KeyError
       end.

(** A generator run to its end: the entries it yields, and the
    exception, if any, that ends it. *)
Definition yields (A : Type) : Type := (list A * option exn)%type.

Definition yield {A} (x : A) (ys : yields A) : yields A := (x :: ys.1, ys.2).

Section Scanner.

(** [repo.get_walker(head)]: the commits dulwich's walker yields from
    [head], in its order. *)
Variable get_walker : sha → list Commit.

(** [diff_tree.tree_changes(store, old, new)] and
    [diff_tree.tree_changes_for_merge(store, parents, new)]. *)
Variable tree_changes : option sha → option sha → list change_item.
Variable tree_changes_for_merge : list sha → option sha → list change_item.

Variable repo : RenoRepo.

(** [_get_tags_on_branch] *)
Definition _get_tags_on_branch (branch : option string) : result (list string) :=
  head ← _get_ref repo branch;
  for_each (fun results c =>
              tags ← get_tags_on_commit repo (commit_id c);
              Ok (results ++ tags))
    [] (get_walker head).

(** The [while commit:] loop of [_get_current_version]. *)
Fixpoint current_version_loop (fuel : nat) (commit : Commit) (count : nat)
    : option (result string) :=
  match fuel with
  | 0 => None
  | S fuel' =>
      match get_tags_on_commit repo (commit_id commit) with
      | Raise e => Some (Raise e)
      | Ok tags =>
          match last tags with
          | Some t =>
              Some (Ok (match count with
                        | 0 => t
                        | _ => t +:+ "-" +:+ pretty count
                        end))
          | None =>
              match commit_parents commit with
              | p :: _ =>
                  match repo_get_commit repo p with
                  | Ok parent => current_version_loop fuel' parent (S count)
                  | Raise e => Some (Raise e)
                  end
              | [] => Some (Ok "0.0.0")
              end
          end
      end
  end.

Definition _get_current_version (fuel : nat) (branch : option string)
    : option (result string) :=
  match _get_ref repo branch with
  | Raise e => Some (Raise e)
  | Ok head =>
      match repo_get_commit repo head with
      | Raise e => Some (Raise e)
      | Ok commit => current_version_loop fuel commit 0
      end
  end.

(** [_get_branch_base] *)
Definition _get_branch_base (branch : option string) : result (option string) :=
  master_head ← _get_ref repo (Some "master");
  let master_commits : gset sha :=
    list_to_set (commit_id <$> get_walker master_head) in
  branch_head ← _get_ref repo branch;
  match list_find (fun c => commit_id c ∈ master_commits) (get_walker branch_head) with
  | Some (_, c) =>
      tags ← get_tags_on_commit repo (commit_id c);
      t ← last_tag tags;
      Ok (Some t)
  | None => Ok None
  end.

(** *** The history linearizer *)

(** [all]: the walker's entries by commit id. *)
Definition topo_all (entries : list Commit) : gmap sha Commit :=
  foldl (fun all e => <[commit_id e := e]> all) ∅ entries.

(** [children.setdefault(p, set()).add(c)] *)
Definition add_child (p c : sha) (children : gmap sha (gset sha))
    : gmap sha (gset sha) :=
  <[p := {[c]} ∪ default ∅ (children !! p)]> children.

Definition topo_children (entries : list Commit) : gmap sha (gset sha) :=
  foldl (fun children e =>
           foldl (fun children p => add_child p (commit_id e) children)
             children (commit_parents e))
    ∅ entries.

(** [for p in parents: if p not in todo: todo.appendleft(p)] *)
Definition push_parents (parents : list sha) (todo : list sha) : list sha :=
  foldl (fun todo p => if bool_decide (p ∈ todo) then todo else p :: todo)
    todo parents.

(** The [while todo:] loop. *)
Fixpoint topo_loop (all : gmap sha Commit) (children : gmap sha (gset sha))
    (fuel : nat) (todo : list sha) (emitted : gset sha)
    : option (yields Commit) :=
  match todo with
  | [] => Some ([], None)
  | s :: todo' =>
      match fuel with
      | 0 => None
      | S fuel' =>
          match all !! s with
          | None => Some ([], Some KeyError)
          | Some entry =>
              let unprocessed_children :=
                filter (fun c => c ∉ emitted)
                  (elements (default ∅ (children !! s))) in
              match unprocessed_children with
              | [] =>
                  yield entry <$>
                    topo_loop all children fuel'
                      (push_parents (commit_parents entry) todo')
                      ({[s]} ∪ emitted)
              | _ => topo_loop all children fuel' todo' emitted
              end
          end
      end
  end.

(** [_topo_traversal(branch)] *)
Definition _topo_traversal (fuel : nat) (branch : option string)
    : option (yields Commit) :=
  match _get_ref repo branch with
  | Raise e => Some ([], Some e)
  | Ok head =>
      let entries := get_walker head in
      topo_loop (topo_all entries) (topo_children entries) fuel [head] ∅
  end.

End Scanner.

(** *** Vocabulary for the statements about the scanner *)

(** The walk of [_get_current_version] along first parents, started at
    [c], meets no tag and ends after [n] steps at a commit without
    parents. *)
Inductive untagged_first_parents (repo : RenoRepo) : Commit → nat → Prop :=
  | untagged_root c :
      get_tags_on_commit repo (commit_id c) = Ok [] →
      commit_parents c = [] →
      untagged_first_parents repo c 0
  | untagged_step c p ps parent n :
      get_tags_on_commit repo (commit_id c) = Ok [] →
      commit_parents c = p :: ps →
      repo_get_commit repo p = Ok parent →
      untagged_first_parents repo parent n →
      untagged_first_parents repo c (S n).

Definition mk_commit (id : sha) (parents : list sha) (time : Z) : Commit :=
  {| commit_id := id; commit_parents := parents;
     commit_tree := "tree-" +:+ id; commit_time := time |}.

(** A repository with a branch [stable] that leaves [master] at the
    untagged commit [c1]; [2.0.0] marks the head of [master]. *)
Definition untagged_base_repo : RenoRepo :=
  {| repo_refs := [("HEAD", "c2"); ("refs/heads/master", "c2");
                   ("refs/heads/stable", "s1"); ("refs/tags/2.0.0", "c2")];
     repo_objects :=
       list_to_map
         [("c1", OCommit (mk_commit "c1" [] 100));
          ("c2", OCommit (mk_commit "c2" ["c1"] 200));
          ("s1", OCommit (mk_commit "s1" ["c1"] 300))] |}.

Definition untagged_base_walker (head : sha) : list Commit :=
  if decide (head = "c2") then [mk_commit "c2" ["c1"] 200; mk_commit "c1" [] 100]
  else if decide (head = "s1") then [mk_commit "s1" ["c1"] 300; mk_commit "c1" [] 100]
  else if decide (head = "c1") then [mk_commit "c1" [] 100]
  else [].

(** *** Loop bodies, named for the proofs *)

(** The body of the second loop of [_aggregate_changes]. *)
Definition resolve_body (commit : sha) (results : list ChangeRecord)
    (kv : string * list uid_change) : result (list ChangeRecord) :=
  let '(uid, cs) := kv in
  rs ← resolve_group commit uid cs; Ok (results ++ rs).

(** The general branch of [resolve_group], taken by every group that
    is not a single change. *)
Definition resolve_many (commit : sha) (u : string) (g : list uid_change)
    : result (list ChangeRecord) :=
  if types_are [CHANGE_ADD; CHANGE_DELETE] g then
    added ← first_added g; deled ← first_deleted g;
    Ok [RRename u deled added.1 added.2]
  else if types_are [CHANGE_MODIFY] g then
    Ok ((fun c => RModify u (uc_path c) commit) <$> g)
  else Raise (ValueError "Unrecognized changes").

(** The body of the loop of [_load_tags]. *)
Definition load_body (repo : RenoRepo) (m : gmap sha (list (string * Z))) (kv : string * sha)
    : result (gmap sha (list (string * Z))) :=
  let '(tag, tag_sha) := kv in
  '(tagged_sha, date) ← tag_target repo tag_sha;
  Ok (setdefault_append tagged_sha (tag, date) m).

(** The divergence commit: the first commit of the branch's walk that
    the walk of [master] also visits. *)
Definition divergence_commit (get_walker : sha → list Commit)
    (master_head branch_head : sha) (c : Commit) : Prop :=
  ∃ i, list_find (fun c => commit_id c ∈ commit_id <$> get_walker master_head)
         (get_walker branch_head) = Some (i, c).

(** *** The commit graph seen by the linearizer *)

(** [c] is a child of [p] among the walker's entries. *)
Definition is_child (entries : list Commit) (p c : sha) : Prop :=
  ∃ e, e ∈ entries ∧ commit_id e = c ∧ p ∈ commit_parents e.

(** Reachability from [head] along parent links. *)
Inductive reachable (entries : list Commit) (head : sha) : sha → Prop :=
  | reachable_head : reachable entries head head
  | reachable_parent e p :
      e ∈ entries →
      reachable entries head (commit_id e) →
      p ∈ commit_parents e →
      reachable entries head p.

(** What the linearizer relies on: the walker yields each commit
    reachable from [head] once, with its parents, and the parent links
    form a directed acyclic graph (commit ids are content hashes). *)
Record walker_dag (head : sha) (entries : list Commit) : Prop := {
  dag_ids_nodup : NoDup (commit_id <$> entries);
  dag_head : head ∈ commit_id <$> entries;
  dag_closed : ∀ e p,
    e ∈ entries → p ∈ commit_parents e → p ∈ commit_id <$> entries;
  dag_reachable : ∀ e, e ∈ entries → reachable entries head (commit_id e);
  dag_acyclic : ∃ rank : sha → nat, ∀ e p,
    e ∈ entries → p ∈ commit_parents e → rank p < rank (commit_id e);
}.

(** Parent links still to be followed: those of the commits not yet
    emitted. *)
Fixpoint pending_weight (entries : list Commit) (emitted : gset sha) : nat :=
  match entries with
  | [] => 0
  | e :: rest =>
      (if decide (commit_id e ∈ emitted) then 0 else length (commit_parents e))
      + pending_weight rest emitted
  end.

(** Enough iterations for the [while] loop on any acyclic graph. *)
Definition topo_fuel (entries : list Commit) : nat :=
  1 + pending_weight entries ∅.

(** The invariant of the [while] loop. *)
Record topo_inv (entries : list Commit) (todo : list sha) (emitted : gset sha)
    : Prop := {
  inv_todo_known : ∀ x, x ∈ todo → x ∈ commit_id <$> entries;
  inv_todo_nodup : NoDup todo;
  inv_todo_fresh : ∀ x, x ∈ todo → x ∉ emitted;
  inv_emitted_closed : ∀ x c, x ∈ emitted → is_child entries x c → c ∈ emitted;
  inv_progress : ∀ x,
    x ∈ commit_id <$> entries → x ∉ emitted →
    x ∈ todo ∨ ∃ c, is_child entries x c ∧ c ∉ emitted;
}.

(** What the loop yields from a state with [emitted] already out. *)
Record topo_post (entries : list Commit) (emitted : gset sha) (out : list Commit)
    : Prop := {
  post_nodup : NoDup (commit_id <$> out);
  post_complete : ∀ x,
    x ∈ commit_id <$> out ↔ x ∈ commit_id <$> entries ∧ x ∉ emitted;
  post_entries : Forall (fun e => e ∈ entries) out;
  post_children_first : ∀ l1 e l2 c,
    out = l1 ++ e :: l2 → is_child entries (commit_id e) c →
    c ∈ emitted ∨ c ∈ commit_id <$> l1;
}.

(** The history drawn in the docstring of [_topo_traversal]: a branch
    with one commit, merged back into [master]. *)
Definition merge_commits : list Commit :=
  [mk_commit "d1239b6" ["303e21d"; "9478612"] 500;
   mk_commit "9478612" ["a7f573d"] 400;
   mk_commit "303e21d" ["0ba5186"] 300;
   mk_commit "0ba5186" ["a7f573d"] 200;
   mk_commit "a7f573d" [] 100].

Definition merge_walker (head : sha) : list Commit :=
  if decide (head = "d1239b6") then merge_commits else [].

Definition merge_repo : RenoRepo :=
  {| repo_refs := [("HEAD", "d1239b6"); ("refs/heads/master", "d1239b6")];
     repo_objects := list_to_map ((fun c => (commit_id c, OCommit c)) <$> merge_commits) |}.

Definition merge_rank (s : sha) : nat :=
  if decide (s = "d1239b6") then 3
  else if decide (s = "303e21d") then 2
  else if decide (s = "9478612") then 1
  else if decide (s = "0ba5186") then 1
  else 0.

(** ** Pre-release versions *)

Definition is_digit (c : ascii) : bool :=
  Ascii.leb "0" c && Ascii.leb c "9".

(** [\d+] and [\d*]: the longest run of digits, and what follows it. *)
Fixpoint span_digits (l : list ascii) : list ascii * list ascii :=
  match l with
  | c :: t =>
      if is_digit c then let '(d, r) := span_digits t in (c :: d, r)
      else ([], l)
  | [] => ([], [])
  end.

(** [(?:[ab]|rc)+]: the longest run of markers [a], [b] and [rc]. *)
Fixpoint span_markers (l : list ascii) : list ascii * list ascii :=
  match l with
  | c :: t =>
      if Ascii.eqb c "a" || Ascii.eqb c "b" then
        let '(m, r) := span_markers t in (c :: m, r)
      else
        match t with
        | c2 :: t' =>
            if Ascii.eqb c "r" && Ascii.eqb c2 "c" then
              let '(m, r) := span_markers t' in (c :: c2 :: m, r)
            else ([], l)
        | [] => ([], l)
        end
  | [] => ([], [])
  end.

Definition newline : ascii := ascii_of_nat 10.

(** The pattern of [PRE_RELEASE_RE], a dot followed by the group
    [\d+ (?:[ab]|rc)+ \d*] and [$] (the pattern is compiled with
    [re.VERBOSE]), matched at the start of [l]; the result is group 1. Digits and marker letters are disjoint, so the greedy runs
    never have to give characters back; [$] matches at the end of the
    string and before a newline that ends it. *)
Definition pre_release_match_at (l : list ascii) : option (list ascii) :=
  match l with
  | c :: r =>
      if Ascii.eqb c "." then
        let '(d1, r1) := span_digits r in
        let '(ms, r2) := span_markers r1 in
        let '(d2, r3) := span_digits r2 in
        match d1, ms with
        | _ :: _, _ :: _ =>
            if bool_decide (r3 = [] ∨ r3 = [newline]) then Some (d1 ++ ms ++ d2)
            else None
        | _, _ => None
        end
      else None
  | [] => None
  end.

(** [PRE_RELEASE_RE.search(s)]: the leftmost position with a match. *)
Fixpoint pre_release_search (l : list ascii) : option (list ascii) :=
  match pre_release_match_at l with
  | Some g => Some g
  | None =>
      match l with
      | [] => None
      | _ :: t => pre_release_search t
      end
  end.

(** [PRE_RELEASE_RE.search(version)], giving [groups()[0]] of the match. *)
Definition PRE_RELEASE_RE (version : string) : option string :=
  Py.str <$> pre_release_search (Py.chars version).

(** [ov[:-len(pre_rel_str)].rstrip('.')] *)
Definition strip_pre_release (ov pre_rel_str : string) : string :=
  let l := Py.chars ov in
  Py.str (Py.rstrip "." (take (length l - length (Py.chars pre_rel_str)) l)).

(** ['.'.join(version.split('.')[:-1])] *)
Definition drop_last_component (version : string) : string :=
  let parts := Py.split "." (Py.chars version) in
  Py.str (Py.join ["."%char] (take (length parts - 1) parts)).

(** ** Dictionaries in insertion order *)

Fixpoint dict_get {V} (k : string) (d : list (string * V)) : option V :=
  match d with
  | [] => None
  | (k', v) :: rest => if decide (k' = k) then Some v else dict_get k rest
  end.

(** The notes of one version: pairs [(path, commit)]. *)
Abbreviation bucket := (list (string * sha)) (only parsing).

(** ** The version assigner *)

Record Config : Type := {
  reporoot : string;
  notespath : string;
  branch : option string;
  earliest_version : option string;
  collapse_pre_releases : bool;
  stop_at_branch_base : bool;
}.

(** The variables of the main loop of [get_notes_by_version]. *)
Record ScanState : Type := {
  current_version : string;
  versions : list string;
  earliest_seen : list (string * string);
  last_name_by_id : gmap string (string * sha);
  uniqueids_deleted : gset string;
}.

(** [last_name_by_id[uniqueid] = (os.path.join(notesdir, path), sha)]
    unless the identifier is already there. *)
Definition remember_name (notesdir uniqueid path : string) (commit : sha)
    (names : gmap string (string * sha)) : gmap string (string * sha) :=
  match names !! uniqueid with
  | Some _ => names
  | None =>
      <[uniqueid := (Py.str (Py.path_join (Py.chars notesdir) (Py.chars path)),
                     commit)]> names
  end.

(** The body of the loop over the aggregated changes of one commit. *)
Definition apply_change (notesdir : string) (st : ScanState)
    (change : ChangeRecord) : ScanState :=
  let uniqueid := cr_uid change in
  let earliest := dict_set uniqueid (current_version st) (earliest_seen st) in
  if bool_decide (uniqueid ∈ uniqueids_deleted st) then
    {| current_version := current_version st; versions := versions st;
       earliest_seen := earliest;
       last_name_by_id := last_name_by_id st;
       uniqueids_deleted := uniqueids_deleted st |}
  else
    match change with
    | RAdd _ path commit | RModify _ path commit | RRename _ _ path commit =>
        {| current_version := current_version st; versions := versions st;
           earliest_seen := earliest;
           last_name_by_id :=
             remember_name notesdir uniqueid path commit (last_name_by_id st);
           uniqueids_deleted := uniqueids_deleted st |}
    | RDelete _ _ =>
        {| current_version := current_version st; versions := versions st;
           earliest_seen := earliest;
           last_name_by_id := last_name_by_id st;
           uniqueids_deleted :=
             match last_name_by_id st !! uniqueid with
             | None => {[uniqueid]} ∪ uniqueids_deleted st
             | Some _ => uniqueids_deleted st
             end |}
    end.

(** The first part of the loop body: the tags of the commit decide the
    current version. The result is the state and the list [tags]. *)
Definition enter_commit (st : ScanState) (tags_on_commit : list string)
    : ScanState * list string :=
  let '(tags, cv) :=
    match last tags_on_commit with
    | None => ([current_version st], current_version st)
    | Some t => (tags_on_commit, t)
    end in
  ({| current_version := cv;
      versions := if bool_decide (cv ∈ versions st) then versions st
                  else versions st ++ [cv];
      earliest_seen := earliest_seen st;
      last_name_by_id := last_name_by_id st;
      uniqueids_deleted := uniqueids_deleted st |},
   tags).

(** Building [files_and_tags] from [earliest_seen]: an identifier whose
    file name is unknown is skipped ([except KeyError]). *)
Definition invert_step (names : gmap string (string * sha))
    (files_and_tags : list (string * bucket)) (item : string * string)
    : list (string * bucket) :=
  let '(uniqueid, version) := item in
  match names !! uniqueid, dict_get version files_and_tags with
  | Some name, Some files => dict_set version (files ++ [name]) files_and_tags
  | _, _ => files_and_tags
  end.

Definition invert_earliest_seen (st : ScanState) : list (string * bucket) :=
  let empty := foldl (fun d v => dict_set v [] d) [] (versions st) in
  foldl (invert_step (last_name_by_id st)) empty (earliest_seen st).

(** The pre-release collapser. *)
Definition canonical_version (versions_by_date : list string) (ov : string)
    : string :=
  match PRE_RELEASE_RE ov with
  | Some pre_rel_str =>
      let canonical_ver := strip_pre_release ov pre_rel_str in
      if bool_decide (canonical_ver ∈ versions_by_date) then canonical_ver
      else ov
  | None => ov
  end.

Definition collapse_step (versions_by_date : list string)
    (collapsing files_and_tags : list (string * bucket)) (ov : string)
    : list (string * bucket) :=
  match dict_get ov collapsing with
  | None => files_and_tags
  | Some files =>
      let canonical_ver := canonical_version versions_by_date ov in
      dict_set canonical_ver
        (default [] (dict_get canonical_ver files_and_tags) ++ files)
        files_and_tags
  end.

Definition collapse (versions_by_date : list string)
    (collapsing : list (string * bucket)) : list (string * bucket) :=
  foldl (collapse_step versions_by_date collapsing) [] versions_by_date.

(** Comparison of the tuples [(path, commit)] by [sorted]. *)
Definition note_leb (a b : string * sha) : bool :=
  if decide (a.1 = b.1) then String.leb a.2 b.2 else String.leb a.1 b.1.

(** The last loop: empty versions are dropped, the notes of a version
    are sorted, and the output ends with [earliest_version]. *)
Fixpoint trim (earliest_version : option string)
    (files_and_tags : list (string * bucket)) (versions_by_date : list string)
    (trimmed : list (string * bucket)) : list (string * bucket) :=
  match versions_by_date with
  | [] => trimmed
  | ov :: rest =>
      match dict_get ov files_and_tags with
      | None | Some [] => trim earliest_version files_and_tags rest trimmed
      | Some files =>
          let trimmed' := dict_set ov (py_sorted note_leb files) trimmed in
          if Py.truthy earliest_version
             && bool_decide (earliest_version = Some ov)
          then trimmed'
          else trim earliest_version files_and_tags rest trimmed'
      end
  end.

Section VersionAssigner.

Variable get_walker : sha → list Commit.
Variable tree_changes : option sha → option sha → list change_item.
Variable tree_changes_for_merge : list sha → option sha → list change_item.
Variable repo : RenoRepo.

(** [x.sha().hexdigest()] of a subtree that is there; an empty tree,
    which is false in Python, is treated like a missing one. *)
Definition subtree_sha (o : option GitObject) : option sha :=
  match o with
  | Some t => if object_truthy t then Some (object_id t) else None
  | None => None
  end.

(** [repo._get_subtree(repo[repo[commit].tree], subdir)] *)
Definition commit_subtree (tree : sha) (subdir : string) : result (option GitObject) :=
  t ← repo_get repo tree;
  _get_subtree repo t (path_components subdir).

Fixpoint parent_subtrees (parents : list sha) (subdir : string)
    : result (list sha) :=
  match parents with
  | [] => Ok []
  | p :: rest =>
      c ← repo_get_commit repo p;
      t ← commit_subtree (commit_tree c) subdir;
      ts ← parent_subtrees rest subdir;
      Ok (match subtree_sha t with Some s => s :: ts | None => ts end)
  end.

(** [_changes_in_subdir(repo, walk_entry, subdir)] *)
Definition _changes_in_subdir (entry : Commit) (subdir : string)
    : result (list change_item) :=
  match commit_parents entry with
  | [] =>
      t ← commit_subtree (commit_tree entry) subdir;
      match subtree_sha t with
      | None => Ok []
      | Some s => Ok (tree_changes None (Some s))
      end
  | [p] =>
      c ← repo_get_commit repo p;
      pt ← commit_subtree (commit_tree c) subdir;
      t ← commit_subtree (commit_tree entry) subdir;
      if decide (subtree_sha pt = subtree_sha t) then Ok []
      else Ok (tree_changes (subtree_sha pt) (subtree_sha t))
  | parents =>
      pts ← parent_subtrees parents subdir;
      t ← commit_subtree (commit_tree entry) subdir;
      Ok (tree_changes_for_merge pts (subtree_sha t))
  end.

(** The body of the main loop for one commit: the new state and the
    list [tags] that the test for the end of the branch looks at. *)
Definition scan_commit (notesdir : string) (st : ScanState) (entry : Commit)
    : result (ScanState * list string) :=
  tags_on_commit ← get_tags_on_commit repo (commit_id entry);
  let '(st1, tags) := enter_commit st tags_on_commit in
  changes ← _changes_in_subdir entry notesdir;
  records ← _aggregate_changes (commit_id entry) changes;
  Ok (foldl (apply_change notesdir) st1 records, tags).

(** The main loop over what the linearizer yields; [final] is the
    exception, if any, that ends the generator. *)
Fixpoint scan_loop (notesdir : string) (branch_base_tag : option string)
    (st : ScanState) (entries : list Commit) (final : option exn)
    : result ScanState :=
  match entries with
  | [] => match final with Some e => Raise e | None => Ok st end
  | entry :: rest =>
      r ← scan_commit notesdir st entry;
      if Py.truthy branch_base_tag
         && bool_decide (default "" branch_base_tag ∈ r.2)
      then Ok r.1
      else scan_loop notesdir branch_base_tag r.1 rest final
  end.

(** The start of [get_notes_by_version]: the versions by date, and the
    values of [earliest_version] and [branch_base_tag]. *)
Definition scan_setup (conf : Config)
    : result (list string * option string * option string) :=
  versions_by_date ← _get_tags_on_branch get_walker repo (branch conf);
  if Py.truthy (earliest_version conf)
     && bool_decide (default "" (earliest_version conf) ∉ versions_by_date)
  then Raise (ValueError "earliest-version set to unknown revision")
  else if stop_at_branch_base conf
          && negb (Py.truthy (earliest_version conf))
          && Py.truthy (branch conf)
          && bool_decide (branch conf ≠ Some "master")
  then
    base ← _get_branch_base get_walker repo (branch conf);
    let earliest :=
      if Py.truthy base && collapse_pre_releases conf then
        match PRE_RELEASE_RE (default "" base) with
        | Some _ => Some (drop_last_component (default "" base))
        | None => base
        end
      else base in
    Ok (versions_by_date, earliest, base)
  else Ok (versions_by_date, earliest_version conf, earliest_version conf).

Definition initial_state (current_version : string) : ScanState :=
  {| current_version := current_version; versions := [];
     earliest_seen := []; last_name_by_id := ∅; uniqueids_deleted := ∅ |}.

(** [get_notes_by_version()] *)
Definition get_notes_by_version (conf : Config) (fuel : nat)
    : option (result (list (string * bucket))) :=
  match scan_setup conf with
  | Raise e => Some (Raise e)
  | Ok (versions_by_date, earliest, branch_base_tag) =>
      match _get_current_version repo fuel (branch conf) with
      | None => None
      | Some (Raise e) => Some (Raise e)
      | Some (Ok cv) =>
          let versions_by_date :=
            if bool_decide (cv ∈ versions_by_date) then versions_by_date
            else cv :: versions_by_date in
          match _topo_traversal get_walker repo fuel (branch conf) with
          | None => None
          | Some (entries, final) =>
              Some (st ← scan_loop (notespath conf) branch_base_tag
                          (initial_state cv) entries final;
                    let files_and_tags := invert_earliest_seen st in
                    let files_and_tags :=
                      if collapse_pre_releases conf
                      then collapse versions_by_date files_and_tags
                      else files_and_tags in
                    Ok (trim earliest files_and_tags versions_by_date []))
          end
      end
  end.

End VersionAssigner.

(** A repository with one commit, tagged [1.0.0], that adds two notes:
    [zzz-0000000000000001.yaml] and [aaa-0000000000000002.yaml]. *)
Definition two_notes_repo : RenoRepo :=
  {| repo_refs := [("HEAD", "c1"); ("refs/heads/master", "c1");
                   ("refs/tags/1.0.0", "c1")];
     repo_objects :=
       list_to_map
         [("c1", OCommit {| commit_id := "c1"; commit_parents := [];
                            commit_tree := "t1"; commit_time := 100 |});
          ("t1", OTree {| tree_id := "t1";
                          tree_entries := [("releasenotes", "t2")] |});
          ("t2", OTree {| tree_id := "t2"; tree_entries := [("notes", "t3")] |});
          ("t3", OTree {| tree_id := "t3";
                          tree_entries :=
                            [("aaa-0000000000000002.yaml", "b2");
                             ("zzz-0000000000000001.yaml", "b1")] |});
          ("b1", OBlob "b1" "first note");
          ("b2", OBlob "b2" "second note")] |}.

Definition two_notes_walker (head : sha) : list Commit :=
  if decide (head = "c1")
  then [{| commit_id := "c1"; commit_parents := [];
           commit_tree := "t1"; commit_time := 100 |}]
  else [].

Definition two_notes_tree_changes (old new : option sha) : list change_item :=
  if decide (old = None ∧ new = Some "t3")
  then [One {| tc_type := CHANGE_ADD; tc_old_path := None;
               tc_new_path := Some "aaa-0000000000000002.yaml" |};
        One {| tc_type := CHANGE_ADD; tc_old_path := None;
               tc_new_path := Some "zzz-0000000000000001.yaml" |}]
  else [].

Definition default_config : Config :=
  {| reporoot := "."; notespath := "releasenotes/notes"; branch := None;
     earliest_version := None; collapse_pre_releases := true;
     stop_at_branch_base := true |}.

(** *** Vocabulary for the statements about the collapser *)

(** The markers of the pattern: [a], [b] and [rc]. *)
Definition is_marker (m : list ascii) : Prop :=
  m = Py.chars "a" ∨ m = Py.chars "b" ∨ m = Py.chars "rc".

(** A label whose last component the pattern accepts:
    [<prefix>.<digits><markers><digits>], as in [1.0.0.0rc1]. *)
Definition pre_release_label (prefix : string) (d1 : list ascii)
    (markers : list (list ascii)) (d2 : list ascii) : string :=
  prefix +:+ "." +:+ Py.str (d1 ++ concat markers ++ d2).

(** A label with the marker right after the dot:
    [<prefix>.<marker><digits>]. *)
Definition marker_first_label (prefix marker digits : string) : string :=
  prefix +:+ "." +:+ marker +:+ digits.

(** The files of version [v] in a mapping of buckets. *)
Definition files_of (v : string) (d : list (string * bucket)) : bucket :=
  default [] (dict_get v d).

(** *** Vocabulary for the statements about the main loop *)

(** What the loop body does, step by step: it enters a commit with the
    tags found on it, then applies the aggregated changes one by one. *)
Inductive scan_event : Type :=
  | EvCommit (tags_on_commit : list string)
  | EvChange (change : ChangeRecord).

Definition scan_step (notesdir : string) (st : ScanState) (ev : scan_event)
    : ScanState :=
  match ev with
  | EvCommit tags_on_commit => (enter_commit st tags_on_commit).1
  | EvChange change => apply_change notesdir st change
  end.

(** The events of one commit, from its tags and aggregated changes. *)
Definition commit_events (d : list string * list ChangeRecord) : list scan_event :=
  EvCommit d.1 :: (EvChange <$> d.2).

(** The state after the loop has gone through the commits [seen]. *)
Definition scan_records (notesdir : string) (st : ScanState)
    (seen : list (list string * list ChangeRecord)) : ScanState :=
  foldl (scan_step notesdir) st (seen ≫= commit_events).

(** [d] is what the loop body reads for the commit [entry]. *)
Definition commit_data
    (tree_changes : option sha → option sha → list change_item)
    (tree_changes_for_merge : list sha → option sha → list change_item)
    (repo : RenoRepo) (notesdir : string)
    (entry : Commit) (d : list string * list ChangeRecord) : Prop :=
  get_tags_on_commit repo (commit_id entry) = Ok d.1
  ∧ ∃ changes,
      _changes_in_subdir tree_changes tree_changes_for_merge repo entry notesdir
      = Ok changes
      ∧ _aggregate_changes (commit_id entry) changes = Ok d.2.

(** The changes to the note [uid] in the order the scan meets them
    (newest commit first), each with the version current at that time. *)
Fixpoint uid_history (cv uid : string) (evs : list scan_event)
    : list (string * ChangeRecord) :=
  match evs with
  | [] => []
  | EvCommit tags_on_commit :: rest =>
      uid_history (default cv (last tags_on_commit)) uid rest
  | EvChange change :: rest =>
      if decide (cr_uid change = uid) then (cv, change) :: uid_history cv uid rest
      else uid_history cv uid rest
  end.

(** The file name an add, modification or rename proposes for
    [last_name_by_id]. *)
Definition note_name (notesdir : string) (change : ChangeRecord)
    : option (string * sha) :=
  match change with
  | RAdd _ path commit | RModify _ path commit | RRename _ _ path commit =>
      Some (Py.str (Py.path_join (Py.chars notesdir) (Py.chars path)), commit)
  | RDelete _ _ => None
  end.

(** What the state says about one note: its earliest version, its file
    name, and whether it counts as deleted. *)
Definition uid_view (st : ScanState) (uid : string)
    : option string * option (string * sha) * bool :=
  (dict_get uid (earliest_seen st),
   last_name_by_id st !! uid,
   bool_decide (uid ∈ uniqueids_deleted st)).

(** The effect of one change to the note on this view. *)
Definition view_step (notesdir : string)
    (view : option string * option (string * sha) * bool)
    (ev : string * ChangeRecord) : option string * option (string * sha) * bool :=
  let '(_, name, deleted) := view in
  let '(cv, change) := ev in
  if deleted then (Some cv, name, true)
  else
    match name, note_name notesdir change with
    | Some _, _ => (Some cv, name, false)
    | None, Some n => (Some cv, Some n, false)
    | None, None => (Some cv, None, true)
    end.

(** The version current at the last change of a history, [e] if the
    history is empty. *)
Definition last_version (e : option string) (h : list (string * ChangeRecord))
    : option string :=
  match last h with
  | Some (v, _) => Some v
  | None => e
  end.


(** Every version recorded as the earliest of some note has been seen. *)
Definition earliest_versions_known (st : ScanState) : Prop :=
  ∀ u v, (u, v) ∈ earliest_seen st → v ∈ versions st.

(** The version current at the oldest change of a history that starts
    with a change at version [v1] and goes on with [rest]. *)
Definition earliest_of (v1 : string) (rest : list (string * ChangeRecord)) : string :=
  default v1 (fst <$> last rest).

(** A history in which a note is added, deleted, and added again under
    another name; each commit carries a tag. *)
Definition readd_repo : RenoRepo :=
  {| repo_refs := [("HEAD", "c3"); ("refs/heads/master", "c3");
                   ("refs/tags/1.0.0", "c1"); ("refs/tags/2.0.0", "c2");
                   ("refs/tags/3.0.0", "c3")];
     repo_objects :=
       list_to_map
         [("c1", OCommit {| commit_id := "c1"; commit_parents := [];
                            commit_tree := "t1"; commit_time := 100 |});
          ("c2", OCommit {| commit_id := "c2"; commit_parents := ["c1"];
                            commit_tree := "t2"; commit_time := 200 |});
          ("c3", OCommit {| commit_id := "c3"; commit_parents := ["c2"];
                            commit_tree := "t3"; commit_time := 300 |});
          ("t1", OTree {| tree_id := "t1";
                          tree_entries := [("setup.py", "b0"); ("notes", "n1")] |});
          ("t2", OTree {| tree_id := "t2"; tree_entries := [("setup.py", "b0")] |});
          ("t3", OTree {| tree_id := "t3";
                          tree_entries := [("setup.py", "b0"); ("notes", "n3")] |});
          ("n1", OTree {| tree_id := "n1";
                          tree_entries := [("old-0000000000000001.yaml", "b1")] |});
          ("n3", OTree {| tree_id := "n3";
                          tree_entries := [("new-0000000000000001.yaml", "b1")] |});
          ("b0", OBlob "b0" "setup");
          ("b1", OBlob "b1" "a note")] |}.

Definition readd_commits : list Commit :=
  [{| commit_id := "c3"; commit_parents := ["c2"];
      commit_tree := "t3"; commit_time := 300 |};
   {| commit_id := "c2"; commit_parents := ["c1"];
      commit_tree := "t2"; commit_time := 200 |};
   {| commit_id := "c1"; commit_parents := [];
      commit_tree := "t1"; commit_time := 100 |}].

Definition readd_walker (head : sha) : list Commit :=
  if decide (head = "c3") then readd_commits else [].

Definition readd_tree_changes (old new : option sha) : list change_item :=
  if decide (old = None ∧ new = Some "n1") then
    [One {| tc_type := CHANGE_ADD; tc_old_path := None;
            tc_new_path := Some "old-0000000000000001.yaml" |}]
  else if decide (old = Some "n1" ∧ new = None) then
    [One {| tc_type := CHANGE_DELETE;
            tc_old_path := Some "old-0000000000000001.yaml";
            tc_new_path := None |}]
  else if decide (old = None ∧ new = Some "n3") then
    [One {| tc_type := CHANGE_ADD; tc_old_path := None;
            tc_new_path := Some "new-0000000000000001.yaml" |}]
  else [].

Definition readd_config : Config :=
  {| reporoot := "."; notespath := "notes"; branch := None;
     earliest_version := None; collapse_pre_releases := true;
     stop_at_branch_base := true |}.

(** A repository in the shape of the branch tests: [master] with three
    tagged commits, each adding a note, and a branch [stable/2] that
    starts at [2.0.0] and adds one more. *)
Definition branch_commits : list Commit :=
  [{| commit_id := "c3"; commit_parents := ["c2"];
      commit_tree := "t3"; commit_time := 300 |};
   {| commit_id := "s1"; commit_parents := ["c2"];
      commit_tree := "ts"; commit_time := 400 |};
   {| commit_id := "c2"; commit_parents := ["c1"];
      commit_tree := "t2"; commit_time := 200 |};
   {| commit_id := "c1"; commit_parents := [];
      commit_tree := "t1"; commit_time := 100 |}].

Definition branch_repo : RenoRepo :=
  {| repo_refs := [("HEAD", "c3"); ("refs/heads/master", "c3");
                   ("refs/heads/stable/2", "s1");
                   ("refs/tags/1.0.0", "c1"); ("refs/tags/2.0.0", "c2");
                   ("refs/tags/3.0.0", "c3")];
     repo_objects :=
       list_to_map
         (((fun c => (commit_id c, OCommit c)) <$> branch_commits)
          ++ ((fun '(t, n) =>
                 (t, OTree {| tree_id := t; tree_entries := [("notes", n)] |}))
                <$> [("t1", "n1"); ("t2", "n2"); ("t3", "n3"); ("ts", "ns")])
          ++ ((fun n => (n, OTree {| tree_id := n;
                                     tree_entries := [("placeholder", "b")] |}))
                <$> ["n1"; "n2"; "n3"; "ns"])) |}.

Definition branch_walker (head : sha) : list Commit :=
  filter (fun c => commit_id c ∈
            if decide (head = "c3") then ["c3"; "c2"; "c1"]
            else if decide (head = "s1") then ["s1"; "c2"; "c1"]
            else [])
    branch_commits.

Definition add_note (name : string) : change_item :=
  One {| tc_type := CHANGE_ADD; tc_old_path := None; tc_new_path := Some name |}.

Definition branch_tree_changes (old new : option sha) : list change_item :=
  if decide (old = None ∧ new = Some "n1") then
    [add_note "slug1-0000000000000001.yaml"]
  else if decide (old = Some "n1" ∧ new = Some "n2") then
    [add_note "slug2-0000000000000002.yaml"]
  else if decide (old = Some "n2" ∧ new = Some "n3") then
    [add_note "slug3-0000000000000003.yaml"]
  else if decide (old = Some "n2" ∧ new = Some "ns") then
    [add_note "slug21-0000000000000004.yaml"]
  else [].

Definition branch_config (branch : option string) : Config :=
  {| reporoot := "."; notespath := "notes"; branch := branch;
     earliest_version := None; collapse_pre_releases := true;
     stop_at_branch_base := true |}.

(** ** Reading files from a commit *)

(** [file_blob.data]: only a blob has data. *)
Definition blob_data (o : GitObject) : result string :=
  match o with
  | OBlob _ data => Ok data
  | _ => Raise AttributeError
  end.

(** [_get_file_from_tree(filename, tree)], with the file name cut at the
    separators like the path of [_get_subtree]; [None] is the sentinel
    for a missing file. *)
Fixpoint _get_file_from_tree (repo : RenoRepo) (components : list string)
    (tree : GitObject) : result (option string) :=
  match components with
  | [] => Ok None
  | [name] =>
      entry ← tree_lookup tree name;
      match entry with
      | Some s =>
          match repo_objects repo !! s with
          | Some file_blob => data ← blob_data file_blob; Ok (Some data)
          | None => Ok None
          end
      | None => Ok None
      end
  | prefix :: trailing =>
      entry ← tree_lookup tree prefix;
      match entry with
      | Some s =>
          match repo_objects repo !! s with
          | Some subtree => _get_file_from_tree repo trailing subtree
          | None => Ok None
          end
      | None => Ok None
      end
  end.

(** [get_file_at_commit(filename, sha)], of the repository accessor and
    of the scanner, which hands the call on. *)
Definition get_file_at_commit (repo : RenoRepo) (filename : string) (s : sha)
    : result (option string) :=
  commit ← repo_get_commit repo s;
  tree ← repo_get repo (commit_tree commit);
  _get_file_from_tree repo (path_components filename) tree.

(** [_file_exists_at_commit(filename, sha)] *)
Definition _file_exists_at_commit (repo : RenoRepo) (filename : string) (s : sha)
    : result bool :=
  data ← get_file_at_commit repo filename s; Ok (Py.truthy data).

(** What [_get_ref] makes of the object name a reference resolves to:
    a tag object is followed to the object it marks. *)
Definition dereferenced (repo : RenoRepo) (s : sha) : result sha :=
  o ← repo_get repo s;
  match o with
  | OTag t => Ok (tag_object t)
  | _ => Ok s
  end.

(** A commit with an empty file [EMPTY] and a file [doc/README]. *)
Definition files_repo : RenoRepo :=
  {| repo_refs := [("HEAD", "c1"); ("refs/heads/master", "c1")];
     repo_objects :=
       list_to_map
         [("c1", OCommit {| commit_id := "c1"; commit_parents := [];
                            commit_tree := "t1"; commit_time := 100 |});
          ("t1", OTree {| tree_id := "t1";
                          tree_entries := [("EMPTY", "b0"); ("doc", "t2")] |});
          ("t2", OTree {| tree_id := "t2"; tree_entries := [("README", "b1")] |});
          ("b0", OBlob "b0" "");
          ("b1", OBlob "b1" "read me")] |}.

(** A repository whose branch [stable/newton] is gone; the tag
    [newton-eol] marks where it ended. *)
Definition eol_repo : RenoRepo :=
  {| repo_refs := [("HEAD", "c2"); ("refs/heads/master", "c2");
                   ("refs/tags/newton-eol", "tag1")];
     repo_objects :=
       list_to_map
         [("c1", OCommit (mk_commit "c1" [] 100));
          ("c2", OCommit (mk_commit "c2" ["c1"] 200));
          ("tag1", OTag {| tag_id := "tag1"; tag_object := "c1";
                           tag_time := 300 |})] |}.

(** A repository in which the reference [refs/tags/docs] names a tree. *)
Definition tree_tag_repo : RenoRepo :=
  {| repo_refs := [("HEAD", "c1"); ("refs/heads/master", "c1");
                   ("refs/tags/1.0.0", "c1"); ("refs/tags/docs", "t1")];
     repo_objects :=
       list_to_map
         [("c1", OCommit {| commit_id := "c1"; commit_parents := [];
                            commit_tree := "t1"; commit_time := 100 |});
          ("t1", OTree {| tree_id := "t1"; tree_entries := [] |})] |}.

(** The walk of [_get_current_version] along first parents: from [c] it
    passes [n] commits without a tag and arrives at [c']. *)
Inductive untagged_walk (repo : RenoRepo) : Commit → nat → Commit → Prop :=
  | walk_here c : untagged_walk repo c 0 c
  | walk_step c p ps parent n c' :
      get_tags_on_commit repo (commit_id c) = Ok [] →
      commit_parents c = p :: ps →
      repo_get_commit repo p = Ok parent →
      untagged_walk repo parent n c' →
      untagged_walk repo c (S n) c'.

(** A repository whose mainline is called [main]: there is no reference
    for [master]. *)
Definition main_repo : RenoRepo :=
  {| repo_refs := [("HEAD", "c2"); ("refs/heads/main", "c2");
                   ("refs/heads/stable", "s1"); ("refs/tags/1.0.0", "c1")];
     repo_objects :=
       list_to_map
         [("c1", OCommit (mk_commit "c1" [] 100));
          ("c2", OCommit (mk_commit "c2" ["c1"] 200));
          ("s1", OCommit (mk_commit "s1" ["c1"] 300))] |}.

(** A history without merges, newest commit first: every commit has the
    next one of the chain as its only parent, and the last one has no
    parent. *)
Fixpoint linear_history (chain : list Commit) : Prop :=
  match chain with
  | [] => True
  | c :: rest =>
      commit_parents c = match rest with
                         | [] => []
                         | p :: _ => [commit_id p]
                         end
      ∧ linear_history rest
  end.

(** *** More vocabulary for the statements about [_aggregate_changes] *)

(** The path the aggregator reads from a raw change of a handled type:
    the old one for a delete, the new one otherwise. *)
Definition examined_path (c : TreeChange) : option string :=
  match tc_type c with
  | CHANGE_DELETE => decode_path (tc_old_path c)
  | _ => decode_path (tc_new_path c)
  end.

(** A path of ASCII bytes only: [decode('utf-8')] returns its text
    unchanged and does not raise [UnicodeDecodeError]. *)
Definition is_ascii (path : string) : bool :=
  forallb (fun c => (Ascii.N_of_ascii c <? 128)%N) (Py.chars path).

(** Both paths of a raw change, where present, are ASCII. *)
Definition ascii_paths (c : TreeChange) : bool :=
  from_option is_ascii true (tc_old_path c)
  && from_option is_ascii true (tc_new_path c).

(** A raw change the aggregator does not pass over: one of a type it
    refuses, or one whose path is a note file. *)
Definition concerns_notes (c : TreeChange) : bool :=
  negb (handled_type (tc_type c)) || _note_file (examined_path c).

(** A tuple stored for the identifier [uid] is about a note file with
    that identifier, and carries the id of the commit. *)
Definition entry_of_commit (commit : sha) (uid : string) (e : uid_change) : Prop :=
  _note_file (Some (uc_path e)) = true
  ∧ uid = _get_unique_id (uc_path e)
  ∧ match e with
    | UAdd _ s | UModify _ s => s = commit
    | UDelete _ => True
    end.

(** A record is about note files with its identifier, and carries the
    id of the commit. *)
Definition record_of_commit (commit : sha) (r : ChangeRecord) : Prop :=
  match r with
  | RAdd u p s | RModify u p s =>
      s = commit ∧ _note_file (Some p) = true ∧ u = _get_unique_id p
  | RDelete u p => _note_file (Some p) = true ∧ u = _get_unique_id p
  | RRename u old new s =>
      s = commit
      ∧ _note_file (Some old) = true ∧ u = _get_unique_id old
      ∧ _note_file (Some new) = true ∧ u = _get_unique_id new
  end.

(** The groups the aggregator can resolve: a single change, an add with
    a delete, or modifications only. *)
Definition resolvable_group (g : list uid_change) : Prop :=
  length g = 1
  ∨ group_types_eq [CHANGE_ADD; CHANGE_DELETE] g
  ∨ group_types_eq [CHANGE_MODIFY] g.

(** Two commits with the same notes directory: the second one only
    changes [setup.py]. *)
Definition untouched_repo : RenoRepo :=
  {| repo_refs := [("HEAD", "c2"); ("refs/heads/master", "c2");
                   ("refs/tags/1.0.0", "c1")];
     repo_objects :=
       list_to_map
         [("c1", OCommit {| commit_id := "c1"; commit_parents := [];
                            commit_tree := "t1"; commit_time := 100 |});
          ("c2", OCommit {| commit_id := "c2"; commit_parents := ["c1"];
                            commit_tree := "t2"; commit_time := 200 |});
          ("t1", OTree {| tree_id := "t1";
                          tree_entries := [("setup.py", "b0"); ("notes", "n1")] |});
          ("t2", OTree {| tree_id := "t2";
                          tree_entries := [("setup.py", "b1"); ("notes", "n1")] |});
          ("n1", OTree {| tree_id := "n1";
                          tree_entries := [("a-0000000000000001.yaml", "b2")] |});
          ("b0", OBlob "b0" "setup");
          ("b1", OBlob "b1" "setup, changed");
          ("b2", OBlob "b2" "a note")] |}.

(** No identifier is both named and counted as deleted. *)
Definition names_and_deleted_disjoint (st : ScanState) : Prop :=
  ∀ uid, uid ∈ uniqueids_deleted st → last_name_by_id st !! uid = None.

(** The path a record proposes as the name of its note: that of an
    add or a modification, the new one of a rename. *)
Definition cr_new_path (r : ChangeRecord) : option string :=
  match r with
  | RAdd _ path _ | RModify _ path _ | RRename _ _ path _ => Some path
  | RDelete _ _ => None
  end.

(** The raw change [c] adds or modifies the path [p]. *)
Definition names_path (c : TreeChange) (p : string) : Prop :=
  (tc_type c = CHANGE_ADD ∨ tc_type c = CHANGE_MODIFY)
  ∧ tc_new_path c = Some p.

(** A history with a merge: [c0] (tagged [1.0.0]) adds two notes, [d]
    deletes the first one, [y], on another line from [c0], edits it, and
    the merge [m] of [d] and [y], the head, keeps the deletion: its tree
    is that of [d]. *)
Definition merged_delete_commits : list Commit :=
  [{| commit_id := "m"; commit_parents := ["d"; "y"];
      commit_tree := "td"; commit_time := 400 |};
   {| commit_id := "y"; commit_parents := ["c0"];
      commit_tree := "ty"; commit_time := 300 |};
   {| commit_id := "d"; commit_parents := ["c0"];
      commit_tree := "td"; commit_time := 200 |};
   {| commit_id := "c0"; commit_parents := [];
      commit_tree := "t0"; commit_time := 100 |}].

Definition merged_delete_repo : RenoRepo :=
  {| repo_refs := [("HEAD", "m"); ("refs/heads/master", "m");
                   ("refs/tags/1.0.0", "c0")];
     repo_objects :=
       list_to_map
         (((fun c => (commit_id c, OCommit c)) <$> merged_delete_commits)
          ++ [("t0", OTree {| tree_id := "t0";
                              tree_entries := [("setup.py", "b0"); ("notes", "n0")] |});
              ("td", OTree {| tree_id := "td";
                              tree_entries := [("setup.py", "b0"); ("notes", "nd")] |});
              ("ty", OTree {| tree_id := "ty";
                              tree_entries := [("setup.py", "b0"); ("notes", "ny")] |});
              ("n0", OTree {| tree_id := "n0";
                              tree_entries :=
                                [("keep-0000000000000002.yaml", "b2");
                                 ("n-0000000000000001.yaml", "b1")] |});
              ("nd", OTree {| tree_id := "nd";
                              tree_entries :=
                                [("keep-0000000000000002.yaml", "b2")] |});
              ("ny", OTree {| tree_id := "ny";
                              tree_entries :=
                                [("keep-0000000000000002.yaml", "b2");
                                 ("n-0000000000000001.yaml", "b3")] |});
              ("b0", OBlob "b0" "setup");
              ("b1", OBlob "b1" "a note");
              ("b2", OBlob "b2" "another note");
              ("b3", OBlob "b3" "a note, edited")]) |}.

Definition merged_delete_walker (head : sha) : list Commit :=
  if decide (head = "m") then merged_delete_commits else [].

(** The differences between the notes directories of a commit and of
    its only parent. *)
Definition merged_delete_tree_changes (old new : option sha) : list change_item :=
  if decide (old = None ∧ new = Some "n0") then
    [One {| tc_type := CHANGE_ADD; tc_old_path := None;
            tc_new_path := Some "keep-0000000000000002.yaml" |};
     One {| tc_type := CHANGE_ADD; tc_old_path := None;
            tc_new_path := Some "n-0000000000000001.yaml" |}]
  else if decide (old = Some "n0" ∧ new = Some "nd") then
    [One {| tc_type := CHANGE_DELETE;
            tc_old_path := Some "n-0000000000000001.yaml";
            tc_new_path := None |}]
  else if decide (old = Some "n0" ∧ new = Some "ny") then
    [One {| tc_type := CHANGE_MODIFY;
            tc_old_path := Some "n-0000000000000001.yaml";
            tc_new_path := Some "n-0000000000000001.yaml" |}]
  else [].

(** [tree_changes_for_merge] yields the paths in conflict only. The
    merge takes the notes directory of [d] as it is; against [y] its one
    difference is the deletion of the note, and a path deleted against
    one parent and unchanged against the other is no conflict. *)
Definition merged_delete_tree_changes_for_merge (parents : list sha)
    (new : option sha) : list change_item :=
  [].
(** * Properties *)

(** ** Filename helpers *)

Example _get_unique_id_legacy :
  _get_unique_id "releasenotes/notes/0000000000000001-slug1.yaml"
  = "0000000000000001".
Proof. reflexivity. Qed.

Example _get_unique_id_modern :
  _get_unique_id "releasenotes/notes/slug1-0000000000000001.yaml"
  = "0000000000000001".
Proof. reflexivity. Qed.

Example _get_unique_id_long_slug :
  _get_unique_id "0123456789abcdef-add-internationalization.yaml"
  = "rnationalization".
Proof. reflexivity. Qed.

Module PyFacts.
Import Py.

Lemma chars_app s t : chars (s +:+ t) = chars s ++ chars t.
Proof. induction s as [|c s IH]; simpl; [done | by rewrite IH]. Qed.

Lemma str_chars s : str (chars s) = s.
Proof. apply string_of_list_ascii_of_string. Qed.

Lemma chars_str l : chars (str l) = l.
Proof. apply list_ascii_of_string_of_list_ascii. Qed.

Lemma contains_elem_of c l : contains c l = true ↔ c ∈ l.
Proof.
  unfold contains. rewrite existsb_exists. split.
  - intros (x & Hin & Heq). apply Ascii.eqb_eq in Heq. subst.
    by apply list_elem_of_In.
  - intros Hin. exists c. split; [by apply list_elem_of_In | apply Ascii.eqb_refl].
Qed.

Lemma contains_false c l : contains c l = false ↔ c ∉ l.
Proof.
  rewrite <- contains_elem_of. destruct (contains c l); naive_solver.
Qed.

Lemma rfind_None c l : rfind c l = None ↔ c ∉ l.
Proof.
  induction l as [|x l IH]; simpl.
  - split; [intros _; apply not_elem_of_nil | done].
  - rewrite not_elem_of_cons. destruct (rfind c l) as [i|].
    + split; [done | intros [_ Hl]; by apply IH in Hl].
    + destruct (Ascii.eqb_spec x c) as [->|Hne]; split; try done.
      * intros [? _]; done.
      * intros _. split; [congruence | by apply IH].
Qed.

Lemma rfind_app_r c p t : c ∉ t → rfind c (p ++ t) = rfind c p.
Proof.
  intros Ht. induction p as [|x p IH]; simpl.
  - by apply rfind_None.
  - by rewrite IH.
Qed.

Lemma rfind_app_last c p t : c ∉ t → rfind c (p ++ c :: t) = Some (length p).
Proof.
  intros Ht. induction p as [|x p IH]; simpl.
  - apply rfind_None in Ht. rewrite Ht. by rewrite Ascii.eqb_refl.
  - by rewrite IH.
Qed.

Lemma rfind_Some c l i :
  rfind c l = Some i → i < length l ∧ c ∉ drop (S i) l.
Proof.
  revert i. induction l as [|x l IH]; intros i; simpl; [done|].
  destruct (rfind c l) as [j|] eqn:Hj.
  - intros [= <-]. destruct (IH j eq_refl) as [Hlt Hnot]. split; [lia | done].
  - destruct (Ascii.eqb x c); [|done]. intros [= <-]. split; [lia|].
    simpl. rewrite drop_0. by apply rfind_None.
Qed.

Lemma basename_no_sep p : "/"%char ∉ basename p.
Proof.
  unfold basename. destruct (rfind "/" p) as [i|] eqn:Hi.
  - by apply rfind_Some in Hi as [_ ?].
  - by apply rfind_None.
Qed.

Lemma basename_app p t : "/"%char ∉ t → basename (p ++ t) = basename p ++ t.
Proof.
  intros Ht. unfold basename. rewrite rfind_app_r by done.
  destruct (rfind "/" p) as [i|] eqn:Hi; [|done].
  apply rfind_Some in Hi as [Hlt _]. rewrite drop_app_le by lia. done.
Qed.

Lemma basename_id p : "/"%char ∉ p → basename p = p.
Proof. intros Hp. unfold basename. apply rfind_None in Hp. by rewrite Hp. Qed.

Lemma basename_dir d t : "/"%char ∉ t → basename (d ++ "/"%char :: t) = t.
Proof.
  intros Ht. unfold basename. rewrite rfind_app_last by done.
  replace (d ++ "/"%char :: t) with ((d ++ ["/"%char]) ++ t)
    by (by rewrite <- app_assoc).
  apply drop_app_length'. rewrite length_app. simpl. lia.
Qed.

(** [splitext] on a name without directory part whose last dot is
    preceded by some character other than a dot. *)
Lemma splitext_root r e x :
  "/"%char ∉ r ++ "."%char :: e → "."%char ∉ e → x ∈ r → x ≠ "."%char →
  splitext (r ++ "."%char :: e) = (r, "."%char :: e).
Proof.
  intros Hsep Hdot Hx Hxdot. unfold splitext.
  apply rfind_None in Hsep. rewrite Hsep.
  rewrite rfind_app_last by done.
  rewrite decide_True by lia. rewrite drop_0, Nat.sub_0_r.
  rewrite take_app_length, drop_app_length.
  destruct (existsb _ r) eqn:Hex; [done|].
  exfalso. apply not_true_iff_false in Hex. apply Hex.
  apply existsb_exists. exists x. split; [by apply list_elem_of_In|].
  apply negb_true_iff. by apply Ascii.eqb_neq.
Qed.

Lemma last_n_app n x h : length h = n → last_n n (x ++ h) = h.
Proof.
  intros Hn. unfold last_n. rewrite length_app.
  replace (length x + length h - n) with (length x) by lia.
  apply drop_app_length.
Qed.

Lemma last_n_short n l : length l ≤ n → last_n n l = l.
Proof.
  intros Hn. unfold last_n. replace (length l - n) with 0 by lia. done.
Qed.

Lemma last_n_app_long n x h : n ≤ length h → last_n n (x ++ h) = last_n n h.
Proof.
  intros Hn. unfold last_n. rewrite length_app.
  replace (length x + length h - n) with (length x + (length h - n)) by lia.
  by rewrite drop_app_add.
Qed.

End PyFacts.

Section UniqueId.
Import Py PyFacts.

Lemma note_id_no_char (c : ascii) id :
  is_hex_digit c = false → is_note_id id → c ∉ chars id.
Proof.
  intros Hc [_ Hhex] Hin. rewrite Forall_forall in Hhex.
  specialize (Hhex _ Hin). congruence.
Qed.

Lemma yaml_no_sep : "/"%char ∉ chars ".yaml".
Proof. by apply contains_false. Qed.

Lemma get_unique_id_modern slug id :
  is_note_id id → _get_unique_id (modern_name slug id) = id.
Proof.
  intros Hid. unfold _get_unique_id, modern_name.
  rewrite !chars_app.
  assert (Hsep : "/"%char ∉ chars "-" ++ chars id ++ chars ".yaml").
  { rewrite !elem_of_app. intros [H|[H|H]].
    - by apply contains_false in H.
    - by eapply note_id_no_char in H.
    - by apply yaml_no_sep in H. }
  rewrite basename_app by done.
  pose proof (basename_no_sep (chars slug)) as Hb.
  set (b := basename (chars slug)) in *.
  replace (b ++ chars "-" ++ chars id ++ chars ".yaml")
    with ((b ++ chars "-" ++ chars id) ++ "."%char :: chars "yaml")
    by (by rewrite <- !app_assoc).
  rewrite (splitext_root _ _ "-"%char); cbn [fst].
  - replace (b ++ chars "-" ++ chars id) with ((b ++ chars "-") ++ chars id)
      by (by rewrite <- app_assoc).
    rewrite last_n_app by apply Hid.
    assert (Hdash := note_id_no_char "-" id eq_refl Hid).
    apply contains_false in Hdash. rewrite Hdash. apply str_chars.
  - rewrite <- !app_assoc. rewrite elem_of_app. intros [?|?]; done.
  - by apply contains_false.
  - rewrite !elem_of_app. right; left. by apply contains_elem_of.
  - done.
Qed.

Lemma dash_in_legacy_tail (id slug : list ascii) :
  length id = 16 →
  length slug < 16 ∨ "-"%char ∈ last_n 16 slug →
  "-"%char ∈ last_n 16 (id ++ "-"%char :: slug).
Proof.
  intros Hid Hslug.
  destruct (decide (length slug < 16)) as [Hshort|Hlong].
  - unfold last_n. rewrite length_app. simpl.
    rewrite drop_app_le by lia. rewrite elem_of_app. right. left.
  - destruct Hslug as [?|Hin]; [done|].
    replace (id ++ "-"%char :: slug) with ((id ++ ["-"%char]) ++ slug)
      by (by rewrite <- app_assoc).
    rewrite last_n_app_long by lia. done.
Qed.

Lemma get_unique_id_legacy dir id slug :
  is_note_id id → is_dir_prefix dir → "/"%char ∉ chars slug →
  length (chars slug) < 16 ∨ "-"%char ∈ last_n 16 (chars slug) →
  _get_unique_id (legacy_name dir id slug) = id.
Proof.
  intros Hid Hdir Hslug Hdash. unfold _get_unique_id, legacy_name.
  rewrite !chars_app.
  assert (Hsep : "/"%char ∉ chars id ++ chars "-" ++ chars slug ++ chars ".yaml").
  { rewrite !elem_of_app. intros [H|[H|[H|H]]].
    - by eapply note_id_no_char in H.
    - by apply contains_false in H.
    - done.
    - by apply yaml_no_sep in H. }
  assert (Hbase : basename (chars dir ++ chars id ++ chars "-" ++ chars slug
                            ++ chars ".yaml")
                  = chars id ++ chars "-" ++ chars slug ++ chars ".yaml").
  { destruct Hdir as [->|[d ->]].
    - by apply basename_id.
    - rewrite chars_app. rewrite <- app_assoc. by apply basename_dir. }
  rewrite Hbase.
  replace (chars id ++ chars "-" ++ chars slug ++ chars ".yaml")
    with ((chars id ++ "-"%char :: chars slug) ++ "."%char :: chars "yaml")
    by (by rewrite <- !app_assoc).
  rewrite (splitext_root _ _ "-"%char); cbn [fst].
  - pose proof (dash_in_legacy_tail (chars id) (chars slug) (proj1 Hid) Hdash) as Hin.
    apply contains_elem_of in Hin. rewrite Hin.
    rewrite take_app_length' by (symmetry; apply Hid). apply str_chars.
  - by rewrite <- !app_assoc.
  - by apply contains_false.
  - rewrite elem_of_app. right. left.
  - done.
Qed.

End UniqueId.

(** C8, as stated, fails on a legacy name whose slug ends with sixteen
    characters free of dashes: the suffix rule wins and the identifier
    is taken from the slug. *)
Lemma C8_legacy_long_slug_counterexample :
  is_note_id "0123456789abcdef" ∧
  legacy_name "" "0123456789abcdef" "add-internationalization"
    = "0123456789abcdef-add-internationalization.yaml" ∧
  _get_unique_id (legacy_name "" "0123456789abcdef" "add-internationalization")
    = "rnationalization" ∧
  _get_unique_id (legacy_name "" "0123456789abcdef" "add-internationalization")
    ≠ "0123456789abcdef".
Proof.
  split; [|split; [|split]].
  - split; [reflexivity | repeat constructor].
  - reflexivity.
  - reflexivity.
  - discriminate.
Qed.

(** C8 (amended): for a modern name [<slug>-<id>.yaml] the identifier is
    the 16-digit suffix, whatever the slug; for a legacy name
    [<id>-<slug>.yaml] it is the 16-digit prefix provided a dash occurs
    among the last sixteen characters before the extension, that is, the
    slug is shorter than sixteen characters or has a dash among its last
    sixteen. *)
Theorem C8_unique_id_conventions (id : string) :
  is_note_id id →
  (∀ slug, _get_unique_id (modern_name slug id) = id) ∧
  (∀ dir slug,
     is_dir_prefix dir →
     "/"%char ∉ Py.chars slug →
     length (Py.chars slug) < 16 ∨ "-"%char ∈ Py.last_n 16 (Py.chars slug) →
     _get_unique_id (legacy_name dir id slug) = id).
Proof.
  intros Hid. split.
  - intros slug. by apply get_unique_id_modern.
  - intros dir slug. by apply get_unique_id_legacy.
Qed.

Lemma C8_unique_id_conventions_witness :
  is_note_id "0000000000000001" ∧
  _get_unique_id (modern_name "releasenotes/notes/slug1" "0000000000000001")
    = "0000000000000001" ∧
  _get_unique_id (legacy_name "releasenotes/notes/" "0000000000000001" "slug1")
    = "0000000000000001".
Proof.
  assert (Hid : is_note_id "0000000000000001").
  { split; [reflexivity | repeat constructor]. }
  destruct (C8_unique_id_conventions "0000000000000001" Hid) as [Hmodern Hlegacy].
  split; [exact Hid|]. split.
  - apply Hmodern.
  - apply Hlegacy.
    + right. by exists "releasenotes/notes".
    + by apply PyFacts.contains_false.
    + left. simpl. lia.
Defined.

(** ** Change aggregation *)

Example aggregate_ignore :
  _aggregate_changes "commit-id"
    [One {| tc_type := CHANGE_ADD; tc_old_path := None;
            tc_new_path := Some "prefix/add-0000000000000001" |}]
  = Ok [].
Proof. reflexivity. Qed.

Example aggregate_add_then_delete :
  _aggregate_changes "commit-id"
    [One {| tc_type := CHANGE_ADD; tc_old_path := None;
            tc_new_path := Some "prefix/new-0000000000000001.yaml" |};
     One {| tc_type := CHANGE_DELETE;
            tc_old_path := Some "prefix/old-0000000000000001.yaml";
            tc_new_path := None |}]
  = Ok [RRename "0000000000000001" "prefix/old-0000000000000001.yaml"
          "prefix/new-0000000000000001.yaml" "commit-id"].
Proof. reflexivity. Qed.

Example aggregate_tree_changes :
  _aggregate_changes "commit-id"
    [Many [{| tc_type := CHANGE_MODIFY;
              tc_old_path := Some "prefix/old-0000000000000001.yaml";
              tc_new_path := Some "prefix/old-0000000000000001.yaml" |};
           {| tc_type := CHANGE_MODIFY;
              tc_old_path := Some "prefix/old-0000000000000001.yaml";
              tc_new_path := Some "prefix/old-0000000000000001.yaml" |}]]
  = Ok [RModify "0000000000000001" "prefix/old-0000000000000001.yaml" "commit-id";
        RModify "0000000000000001" "prefix/old-0000000000000001.yaml" "commit-id"].
Proof. reflexivity. Qed.

Example aggregate_sorted_by_uid :
  _aggregate_changes "c"
    [One {| tc_type := CHANGE_ADD; tc_old_path := None;
            tc_new_path := Some "b-0000000000000002.yaml" |};
     One {| tc_type := CHANGE_DELETE;
            tc_old_path := Some "a-0000000000000001.yaml";
            tc_new_path := None |}]
  = Ok [RDelete "0000000000000001" "a-0000000000000001.yaml";
        RAdd "0000000000000002" "b-0000000000000002.yaml" "c"].
Proof. reflexivity. Qed.

Section ForEach.
Context {S X : Type} (body : S → X → result S).

Lemma for_each_app s l1 l2 :
  for_each body s (l1 ++ l2) = s' ← for_each body s l1; for_each body s' l2.
Proof.
  revert s. induction l1 as [|x l1 IH]; intros s; simpl; [done|].
  destruct (body s x) as [s'|e]; simpl; [apply IH | done].
Qed.

(** An invariant-style rule for loops that may raise. *)
Lemma for_each_ok_ind (P : S → list X → Prop) s l s' :
  for_each body s l = Ok s' →
  P s [] →
  (∀ s1 done x s2, P s1 done → body s1 x = Ok s2 → P s2 (done ++ [x])) →
  P s' l.
Proof.
  intros Hrun Hinit Hstep.
  assert (Hgen : ∀ done rest s1,
    P s1 done → for_each body s1 rest = Ok s' → P s' (done ++ rest)).
  { intros done rest. revert done.
    induction rest as [|x rest IH]; intros done s1 HP Hr; simpl in *.
    - injection Hr as <-. by rewrite app_nil_r.
    - destruct (body s1 x) as [s2|e] eqn:Hb; simpl in Hr; [|done].
      replace (done ++ x :: rest) with ((done ++ [x]) ++ rest)
        by (by rewrite <- app_assoc).
      eapply IH; [|done]. by eapply Hstep. }
  apply (Hgen [] l s); done.
Qed.

Lemma for_each_raise s l x e :
  x ∈ l → (∀ s1, body s1 x = Raise e) →
  (∀ s1 y e', body s1 y = Raise e' → e' = e) →
  for_each body s l = Raise e.
Proof.
  intros Hin Hx Huniq. revert s.
  induction l as [|y l IH]; intros s; [by apply elem_of_nil in Hin|].
  simpl. destruct (body s y) as [s'|e'] eqn:Hb; simpl.
  - apply elem_of_cons in Hin as [->|Hin]; [by rewrite Hx in Hb | by apply IH].
  - f_equal. by eapply Huniq.
Qed.

Lemma for_each_not_ok s l x :
  x ∈ l → (∀ s1, is_ok (body s1 x) = false) → is_ok (for_each body s l) = false.
Proof.
  intros Hin Hx. revert s.
  induction l as [|y l IH]; intros s; [by apply elem_of_nil in Hin|].
  simpl. destruct (body s y) as [s'|e'] eqn:Hb; simpl; [|done].
  apply elem_of_cons in Hin as [->|Hin]; [|by apply IH].
  specialize (Hx s). by rewrite Hb in Hx.
Qed.
End ForEach.

Section PySortedFacts.
Context {A : Type} (leb : A → A → bool).

Lemma insert_sorted_perm x l : insert_sorted leb x l ≡ₚ x :: l.
Proof.
  induction l as [|y l IH]; simpl; [done|].
  destruct (leb x y); [done|]. rewrite IH. apply Permutation_swap.
Qed.

Lemma py_sorted_perm l : py_sorted leb l ≡ₚ l.
Proof.
  induction l as [|x l IH]; simpl; [done|].
  rewrite insert_sorted_perm. by rewrite IH.
Qed.

Lemma elem_of_py_sorted x l : x ∈ py_sorted leb l ↔ x ∈ l.
Proof. by rewrite py_sorted_perm. Qed.
End PySortedFacts.

Section ByUid.
Implicit Types d : list (string * list uid_change).

Lemma by_uid_get_append_eq u e d :
  by_uid_get u (by_uid_append u e d) = by_uid_get u d ++ [e].
Proof.
  induction d as [|[k cs] d IH]; simpl.
  - by rewrite decide_True.
  - destruct (decide (k = u)) as [->|Hne]; simpl.
    + by rewrite decide_True.
    + by rewrite decide_False.
Qed.

Lemma by_uid_get_append_ne u u' e d :
  u ≠ u' → by_uid_get u' (by_uid_append u e d) = by_uid_get u' d.
Proof.
  intros Hne. induction d as [|[k cs] d IH]; simpl.
  - by rewrite decide_False.
  - destruct (decide (k = u)) as [->|Hku]; simpl.
    + by rewrite !decide_False.
    + destruct (decide (k = u')); done.
Qed.

Lemma by_uid_append_keys u e d :
  (by_uid_append u e d).*1 = if decide (u ∈ d.*1) then d.*1 else d.*1 ++ [u].
Proof.
  induction d as [|[k cs] d IH].
  - case_decide as Hin; [by apply elem_of_nil in Hin | reflexivity].
  - cbn [by_uid_append]. destruct (decide (k = u)) as [->|Hne].
    + rewrite !fmap_cons. cbn [fst].
      destruct (decide (u ∈ u :: d.*1)) as [_|Hin]; [done|].
      exfalso. apply Hin. left.
    + rewrite !fmap_cons, IH. cbn [fst].
      destruct (decide (u ∈ d.*1)) as [Hin|Hnin];
        destruct (decide (u ∈ k :: d.*1)) as [Hin'|Hin']; try done.
      * exfalso. apply Hin'. by right.
      * apply elem_of_cons in Hin' as [->|?]; done.
Qed.

Lemma by_uid_append_NoDup u e d : NoDup d.*1 → NoDup (by_uid_append u e d).*1.
Proof.
  intros Hnd. rewrite by_uid_append_keys. case_decide; [done|].
  apply NoDup_app. split_and!; [done | | apply NoDup_singleton].
  intros x Hx Hx'. apply list_elem_of_singleton in Hx'. by subst.
Qed.

Lemma by_uid_get_elem_of u g d :
  NoDup d.*1 → (u, g) ∈ d → by_uid_get u d = g.
Proof.
  induction d as [|[k cs] d IH]; simpl; intros Hnd Hin.
  - by apply elem_of_nil in Hin.
  - apply NoDup_cons in Hnd as [Hk Hnd].
    apply elem_of_cons in Hin as [[= <- <-]|Hin].
    + by rewrite decide_True.
    + rewrite decide_False; [by apply IH|].
      intros ->. apply Hk. apply list_elem_of_fmap. by exists (u, g).
Qed.

Lemma by_uid_get_nonempty u d :
  by_uid_get u d ≠ [] → (u, by_uid_get u d) ∈ d.
Proof.
  induction d as [|[k cs] d IH]; simpl; [done|].
  destruct (decide (k = u)) as [->|Hne]; intros Hg; [left | right; auto].
Qed.
End ByUid.

Section FilterFacts.
Context {A : Type} (P : A → Prop) `{!∀ x, Decision (P x)}.

Lemma filter_all l : Forall P l → filter P l = l.
Proof.
  induction 1 as [|x l Hx _ IH]; [done|].
  by rewrite filter_cons_True, IH.
Qed.

Lemma filter_none l : Forall (fun x => ¬ P x) l → filter P l = [].
Proof.
  induction 1 as [|x l Hx _ IH]; [done|].
  by rewrite filter_cons_False, IH.
Qed.
End FilterFacts.

#[local] Arguments _note_file : simpl never.
#[local] Arguments _get_unique_id : simpl never.

Section Aggregate.
Variable commit : sha.

Lemma collect_change_handled d c :
  handled_type (tc_type c) = true →
  collect_change commit d c
  = Ok (match classify commit c with
        | Some (u, e) => by_uid_append u e d
        | None => d
        end).
Proof.
  unfold collect_change, classify.
  destruct (tc_type c); try done; intros _.
  - destruct (decode_path (tc_new_path c)) as [p|]; simpl; [|done].
    by destruct (_note_file (Some p)).
  - destruct (decode_path (tc_new_path c)) as [p|]; simpl; [|done].
    by destruct (_note_file (Some p)).
  - destruct (decode_path (tc_old_path c)) as [p|]; simpl; [|done].
    by destruct (_note_file (Some p)).
Qed.

Lemma collect_change_unhandled d c :
  handled_type (tc_type c) = false →
  collect_change commit d c = Raise (ValueError "unhandled change type").
Proof. unfold collect_change. by destruct (tc_type c). Qed.

Lemma collect_change_raise d c e :
  collect_change commit d c = Raise e →
  e = ValueError "unhandled change type".
Proof.
  destruct (handled_type (tc_type c)) eqn:Hh.
  - by rewrite collect_change_handled.
  - rewrite collect_change_unhandled by done. congruence.
Qed.

Lemma collect_changes_flat changes :
  collect_changes commit changes
  = for_each (collect_change commit) [] (flat_changes changes).
Proof.
  unfold collect_changes, flat_changes. generalize (@nil (string * list uid_change)).
  induction changes as [|ec changes IH]; intros d; [done|].
  cbn [for_each mbind list_bind]. rewrite for_each_app.
  destruct (for_each _ d (item_changes ec)) as [d'|e]; simpl; [apply IH | done].
Qed.

Lemma raw_group_app u l1 l2 :
  raw_group commit u (l1 ++ l2) = raw_group commit u l1 ++ raw_group commit u l2.
Proof. apply omap_app. Qed.

Lemma raw_group_snoc u l c :
  raw_group commit u (l ++ [c])
  = raw_group commit u l
    ++ match classify commit c with
       | Some (u', e) => if decide (u' = u) then [e] else []
       | None => []
       end.
Proof.
  rewrite raw_group_app. f_equal. unfold raw_group. simpl.
  destruct (classify commit c) as [[u' e]|]; simpl; [|done].
  by destruct (decide (u' = u)).
Qed.

(** After the first loop, the dictionary holds for every identifier
    exactly its aggregation group. *)
Lemma collect_changes_groups changes d :
  collect_changes commit changes = Ok d →
  NoDup d.*1 ∧
  Forall (fun c => handled_type (tc_type c) = true) (flat_changes changes) ∧
  ∀ u, by_uid_get u d = raw_group commit u (flat_changes changes).
Proof.
  rewrite collect_changes_flat. intros Hrun.
  apply (for_each_ok_ind (collect_change commit)
           (fun d done => NoDup d.*1 ∧
              Forall (fun c => handled_type (tc_type c) = true) done ∧
              ∀ u, by_uid_get u d = raw_group commit u done)) in Hrun; [done| |].
  - split_and!; [apply NoDup_nil_2 | done | done].
  - intros d1 done c d2 (Hnd & Hall & Hget) Hbody.
    destruct (handled_type (tc_type c)) eqn:Hh;
      [|by rewrite collect_change_unhandled in Hbody].
    rewrite collect_change_handled in Hbody by done. injection Hbody as <-.
    split_and!.
    + destruct (classify commit c) as [[u e]|]; [by apply by_uid_append_NoDup | done].
    + apply Forall_app. split; [done | by constructor].
    + intros u. rewrite raw_group_snoc.
      destruct (classify commit c) as [[u' e]|].
      * destruct (decide (u' = u)) as [->|Hne].
        -- by rewrite by_uid_get_append_eq, Hget.
        -- by rewrite by_uid_get_append_ne, app_nil_r, Hget.
      * by rewrite app_nil_r.
Qed.

Lemma collect_changes_unhandled changes c :
  c ∈ flat_changes changes → handled_type (tc_type c) = false →
  collect_changes commit changes = Raise (ValueError "unhandled change type").
Proof.
  intros Hin Hc. rewrite collect_changes_flat.
  eapply for_each_raise; [done | |].
  - intros d. by apply collect_change_unhandled.
  - intros d y e. apply collect_change_raise.
Qed.

Lemma collect_changes_handled changes :
  Forall (fun c => handled_type (tc_type c) = true) (flat_changes changes) →
  ∃ d, collect_changes commit changes = Ok d.
Proof.
  rewrite collect_changes_flat. generalize (@nil (string * list uid_change)).
  induction (flat_changes changes) as [|c l IH]; intros d Hall; simpl; [by eexists|].
  apply Forall_cons in Hall as [Hc Hall].
  rewrite collect_change_handled by done. simpl. by apply IH.
Qed.

(** *** The second loop *)

Lemma types_are_spec ts g : types_are ts g = true ↔ group_types_eq ts g.
Proof.
  unfold types_are, group_types_eq.
  rewrite andb_true_iff, !forallb_forall. split.
  - intros [H1 H2] t. split.
    + intros (c & -> & Hc)%list_elem_of_fmap.
      apply list_elem_of_In, H1 in Hc. by apply bool_decide_eq_true in Hc.
    + intros Ht. apply list_elem_of_In, H2 in Ht. by apply bool_decide_eq_true in Ht.
  - intros H. split.
    + intros c Hc. apply bool_decide_eq_true, H, list_elem_of_fmap.
      exists c. split; [done | by apply list_elem_of_In].
    + intros t Ht. apply bool_decide_eq_true, H. by apply list_elem_of_In.
Qed.

Lemma resolve_group_uid u g rs :
  resolve_group commit u g = Ok rs → Forall (fun r => cr_uid r = u) rs.
Proof.
  unfold resolve_group. intros H.
  assert (Hgen :
    (if types_are [CHANGE_ADD; CHANGE_DELETE] g
     then added ← first_added g; deled ← first_deleted g;
          Ok [RRename u deled added.1 added.2]
     else if types_are [CHANGE_MODIFY] g
          then Ok ((fun c => RModify u (uc_path c) commit) <$> g)
          else Raise (ValueError "Unrecognized changes")) = Ok rs →
    Forall (fun r => cr_uid r = u) rs).
  { clear H. destruct (types_are [CHANGE_ADD; CHANGE_DELETE] g).
    - destruct (first_added g) as [a|]; simpl; [|done].
      destruct (first_deleted g) as [dl|]; simpl; [|done].
      intros [= <-]. by repeat constructor.
    - destruct (types_are [CHANGE_MODIFY] g); [|done].
      intros [= <-]. apply Forall_fmap. by apply Forall_true. }
  destruct g as [|c1 [|c2 g']]; [by apply Hgen| |destruct c1; by apply Hgen].
  destruct c1; injection H as <-; by repeat constructor.
Qed.


Lemma resolve_loop_other u L acc res :
  for_each (resolve_body commit) acc L = Ok res → u ∉ L.*1 →
  filter (fun r => cr_uid r = u) res = filter (fun r => cr_uid r = u) acc.
Proof.
  revert acc. induction L as [|[k cs] L IH]; intros acc; simpl.
  - by intros [= <-].
  - destruct (resolve_group commit k cs) as [rs|] eqn:Hrs; simpl; [|done].
    intros Hrun [Hk Hnin]%not_elem_of_cons.
    rewrite (IH _ Hrun Hnin), filter_app.
    apply resolve_group_uid in Hrs.
    rewrite (filter_none _ rs); [by rewrite app_nil_r|].
    eapply Forall_impl; [done|]. simpl. intros r -> ?. by apply Hk.
Qed.

Lemma resolve_loop_group u g rs L acc res :
  for_each (resolve_body commit) acc L = Ok res →
  NoDup L.*1 → (u, g) ∈ L → resolve_group commit u g = Ok rs →
  filter (fun r => cr_uid r = u) res = filter (fun r => cr_uid r = u) acc ++ rs.
Proof.
  revert acc. induction L as [|[k cs] L IH]; intros acc; simpl.
  - intros _ _ Hin. by apply elem_of_nil in Hin.
  - destruct (resolve_group commit k cs) as [rs'|] eqn:Hrs; simpl; [|done].
    intros Hrun [Hk Hnd]%NoDup_cons Hin Hg.
    apply elem_of_cons in Hin as [[= <- <-]|Hin].
    + rewrite (resolve_loop_other _ _ _ _ Hrun Hk), filter_app.
      rewrite Hg in Hrs. injection Hrs as <-.
      apply resolve_group_uid in Hg.
      f_equal. by apply filter_all.
    + rewrite (IH _ Hrun Hnd Hin Hg), filter_app.
      apply resolve_group_uid in Hrs.
      assert (filter (fun r => cr_uid r = u) rs' = []) as ->;
        [|by rewrite app_nil_r].
      apply filter_none. eapply Forall_impl; [done|]. simpl. intros r -> ->.
      apply Hk. apply list_elem_of_fmap. by exists (u, g).
Qed.

Lemma aggregate_unfold changes :
  _aggregate_changes commit changes
  = by_uid ← collect_changes commit changes;
    for_each (resolve_body commit) [] (py_sorted key_leb by_uid).
Proof.
  unfold _aggregate_changes.
  destruct (collect_changes commit changes) as [d|]; simpl; [|done].
  generalize (@nil ChangeRecord). induction (py_sorted key_leb d) as [|[k cs] L IH];
    intros acc; simpl; [done|].
  destruct (resolve_group commit k cs); simpl; [apply IH | done].
Qed.

(** The records that a successful aggregation reports for [u] are
    those of its group. *)
Lemma aggregate_group changes results u rs :
  _aggregate_changes commit changes = Ok results →
  raw_group commit u (flat_changes changes) ≠ [] →
  resolve_group commit u (raw_group commit u (flat_changes changes)) = Ok rs →
  filter (fun r => cr_uid r = u) results = rs.
Proof.
  rewrite aggregate_unfold.
  destruct (collect_changes commit changes) as [d|] eqn:Hd; simpl; [|done].
  apply collect_changes_groups in Hd as (Hnd & _ & Hget).
  intros Hrun Hne Hg. rewrite <- Hget in Hne, Hg.
  apply by_uid_get_nonempty in Hne.
  eapply resolve_loop_group in Hrun; [by rewrite Hrun| | |done].
  - by rewrite (fmap_Permutation _ _ _ (py_sorted_perm key_leb d)).
  - by apply elem_of_py_sorted.
Qed.

Lemma aggregate_group_raises changes u :
  raw_group commit u (flat_changes changes) ≠ [] →
  is_ok (resolve_group commit u (raw_group commit u (flat_changes changes))) = false →
  is_ok (_aggregate_changes commit changes) = false.
Proof.
  rewrite aggregate_unfold.
  destruct (collect_changes commit changes) as [d|] eqn:Hd; simpl; [|done].
  apply collect_changes_groups in Hd as (Hnd & _ & Hget).
  intros Hne Hg. rewrite <- Hget in Hne, Hg.
  apply by_uid_get_nonempty in Hne.
  eapply for_each_not_ok; [by apply elem_of_py_sorted|].
  intros acc. simpl. by destruct (resolve_group _ _ _).
Qed.

End Aggregate.

Section AggregateErrors.
Variable commit : sha.

Lemma first_added_ok g :
  CHANGE_ADD ∈ uc_type <$> g → ∃ a, first_added g = Ok a.
Proof.
  induction g as [|c g IH]; simpl; [by intros ?%elem_of_nil|].
  intros Hin. destruct c; simpl in *; eauto;
    apply elem_of_cons in Hin as [?|?]; by auto.
Qed.

Lemma first_deleted_ok g :
  CHANGE_DELETE ∈ uc_type <$> g → ∃ p, first_deleted g = Ok p.
Proof.
  induction g as [|c g IH]; simpl; [by intros ?%elem_of_nil|].
  intros Hin. destruct c; simpl in *; eauto;
    apply elem_of_cons in Hin as [?|?]; by auto.
Qed.


Lemma resolve_group_many u g :
  length g ≠ 1 → resolve_group commit u g = resolve_many commit u g.
Proof.
  intros Hlen. destruct g as [|c1 [|c2 g']]; [done|done|]. by destruct c1.
Qed.

Lemma resolve_many_raise u g e :
  resolve_many commit u g = Raise e → e = ValueError "Unrecognized changes".
Proof.
  unfold resolve_many.
  destruct (types_are [CHANGE_ADD; CHANGE_DELETE] g) eqn:Had.
  - apply types_are_spec in Had.
    destruct (first_added_ok g) as [a ->]; [apply Had; left|].
    destruct (first_deleted_ok g) as [p ->]; [apply Had; right; left|].
    done.
  - destruct (types_are [CHANGE_MODIFY] g); [done | congruence].
Qed.

Lemma resolve_group_raise u g e :
  resolve_group commit u g = Raise e → e = ValueError "Unrecognized changes".
Proof.
  destruct (decide (length g = 1)) as [Hlen|Hlen].
  - destruct g as [|c [|??]]; try done. by destruct c.
  - rewrite resolve_group_many by done. apply resolve_many_raise.
Qed.

Lemma resolve_group_unrecognized u g :
  length g ≠ 1 →
  ¬ group_types_eq [CHANGE_ADD; CHANGE_DELETE] g →
  ¬ group_types_eq [CHANGE_MODIFY] g →
  resolve_group commit u g = Raise (ValueError "Unrecognized changes").
Proof.
  intros Hlen Had Hm. rewrite resolve_group_many by done. unfold resolve_many.
  destruct (types_are [CHANGE_ADD; CHANGE_DELETE] g) eqn:E1;
    [by apply types_are_spec in E1|].
  destruct (types_are [CHANGE_MODIFY] g) eqn:E2;
    [by apply types_are_spec in E2 | done].
Qed.

Lemma aggregate_unrecognized changes u :
  let g := raw_group commit u (flat_changes changes) in
  Forall (fun c => handled_type (tc_type c) = true) (flat_changes changes) →
  g ≠ [] → length g ≠ 1 →
  ¬ group_types_eq [CHANGE_ADD; CHANGE_DELETE] g →
  ¬ group_types_eq [CHANGE_MODIFY] g →
  _aggregate_changes commit changes = Raise (ValueError "Unrecognized changes").
Proof.
  intros g Hall Hne Hlen Had Hm. rewrite aggregate_unfold.
  destruct (collect_changes_handled commit changes Hall) as [d Hd].
  rewrite Hd. simpl.
  apply collect_changes_groups in Hd as (Hnd & _ & Hget).
  subst g. rewrite <- Hget in *. apply by_uid_get_nonempty in Hne.
  eapply for_each_raise; [by apply elem_of_py_sorted| |].
  - intros acc. simpl. by rewrite resolve_group_unrecognized.
  - intros acc [k cs] e. simpl.
    destruct (resolve_group commit k cs) eqn:Hr; simpl; [done|].
    intros [= <-]. by eapply resolve_group_raise.
Qed.

Lemma aggregate_unhandled changes c :
  c ∈ flat_changes changes → handled_type (tc_type c) = false →
  _aggregate_changes commit changes = Raise (ValueError "unhandled change type").
Proof.
  intros Hin Hc. rewrite aggregate_unfold.
  by rewrite (collect_changes_unhandled _ _ _ Hin Hc).
Qed.

Lemma handled_type_spec t :
  handled_type t = true ↔ t ∈ [CHANGE_ADD; CHANGE_DELETE; CHANGE_MODIFY].
Proof.
  destruct t; simpl; rewrite !elem_of_cons, elem_of_nil; naive_solver.
Qed.

End AggregateErrors.

(** C5: a group with exactly one Add and one Delete for an identifier
    resolves, without raising, to a single Rename record whose old path
    is the deleted path and whose new path and commit are those of the
    Add; and in the result of a successful aggregation this Rename is
    the only record for the identifier. *)
Theorem C5_add_and_delete_make_rename
    (commit : sha) (changes : list change_item) (uid new_path old_path : string) :
  let g := raw_group commit uid (flat_changes changes) in
  g = [UAdd new_path commit; UDelete old_path]
  ∨ g = [UDelete old_path; UAdd new_path commit] →
  resolve_group commit uid g = Ok [RRename uid old_path new_path commit] ∧
  ∀ results,
    _aggregate_changes commit changes = Ok results →
    filter (fun r => cr_uid r = uid) results
    = [RRename uid old_path new_path commit].
Proof.
  intros g Hg.
  assert (Hres : resolve_group commit uid g = Ok [RRename uid old_path new_path commit]).
  { by destruct Hg as [-> | ->]. }
  split; [done|]. intros results Hrun.
  eapply aggregate_group; [done | | done].
  fold g. by destruct Hg as [-> | ->].
Qed.

Lemma C5_add_and_delete_make_rename_witness :
  let changes :=
    [One {| tc_type := CHANGE_DELETE;
            tc_old_path := Some "prefix/old-0000000000000001.yaml";
            tc_new_path := None |};
     One {| tc_type := CHANGE_MODIFY;
            tc_old_path := Some "prefix/other-0000000000000002.yaml";
            tc_new_path := Some "prefix/other-0000000000000002.yaml" |};
     One {| tc_type := CHANGE_ADD; tc_old_path := None;
            tc_new_path := Some "prefix/new-0000000000000001.yaml" |}] in
  let results :=
    [RRename "0000000000000001" "prefix/old-0000000000000001.yaml"
       "prefix/new-0000000000000001.yaml" "commit-id";
     RModify "0000000000000002" "prefix/other-0000000000000002.yaml"
       "commit-id"] in
  _aggregate_changes "commit-id" changes = Ok results
  ∧ filter (fun r => cr_uid r = "0000000000000001") results
    = [RRename "0000000000000001" "prefix/old-0000000000000001.yaml"
         "prefix/new-0000000000000001.yaml" "commit-id"].
Proof.
  intros changes results.
  assert (Hrun : _aggregate_changes "commit-id" changes = Ok results)
    by reflexivity.
  split; [exact Hrun|].
  refine (proj2 (C5_add_and_delete_make_rename "commit-id" changes
                   "0000000000000001" "prefix/new-0000000000000001.yaml"
                   "prefix/old-0000000000000001.yaml" _) results Hrun).
  right. reflexivity.
Defined.

(** C9: the aggregator raises [ValueError] whenever the change stream
    holds a raw change whose type is not Add, Delete or Modify, and
    whenever some identifier's group is neither a single change, nor of
    type set {Add, Delete}, nor of type set {Modify}. *)
Theorem C9_inconsistent_changes_raise (commit : sha) (changes : list change_item) :
  (∃ c, c ∈ flat_changes changes
        ∧ tc_type c ∉ [CHANGE_ADD; CHANGE_DELETE; CHANGE_MODIFY])
  ∨ (∃ uid, let g := raw_group commit uid (flat_changes changes) in
            g ≠ [] ∧ length g ≠ 1
            ∧ ¬ group_types_eq [CHANGE_ADD; CHANGE_DELETE] g
            ∧ ¬ group_types_eq [CHANGE_MODIFY] g) →
  ∃ msg, _aggregate_changes commit changes = Raise (ValueError msg).
Proof.
  assert (Hraw : ∀ c, c ∈ flat_changes changes →
            tc_type c ∉ [CHANGE_ADD; CHANGE_DELETE; CHANGE_MODIFY] →
            ∃ msg, _aggregate_changes commit changes = Raise (ValueError msg)).
  { intros c Hin Hc. eexists. eapply aggregate_unhandled; [done|].
    rewrite <- handled_type_spec in Hc. by destruct (handled_type (tc_type c)). }
  intros [(c & Hin & Hc) | (uid & Hne & Hlen & Had & Hm)]; [by eapply Hraw|].
  destruct (decide (Forall (fun c => handled_type (tc_type c) = true)
                      (flat_changes changes))) as [Hall|Hsome].
  - eexists. by eapply aggregate_unrecognized.
  - apply not_Forall_Exists in Hsome; [|apply _].
    apply Exists_exists in Hsome as (c & Hin & Hc).
    eapply Hraw; [done|]. by rewrite <- handled_type_spec.
Qed.

Lemma C9_inconsistent_changes_raise_witness :
  (∃ msg, _aggregate_changes "commit-id"
     [One {| tc_type := CHANGE_RENAME;
             tc_old_path := Some "a-0000000000000001.yaml";
             tc_new_path := Some "b-0000000000000001.yaml" |}]
     = Raise (ValueError msg))
  ∧ (∃ msg, _aggregate_changes "commit-id"
       [One {| tc_type := CHANGE_ADD; tc_old_path := None;
               tc_new_path := Some "a-0000000000000001.yaml" |};
        One {| tc_type := CHANGE_MODIFY;
               tc_old_path := Some "b-0000000000000001.yaml";
               tc_new_path := Some "b-0000000000000001.yaml" |}]
       = Raise (ValueError msg)).
Proof.
  split.
  - apply C9_inconsistent_changes_raise. left. eexists. split; [left|].
    simpl. rewrite !elem_of_cons, elem_of_nil. naive_solver.
  - apply C9_inconsistent_changes_raise. right. exists "0000000000000001".
    assert (Hg : raw_group "commit-id" "0000000000000001"
                   (flat_changes
                      [One {| tc_type := CHANGE_ADD; tc_old_path := None;
                              tc_new_path := Some "a-0000000000000001.yaml" |};
                       One {| tc_type := CHANGE_MODIFY;
                              tc_old_path := Some "b-0000000000000001.yaml";
                              tc_new_path := Some "b-0000000000000001.yaml" |}])
                 = [UAdd "a-0000000000000001.yaml" "commit-id";
                    UModify "b-0000000000000001.yaml" "commit-id"])
      by reflexivity.
    cbv zeta. rewrite Hg. split_and!; [done | simpl; lia | |].
    + intros H. specialize (H CHANGE_DELETE). simpl in H.
      rewrite !elem_of_cons, elem_of_nil in H. naive_solver.
    + intros H. specialize (H CHANGE_ADD). simpl in H.
      rewrite !elem_of_cons, elem_of_nil in H. naive_solver.
Defined.

(** ** Sorting *)

Section PySortedOrder.
Context {A : Type} (leb : A → A → bool).
Hypothesis leb_trans : ∀ a b c, leb a b = true → leb b c = true → leb a c = true.
Hypothesis leb_total : ∀ a b, leb a b = false → leb b a = true.

Lemma insert_sorted_Forall (P : A → Prop) x l :
  P x → Forall P l → Forall P (insert_sorted leb x l).
Proof.
  intros Hx Hl. rewrite insert_sorted_perm. by constructor.
Qed.

Lemma insert_sorted_sorted x l :
  StronglySorted (fun a b => leb a b = true) l →
  StronglySorted (fun a b => leb a b = true) (insert_sorted leb x l).
Proof.
  induction 1 as [|y l Hl IH Hy]; simpl; [repeat constructor|].
  destruct (leb x y) eqn:Hxy.
  - constructor; [by constructor|]. constructor; [done|].
    eapply Forall_impl; [done|]. intros z Hz. by eapply leb_trans.
  - constructor; [done|]. apply insert_sorted_Forall; [by apply leb_total | done].
Qed.

Lemma py_sorted_sorted l : StronglySorted (fun a b => leb a b = true) (py_sorted leb l).
Proof.
  induction l as [|x l IH]; simpl; [constructor | by apply insert_sorted_sorted].
Qed.

(** [sorted] leaves a sorted list as it is. *)
Lemma py_sorted_id l :
  StronglySorted (fun a b => leb a b = true) l → py_sorted leb l = l.
Proof.
  induction 1 as [|x l Hl IH Hx]; simpl; [done|].
  rewrite IH. destruct Hx as [|y l' Hxy _]; simpl; [done | by rewrite Hxy].
Qed.

Lemma py_sorted_idemp l : py_sorted leb (py_sorted leb l) = py_sorted leb l.
Proof. apply py_sorted_id, py_sorted_sorted. Qed.
End PySortedOrder.

Lemma StronglySorted_weaken {A} (R R' : A → A → Prop) l :
  (∀ a b, R a b → R' a b) → StronglySorted R l → StronglySorted R' l.
Proof.
  intros HR. induction 1 as [|x l _ IH Hx]; constructor; [done|].
  eapply Forall_impl; [done | auto].
Qed.

(** ** Tags *)

Section Tags.
Variable repo : RenoRepo.

Lemma date_leb_trans a b c :
  date_leb a b = true → date_leb b c = true → date_leb a c = true.
Proof. unfold date_leb. lia. Qed.

Lemma date_leb_total a b : date_leb a b = false → date_leb b a = true.
Proof. unfold date_leb. lia. Qed.


Lemma load_tags_unfold :
  _load_tags repo
  = shas_to_tags ← for_each (load_body repo) ∅ (load_all_tags (repo_refs repo));
    Ok {| _all_tags := load_all_tags (repo_refs repo);
          _shas_to_tags := shas_to_tags |}.
Proof. reflexivity. Qed.

(** Every entry of the index comes from one tag reference, and carries
    the date [tag_target] computes for it. *)
Lemma load_tags_entries idx :
  _load_tags repo = Ok idx →
  ∀ s name date,
    (name, date) ∈ tags_and_dates idx s ↔
    ∃ tag_sha, (name, tag_sha) ∈ _all_tags idx
               ∧ tag_target repo tag_sha = Ok (s, date).
Proof.
  rewrite load_tags_unfold.
  destruct (for_each (load_body repo) ∅ _) as [m|] eqn:Hrun; simpl; [|done].
  intros [= <-]. unfold tags_and_dates. simpl.
  apply (for_each_ok_ind (load_body repo)
    (fun m done => ∀ s name date,
       (name, date) ∈ default [] (m !! s) ↔
       ∃ tag_sha, (name, tag_sha) ∈ done ∧ tag_target repo tag_sha = Ok (s, date))
    _ _ _ Hrun).
  - intros s name date. rewrite lookup_empty. simpl. split.
    + by intros ?%elem_of_nil.
    + by intros (? & ?%elem_of_nil & _).
  - intros m1 done [tag tag_sha] m2 IH Hbody s name date. simpl in Hbody.
    destruct (tag_target repo tag_sha) as [[tagged d]|] eqn:Ht; simpl in Hbody; [|done].
    injection Hbody as <-. unfold setdefault_append.
    destruct (decide (tagged = s)) as [->|Hne].
    + rewrite lookup_insert_eq. simpl. rewrite elem_of_app, IH. split.
      * intros [(ts & Hin & Hts) | Hin%list_elem_of_singleton].
        -- exists ts. rewrite elem_of_app. auto.
        -- injection Hin as -> ->. exists tag_sha. rewrite elem_of_app.
           split; [right; by apply list_elem_of_singleton | done].
      * intros (ts & [Hin | Hin%list_elem_of_singleton]%elem_of_app & Hts).
        -- left. eauto.
        -- injection Hin as -> ->. rewrite Ht in Hts. injection Hts as ->.
           right. by apply list_elem_of_singleton.
    + rewrite lookup_insert_ne by done. rewrite IH. split.
      * intros (ts & Hin & Hts). exists ts. rewrite elem_of_app. auto.
      * intros (ts & [Hin | Hin%list_elem_of_singleton]%elem_of_app & Hts); [eauto|].
        injection Hin as -> ->. rewrite Ht in Hts. by injection Hts as -> ->.
Qed.

Lemma for_each_keep_spec {S X} (body : S → X → result S) xs : ∀ s,
  for_each body s xs
  = match for_each_keep body s xs with
    | (s', None) => Ok s'
    | (_, Some e) => Raise e
    end.
Proof.
  induction xs as [|x xs IH]; intros s; simpl; [done|].
  destruct (body s x); simpl; [apply IH | done].
Qed.

(** The outcome of [_load_tags], read off the state it leaves. *)
Lemma load_tags_state_spec :
  _load_tags repo
  = match _load_tags_state repo with
    | (idx, None) => Ok idx
    | (_, Some e) => Raise e
    end.
Proof.
  rewrite load_tags_unfold. unfold _load_tags_state.
  rewrite for_each_keep_spec. unfold load_body.
  by destruct (for_each_keep _ _ _) as [m [e|]].
Qed.

Lemma load_tags_state_ok idx :
  _load_tags repo = Ok idx → _load_tags_state repo = (idx, None).
Proof.
  rewrite load_tags_state_spec.
  destruct (_load_tags_state repo) as [idx' [e|]]; [done|]. by intros [= ->].
Qed.

Lemma get_tags_on_commit_unfold s :
  get_tags_on_commit repo s
  = idx ← _load_tags repo; Ok (py_sorted date_leb (tags_and_dates idx s)).*1.
Proof.
  unfold get_tags_on_commit, get_tags_on_commit_cached, tags_and_dates.
  rewrite load_tags_state_spec.
  destruct (_load_tags_state repo) as [idx [e|]]; simpl; [done|].
  by destruct (_shas_to_tags idx !! s).
Qed.

(** Where the index can be built, the cache never changes what a call
    returns. *)
Lemma cache_reachable_inv idx0 cache :
  _load_tags repo = Ok idx0 →
  cache_reachable repo cache →
  cache = None ∨
  ∃ idx, cache = Some idx ∧
    ∀ s, py_sorted date_leb (tags_and_dates idx s)
         = py_sorted date_leb (tags_and_dates idx0 s).
Proof.
  intros Hload%load_tags_state_ok.
  induction 1 as [|cache s _ IH]; [by left|]. right.
  assert (Hstep : ∀ idx,
    (∀ s, py_sorted date_leb (tags_and_dates idx s)
          = py_sorted date_leb (tags_and_dates idx0 s)) →
    ∃ idx', (get_tags_on_commit_cached repo (Some idx) s).2 = Some idx' ∧
      ∀ s, py_sorted date_leb (tags_and_dates idx' s)
           = py_sorted date_leb (tags_and_dates idx0 s)).
  { intros idx Hinv. unfold get_tags_on_commit_cached.
    destruct (_shas_to_tags idx !! s) as [tds|] eqn:Hs; simpl.
    - eexists. split; [done|].
      intros s'. unfold tags_and_dates at 1. simpl.
      destruct (decide (s = s')) as [<-|Hne].
      + rewrite lookup_insert_eq. simpl.
        rewrite py_sorted_idemp
          by eauto using date_leb_trans, date_leb_total.
        rewrite <- Hinv. unfold tags_and_dates. by rewrite Hs.
      + rewrite lookup_insert_ne by done. apply Hinv.
    - eauto. }
  destruct IH as [-> | (idx & -> & Hinv)].
  - replace (get_tags_on_commit_cached repo None s)
      with (get_tags_on_commit_cached repo (Some idx0) s)
      by (unfold get_tags_on_commit_cached; by rewrite Hload).
    by apply Hstep.
  - by apply Hstep.
Qed.

(** The list returned is the recorded entries, ordered by date. *)
Lemma get_tags_on_commit_sorted idx s :
  _load_tags repo = Ok idx →
  ∃ entries,
    get_tags_on_commit repo s = Ok entries.*1
    ∧ entries ≡ₚ tags_and_dates idx s
    ∧ StronglySorted (fun a b => (a.2 ≤ b.2)%Z) entries.
Proof.
  intros Hload. exists (py_sorted date_leb (tags_and_dates idx s)). split_and!.
  - by rewrite get_tags_on_commit_unfold, Hload.
  - apply py_sorted_perm.
  - eapply StronglySorted_weaken; [|apply py_sorted_sorted].
    + intros a b. unfold date_leb. lia.
    + apply date_leb_trans.
    + apply date_leb_total.
Qed.

End Tags.

Lemma tag_target_spec repo tag_sha s date :
  tag_target repo tag_sha = Ok (s, date) ↔ tag_ordering_entry repo tag_sha s date.
Proof.
  unfold tag_target, tag_ordering_entry, repo_get.
  destruct (repo_objects repo !! tag_sha) as [[c|t|t|i d]|]; simpl;
    split; try done; try (intros [= -> ->]; done); intros [-> ->]; done.
Qed.

Example two_tags_repo_tags :
  get_tags_on_commit two_tags_repo "c1" = Ok ["1.0.0"; "2.0.0"].
Proof. vm_compute. reflexivity. Qed.

(** C2, as stated, fails for annotated tags: the date recorded for the
    tag [2.0.0] is the tag's own time (300), not the time of the commit
    it marks (100), and the two tags come back ordered by their own
    times. *)
Lemma C2_annotated_tag_counterexample :
  ¬ annotated_tags_use_commit_time two_tags_repo
  ∧ (∃ idx, _load_tags two_tags_repo = Ok idx
            ∧ tags_and_dates idx "c1" = [("2.0.0", 300%Z); ("1.0.0", 200%Z)])
  ∧ get_tags_on_commit two_tags_repo "c1" = Ok ["1.0.0"; "2.0.0"].
Proof.
  assert (Hload : ∃ idx, _load_tags two_tags_repo = Ok idx
            ∧ _all_tags idx = [("2.0.0", "tagA"); ("1.0.0", "tagB")]
            ∧ tags_and_dates idx "c1" = [("2.0.0", 300%Z); ("1.0.0", 200%Z)]).
  { eexists. split; [vm_compute; reflexivity|]. split; vm_compute; reflexivity. }
  destruct Hload as (idx & Hload & Hall & Hdates).
  split; [|split; [by eauto | vm_compute; reflexivity]].
  intros Hclaim.
  specialize (Hclaim idx "2.0.0" "tagA"
                {| tag_id := "tagA"; tag_object := "c1"; tag_time := 300 |}
                two_tags_commit Hload).
  rewrite Hall in Hclaim. simpl in Hclaim. rewrite Hdates in Hclaim.
  assert (Hin : ("2.0.0", 100%Z) ∈ [("2.0.0", 300%Z); ("1.0.0", 200%Z)]).
  { apply Hclaim; [left | vm_compute; reflexivity | vm_compute; reflexivity]. }
  rewrite !elem_of_cons, elem_of_nil in Hin.
  destruct Hin as [Hin|[Hin|[]]]; discriminate Hin.
Qed.

(** C2 (amended): the date a tag is ordered by is the tag object's own
    time for an annotated or signed tag, and the commit time for a
    lightweight tag; the tags on one commit are returned sorted by this
    date, oldest first. *)
Theorem C2_tags_sorted_by_recorded_date (repo : RenoRepo) (idx : TagIndex) :
  _load_tags repo = Ok idx →
  (∀ s name date,
     (name, date) ∈ tags_and_dates idx s ↔
     ∃ tag_sha, (name, tag_sha) ∈ _all_tags idx
                ∧ tag_ordering_entry repo tag_sha s date)
  ∧ (∀ s, ∃ entries,
       get_tags_on_commit repo s = Ok entries.*1
       ∧ entries ≡ₚ tags_and_dates idx s
       ∧ StronglySorted (fun a b => (a.2 ≤ b.2)%Z) entries).
Proof.
  intros Hload. split.
  - intros s name date. rewrite (load_tags_entries repo idx Hload).
    by setoid_rewrite tag_target_spec.
  - intros s. by apply get_tags_on_commit_sorted.
Qed.

Lemma C2_tags_sorted_by_recorded_date_witness :
  ∃ idx,
    _load_tags two_tags_repo = Ok idx
    ∧ (("2.0.0", 300%Z) ∈ tags_and_dates idx "c1" ↔
       ∃ tag_sha, ("2.0.0", tag_sha) ∈ _all_tags idx
                  ∧ tag_ordering_entry two_tags_repo tag_sha "c1" 300)
    ∧ ∃ entries,
        get_tags_on_commit two_tags_repo "c1" = Ok entries.*1
        ∧ entries ≡ₚ tags_and_dates idx "c1"
        ∧ StronglySorted (fun a b => (a.2 ≤ b.2)%Z) entries.
Proof.
  destruct (_load_tags two_tags_repo) as [idx|] eqn:Hload;
    [|vm_compute in Hload; discriminate Hload].
  exists idx. split; [reflexivity|].
  destruct (C2_tags_sorted_by_recorded_date two_tags_repo idx Hload)
    as [Hentries Hsorted].
  split; [apply Hentries | apply Hsorted].
Defined.

(** ** Current version *)

Lemma current_version_loop_untagged repo c n :
  untagged_first_parents repo c n →
  ∀ fuel count, n < fuel →
    current_version_loop repo fuel c count = Some (Ok "0.0.0").
Proof.
  induction 1 as [c Htags Hroot | c p ps parent n Htags Hparents Hget _ IH];
    intros fuel count Hfuel; (destruct fuel as [|fuel]; [lia|]); simpl.
  - by rewrite Htags, Hroot.
  - rewrite Htags, Hparents, Hget. simpl. apply IH. lia.
Qed.

(** C10: when the walk along first parents from the head meets no
    tagged commit before it ends at a commit without parents, the
    current version is the fixed label ["0.0.0"]. *)
Theorem C10_untagged_history_is_0_0_0
    (repo : RenoRepo) (branch : option string) (head : sha) (c : Commit) (n : nat) :
  _get_ref repo branch = Ok head →
  repo_get_commit repo head = Ok c →
  untagged_first_parents repo c n →
  ∀ fuel, n < fuel → _get_current_version repo fuel branch = Some (Ok "0.0.0").
Proof.
  intros Href Hget Hchain fuel Hfuel. unfold _get_current_version.
  rewrite Href, Hget. by eapply current_version_loop_untagged.
Qed.

Lemma C10_untagged_history_is_0_0_0_witness :
  _get_current_version untagged_base_repo 2 (Some "stable") = Some (Ok "0.0.0").
Proof.
  apply (C10_untagged_history_is_0_0_0 untagged_base_repo (Some "stable") "s1"
           (mk_commit "s1" ["c1"] 300) 1).
  - reflexivity.
  - reflexivity.
  - eapply (untagged_step _ _ "c1" [] (mk_commit "c1" [] 100)).
    + vm_compute. reflexivity.
    + reflexivity.
    + reflexivity.
    + apply untagged_root; [vm_compute; reflexivity | reflexivity].
  - lia.
Defined.

Example current_version_after_tag :
  _get_current_version two_tags_repo 1 None = Some (Ok "2.0.0").
Proof. vm_compute. reflexivity. Qed.

(** ** Branch base *)

Section BranchBase.
Variable get_walker : sha → list Commit.
Variable repo : RenoRepo.


Lemma branch_base_find master_head branch_head :
  list_find (fun c => commit_id c ∈
               (list_to_set (commit_id <$> get_walker master_head) : gset sha))
    (get_walker branch_head)
  = list_find (fun c => commit_id c ∈ commit_id <$> get_walker master_head)
      (get_walker branch_head).
Proof.
  induction (get_walker branch_head) as [|c l IH]; [done|].
  simpl. rewrite IH.
  destruct (decide (commit_id c ∈ commit_id <$> get_walker master_head)) as [Hin|Hnin].
  - rewrite decide_True; [done | by apply elem_of_list_to_set].
  - rewrite decide_False; [done | by rewrite elem_of_list_to_set].
Qed.

(** On a tagged divergence commit the base is its last tag. *)
Lemma branch_base_tagged branch master_head branch_head c tags t :
  _get_ref repo (Some "master") = Ok master_head →
  _get_ref repo branch = Ok branch_head →
  divergence_commit get_walker master_head branch_head c →
  get_tags_on_commit repo (commit_id c) = Ok tags →
  last tags = Some t →
  _get_branch_base get_walker repo branch = Ok (Some t).
Proof.
  intros Hm Hb [i Hfind] Htags Hlast. unfold _get_branch_base.
  rewrite Hm. simpl. rewrite Hb. simpl.
  rewrite branch_base_find, Hfind, Htags. simpl.
  unfold last_tag. by rewrite Hlast.
Qed.

(** On an untagged divergence commit [tags[-1]] raises. *)
Lemma branch_base_untagged branch master_head branch_head c :
  _get_ref repo (Some "master") = Ok master_head →
  _get_ref repo branch = Ok branch_head →
  divergence_commit get_walker master_head branch_head c →
  get_tags_on_commit repo (commit_id c) = Ok [] →
  _get_branch_base get_walker repo branch = Raise IndexError.
Proof.
  intros Hm Hb [i Hfind] Htags. unfold _get_branch_base.
  rewrite Hm. simpl. rewrite Hb. simpl.
  by rewrite branch_base_find, Hfind, Htags.
Qed.

End BranchBase.

(** C7 does not hold of the code: on a branch that leaves [master] at
    an untagged commit, [_get_branch_base] raises [IndexError] where the
    claim promises an absent value. *)
Theorem C7_untagged_base_raises :
  divergence_commit untagged_base_walker "c2" "s1" (mk_commit "c1" [] 100)
  ∧ get_tags_on_commit untagged_base_repo "c1" = Ok []
  ∧ _get_branch_base untagged_base_walker untagged_base_repo (Some "stable")
    = Raise IndexError.
Proof.
  split_and!.
  - exists 1. vm_compute. reflexivity.
  - vm_compute. reflexivity.
  - vm_compute. reflexivity.
Qed.

(** ** The history linearizer *)

Section TopoTables.
Implicit Types entries : list Commit.

Lemma topo_all_snoc entries e :
  topo_all (entries ++ [e]) = <[commit_id e := e]> (topo_all entries).
Proof. unfold topo_all. by rewrite foldl_app. Qed.

Lemma topo_all_lookup entries s e :
  NoDup (commit_id <$> entries) →
  topo_all entries !! s = Some e ↔ e ∈ entries ∧ commit_id e = s.
Proof.
  induction entries as [|x entries IH] using rev_ind; intros Hnd.
  - unfold topo_all. simpl. rewrite lookup_empty.
    split; [done | by intros [?%elem_of_nil _]].
  - rewrite fmap_app in Hnd. apply NoDup_app in Hnd as (Hnd & Hx & _).
    rewrite topo_all_snoc, elem_of_app, list_elem_of_singleton.
    destruct (decide (commit_id x = s)) as [<-|Hne].
    + rewrite lookup_insert_eq. split.
      * intros [= <-]. auto.
      * intros [[Hin| ->] Hid]; [|done]. exfalso.
        apply (Hx (commit_id x)); [|left].
        apply list_elem_of_fmap. by exists e.
    + rewrite lookup_insert_ne by done. rewrite IH by done. split.
      * intros [? ?]. auto.
      * intros [[?| ->] ?]; done.
Qed.

Lemma add_children_lookup (c : sha) (ps : list sha) children p x :
  x ∈ default ∅ (foldl (fun ch q => add_child q c ch) children ps !! p) ↔
  x ∈ default ∅ (children !! p) ∨ (x = c ∧ p ∈ ps).
Proof.
  revert children. induction ps as [|q ps IH]; intros children; simpl.
  - split; [auto | intros [?|[_ ?%elem_of_nil]]; done].
  - rewrite IH. unfold add_child. rewrite elem_of_cons.
    destruct (decide (q = p)) as [->|Hne].
    + rewrite lookup_insert_eq. simpl. rewrite elem_of_union, elem_of_singleton.
      naive_solver.
    + rewrite lookup_insert_ne by done. naive_solver.
Qed.

Lemma topo_children_snoc entries e :
  topo_children (entries ++ [e])
  = foldl (fun ch q => add_child q (commit_id e) ch) (topo_children entries)
      (commit_parents e).
Proof. unfold topo_children. by rewrite foldl_app. Qed.

Lemma topo_children_lookup entries p c :
  c ∈ default ∅ (topo_children entries !! p) ↔ is_child entries p c.
Proof.
  unfold is_child. induction entries as [|x entries IH] using rev_ind.
  - unfold topo_children. simpl. rewrite lookup_empty. simpl. split.
    + by intros ?%elem_of_empty.
    + by intros (e & ?%elem_of_nil & _).
  - rewrite topo_children_snoc, add_children_lookup, IH. split.
    + intros [(e & Hin & Hid & Hp) | [-> Hp]].
      * exists e. rewrite elem_of_app. auto.
      * exists x. rewrite elem_of_app, list_elem_of_singleton. auto.
    + intros (e & [Hin| ->%list_elem_of_singleton]%elem_of_app & Hid & Hp).
      * left. eauto.
      * right. auto.
Qed.

Lemma elem_of_push_parents ps todo x :
  x ∈ push_parents ps todo ↔ x ∈ ps ∨ x ∈ todo.
Proof.
  unfold push_parents. revert todo. induction ps as [|p ps IH]; intros todo; simpl.
  - split; [auto | intros [?%elem_of_nil|?]; done].
  - rewrite IH, elem_of_cons. case_bool_decide as Hp.
    + split; [naive_solver|]. intros [[->|?]|?]; auto.
    + rewrite elem_of_cons. naive_solver.
Qed.

Lemma NoDup_push_parents ps todo : NoDup todo → NoDup (push_parents ps todo).
Proof.
  unfold push_parents. revert todo. induction ps as [|p ps IH]; intros todo Hnd; [done|].
  simpl. apply IH. case_bool_decide; [done | by constructor].
Qed.

Lemma length_push_parents ps todo :
  length (push_parents ps todo) ≤ length ps + length todo.
Proof.
  unfold push_parents. revert todo. induction ps as [|p ps IH]; intros todo; simpl; [lia|].
  etrans; [apply IH|]. case_bool_decide; simpl; lia.
Qed.

Lemma pending_weight_mono entries (s : sha) (emitted : gset sha) :
  pending_weight entries ({[s]} ∪ emitted) ≤ pending_weight entries emitted.
Proof.
  induction entries as [|x entries IH]; simpl; [lia|].
  destruct (decide (commit_id x ∈ emitted)) as [Hin|Hnin].
  - rewrite decide_True by set_solver. lia.
  - destruct (decide (commit_id x ∈ {[s]} ∪ emitted)); lia.
Qed.

Lemma pending_weight_emit entries e (emitted : gset sha) :
  e ∈ entries → commit_id e ∉ emitted →
  pending_weight entries ({[commit_id e]} ∪ emitted) + length (commit_parents e)
  ≤ pending_weight entries emitted.
Proof.
  induction entries as [|x entries IH]; simpl.
  - by intros ?%elem_of_nil.
  - intros [->|Hin]%elem_of_cons Hnin.
    + rewrite decide_True by set_solver. rewrite decide_False by done.
      pose proof (pending_weight_mono entries (commit_id x) emitted) as Hm.
      lia.
    + specialize (IH Hin Hnin).
      destruct (decide (commit_id x ∈ emitted)) as [Hx|Hx].
      * rewrite decide_True by set_solver. lia.
      * destruct (decide (commit_id x ∈ {[commit_id e]} ∪ emitted)); lia.
Qed.

End TopoTables.

Section TopoLoop.
Variable entries : list Commit.
Variable head : sha.
Hypothesis Hdag : walker_dag head entries.

#[local] Abbreviation ids := (commit_id <$> entries).

Lemma known_entry x : x ∈ ids → ∃ e, e ∈ entries ∧ commit_id e = x.
Proof. intros (e & -> & Hin)%list_elem_of_fmap. eauto. Qed.

Lemma child_known p c : is_child entries p c → c ∈ ids.
Proof. intros (e & Hin & <- & _). apply list_elem_of_fmap. eauto. Qed.

Lemma unprocessed_children_nil (S : gset sha) (emitted : gset sha) :
  filter (fun c => c ∉ emitted) (elements S) = [] ↔ ∀ c, c ∈ S → c ∈ emitted.
Proof.
  split.
  - intros Hnil c Hc. destruct (decide (c ∈ emitted)) as [|Hnin]; [done|].
    exfalso. eapply (filter_nil_not_elem_of _ _ c); [done | done |].
    by apply elem_of_elements.
  - intros Hall. apply filter_none. apply Forall_forall.
    intros c Hc%elem_of_elements. auto.
Qed.

Lemma topo_inv_init : topo_inv entries [head] ∅.
Proof.
  split.
  - intros x ->%list_elem_of_singleton. apply Hdag.
  - apply NoDup_singleton.
  - intros x _. apply not_elem_of_empty.
  - intros x c Hx. by apply elem_of_empty in Hx.
  - intros x (e & Hin & <-)%known_entry _.
    pose proof (dag_reachable _ _ Hdag e Hin) as Hreach.
    inversion Hreach as [Heq | e' p Hin' _ Hp Heq].
    + left. by apply list_elem_of_singleton.
    + right. exists (commit_id e'). split; [|apply not_elem_of_empty].
      by exists e'.
Qed.

Lemma topo_inv_skip s todo emitted c :
  topo_inv entries (s :: todo) emitted →
  is_child entries s c → c ∉ emitted →
  topo_inv entries todo emitted.
Proof.
  intros [Hknown Hnd Hfresh Hclosed Hprog] Hchild Hc. split.
  - intros x Hx. apply Hknown. by right.
  - by apply NoDup_cons in Hnd as [_ ?].
  - intros x Hx. apply Hfresh. by right.
  - done.
  - intros x Hx Hnin. destruct (Hprog x Hx Hnin) as [Hin|?]; [|by right].
    apply elem_of_cons in Hin as [->|?]; [right; eauto | by left].
Qed.

Lemma topo_inv_emit s todo emitted e :
  topo_inv entries (s :: todo) emitted →
  e ∈ entries → commit_id e = s →
  (∀ c, is_child entries s c → c ∈ emitted) →
  topo_inv entries (push_parents (commit_parents e) todo) ({[s]} ∪ emitted).
Proof.
  intros [Hknown Hnd Hfresh Hclosed Hprog] Hin Hid Hchildren.
  destruct (dag_acyclic _ _ Hdag) as [rank Hrank].
  apply NoDup_cons in Hnd as [Hs Hnd].
  assert (Hsfresh : s ∉ emitted) by (apply Hfresh; left).
  split.
  - intros x [Hx|Hx]%elem_of_push_parents.
    + by eapply dag_closed.
    + apply Hknown. by right.
  - by apply NoDup_push_parents.
  - intros x [Hx|Hx]%elem_of_push_parents.
    + rewrite not_elem_of_union, not_elem_of_singleton. split.
      * intros ->. specialize (Hrank e s Hin Hx). rewrite Hid in Hrank. lia.
      * intros Hem. apply Hsfresh. apply (Hclosed x); [done|].
        exists e. auto.
    + rewrite not_elem_of_union, not_elem_of_singleton. split.
      * by intros ->.
      * apply Hfresh. by right.
  - intros x c [->%elem_of_singleton|Hx]%elem_of_union Hc.
    + apply elem_of_union. right. auto.
    + apply elem_of_union. right. eauto.
  - intros x Hx [Hxs%not_elem_of_singleton Hxe]%not_elem_of_union.
    destruct (Hprog x Hx Hxe) as [Hxin|(c & Hc & Hcn)].
    + left. apply elem_of_push_parents. right.
      apply elem_of_cons in Hxin as [?|?]; done.
    + destruct (decide (c = s)) as [->|Hcs].
      * left. apply elem_of_push_parents. left.
        destruct Hc as (e' & Hin' & Hid' & Hp).
        assert (e' = e) as ->; [|done].
        pose proof (dag_ids_nodup _ _ Hdag) as Hids.
        apply (topo_all_lookup entries (commit_id e) e') in Hids as Hl1.
        apply (topo_all_lookup entries (commit_id e) e) in Hids as Hl2.
        assert (H1 : topo_all entries !! commit_id e = Some e')
          by (apply Hl1; split; congruence).
        assert (H2 : topo_all entries !! commit_id e = Some e)
          by (apply Hl2; split; congruence).
        congruence.
      * right. exists c. split; [done|].
        rewrite not_elem_of_union, not_elem_of_singleton. done.
Qed.

(** With nothing left to do, everything has been emitted. *)
Lemma topo_inv_done emitted x :
  topo_inv entries [] emitted → x ∈ ids → x ∈ emitted.
Proof.
  intros [_ _ _ _ Hprog].
  destruct (dag_acyclic _ _ Hdag) as [rank Hrank].
  set (M := max_list (rank <$> ids)).
  assert (Hbound : ∀ y, y ∈ ids → rank y ≤ M).
  { intros y Hy. apply max_list_elem_of_le. apply list_elem_of_fmap. eauto. }
  assert (Hgen : ∀ n y, M - rank y < n → y ∈ ids → y ∈ emitted).
  { induction n as [|n IH]; intros y Hn Hy; [lia|].
    destruct (decide (y ∈ emitted)) as [|Hnin]; [done|]. exfalso.
    destruct (Hprog y Hy Hnin) as [?%elem_of_nil|(c & Hc & Hcn)]; [done|].
    apply Hcn. apply IH; [|by eapply child_known].
    destruct Hc as (e & Hin & <- & Hp).
    specialize (Hrank e y Hin Hp).
    assert (rank (commit_id e) ≤ M).
    { apply Hbound. apply list_elem_of_fmap. eauto. }
    lia. }
  apply (Hgen (S (M - rank x))). lia.
Qed.

Lemma topo_loop_correct fuel : ∀ todo emitted,
  topo_inv entries todo emitted →
  length todo + pending_weight entries emitted ≤ fuel →
  ∃ out,
    topo_loop (topo_all entries) (topo_children entries) fuel todo emitted
    = Some (out, None)
    ∧ topo_post entries emitted out.
Proof.
  induction fuel as [|fuel IH]; intros todo emitted Hinv Hfuel.
  - destruct todo as [|s todo]; [|simpl in Hfuel; lia].
    exists []. split; [done|]. split.
    + constructor.
    + intros x. split; [by intros ?%elem_of_nil|].
      intros [Hx Hnin]. exfalso. apply Hnin. by eapply topo_inv_done.
    + constructor.
    + intros l1 e l2 c Heq. by destruct l1.
  - destruct todo as [|s todo].
    { exists []. split; [done|]. split.
      + constructor.
      + intros x. split; [by intros ?%elem_of_nil|].
        intros [Hx Hnin]. exfalso. apply Hnin. by eapply topo_inv_done.
      + constructor.
      + intros l1 e l2 c Heq. by destruct l1. }
    cbn [topo_loop].
    assert (Hs : s ∈ ids) by (apply Hinv; left).
    destruct (known_entry s Hs) as (e & Hin & Hid).
    assert (Hlook : topo_all entries !! s = Some e).
    { apply topo_all_lookup; [apply Hdag | done]. }
    rewrite Hlook.
    assert (Hsfresh : s ∉ emitted) by (apply Hinv; left).
    destruct (filter _ (elements (default ∅ (topo_children entries !! s))))
      as [|c cs] eqn:Hun.
    + pose proof (proj1 (unprocessed_children_nil _ _) Hun) as Hall.
      clear Hun. rename Hall into Hun.
      assert (Hchildren : ∀ c, is_child entries s c → c ∈ emitted).
      { intros c Hc. apply Hun. by apply topo_children_lookup. }
      destruct (IH (push_parents (commit_parents e) todo) ({[s]} ∪ emitted))
        as (out & Hrun & Hpost).
      * by eapply topo_inv_emit.
      * pose proof (length_push_parents (commit_parents e) todo).
        pose proof (pending_weight_emit entries e emitted Hin) as Hw.
        rewrite Hid in Hw. specialize (Hw Hsfresh). simpl in Hfuel. lia.
      * exists (e :: out). rewrite Hrun. split; [done|].
        destruct Hpost as [Hnd Hcomplete Hent Hfirst]. split.
        -- rewrite fmap_cons. constructor; [|done].
           rewrite Hid. intros Hx%Hcomplete. set_solver.
        -- intros x. rewrite fmap_cons, elem_of_cons, Hcomplete, Hid.
           rewrite not_elem_of_union, not_elem_of_singleton.
           destruct (decide (x = s)) as [->|]; naive_solver.
        -- by constructor.
        -- intros l1 e' l2 c Heq Hc. destruct l1 as [|e1 l1].
           ++ injection Heq as <- <-. left. apply Hchildren. by rewrite <- Hid.
           ++ injection Heq as <- ->.
              destruct (Hfirst l1 e' l2 c eq_refl Hc) as [Hem|Hl1].
              ** apply elem_of_union in Hem as [->%elem_of_singleton|?]; [|by left].
                 right. rewrite fmap_cons, Hid. left.
              ** right. rewrite fmap_cons. by right.
    + assert (Hc : c ∈ filter (fun c => c ∉ emitted)
                       (elements (default ∅ (topo_children entries !! s))))
        by (rewrite Hun; left).
      apply list_elem_of_filter in Hc as [Hcn Hc].
      apply elem_of_elements, topo_children_lookup in Hc.
      destruct (IH todo emitted) as (out & Hrun & Hpost).
      * by eapply topo_inv_skip.
      * simpl in Hfuel. lia.
      * exists out. by rewrite Hrun.
Qed.

End TopoLoop.

Lemma topo_loop_fuel_mono all children fuel : ∀ fuel' todo emitted r,
  topo_loop all children fuel todo emitted = Some r →
  fuel ≤ fuel' →
  topo_loop all children fuel' todo emitted = Some r.
Proof.
  induction fuel as [|fuel IH]; intros fuel' todo emitted r Hrun Hle.
  - destruct todo; [|done]. by destruct fuel'.
  - destruct todo as [|s todo]; [by destruct fuel'|].
    destruct fuel' as [|fuel']; [lia|].
    cbn [topo_loop] in *.
    destruct (all !! s) as [entry|]; [|done].
    destruct (filter _ _) as [|c cs].
    + destruct (topo_loop all children fuel _ _) as [r0|] eqn:Hr0; [|done].
      rewrite (IH fuel' _ _ r0 Hr0); [done | lia].
    + apply IH; [done | lia].
Qed.

(** The loop reads [children] only through [children.get(sha, set())]. *)
Lemma topo_loop_children_ext all ch1 ch2 fuel :
  (∀ s, default ∅ (ch1 !! s) = default ∅ (ch2 !! s)) →
  ∀ todo emitted,
    topo_loop all ch1 fuel todo emitted = topo_loop all ch2 fuel todo emitted.
Proof.
  intros Hch. induction fuel as [|fuel IH]; intros todo emitted; [done|].
  destruct todo as [|s todo]; [done|]. cbn [topo_loop].
  destruct (all !! s) as [entry|]; [|done].
  rewrite Hch. destruct (filter _ _); [by rewrite IH | apply IH].
Qed.

(** Neither table depends on the order in which the walker delivers the
    commits. *)
Lemma topo_all_perm entries entries' :
  NoDup (commit_id <$> entries) → entries ≡ₚ entries' →
  topo_all entries = topo_all entries'.
Proof.
  intros Hnd Hperm. apply map_eq. intros s.
  assert (Hnd' : NoDup (commit_id <$> entries')) by by rewrite <- Hperm.
  destruct (topo_all entries !! s) as [e|] eqn:H1;
    destruct (topo_all entries' !! s) as [e'|] eqn:H2; [| | |done].
  - apply topo_all_lookup in H1; [|done]. rewrite Hperm in H1.
    apply topo_all_lookup in H1; [|done]. congruence.
  - apply topo_all_lookup in H1; [|done]. rewrite Hperm in H1.
    apply topo_all_lookup in H1; [|done]. congruence.
  - apply topo_all_lookup in H2; [|done]. rewrite <- Hperm in H2.
    apply topo_all_lookup in H2; [|done]. congruence.
Qed.

Lemma topo_children_perm entries entries' s :
  entries ≡ₚ entries' →
  default ∅ (topo_children entries !! s) = default ∅ (topo_children entries' !! s).
Proof.
  intros Hperm. apply set_eq. intros c. rewrite !topo_children_lookup.
  unfold is_child. by setoid_rewrite Hperm.
Qed.

Lemma entries_same_id entries e e' :
  NoDup (commit_id <$> entries) →
  e ∈ entries → e' ∈ entries → commit_id e = commit_id e' → e = e'.
Proof.
  intros Hnd He He' Hid.
  assert (H1 : topo_all entries !! commit_id e = Some e)
    by by apply topo_all_lookup.
  assert (H2 : topo_all entries !! commit_id e = Some e')
    by by apply topo_all_lookup.
  congruence.
Qed.

Lemma topo_post_perm entries out :
  NoDup (commit_id <$> entries) → topo_post entries ∅ out → out ≡ₚ entries.
Proof.
  intros Hnd [Hnd' Hcomplete Hent _].
  apply NoDup_Permutation.
  - by eapply NoDup_fmap_1.
  - by eapply NoDup_fmap_1.
  - intros e. split.
    + intros He. rewrite Forall_forall in Hent. auto.
    + intros He.
      assert (Hid : commit_id e ∈ commit_id <$> out).
      { apply Hcomplete. split; [|apply not_elem_of_empty].
        apply list_elem_of_fmap. eauto. }
      apply list_elem_of_fmap in Hid as (e' & Hid & He').
      rewrite Forall_forall in Hent.
      by rewrite (entries_same_id entries e e' Hnd He (Hent _ He') Hid).
Qed.

Lemma topo_post_order entries out i j c p :
  topo_post entries ∅ out →
  out !! i = Some c → out !! j = Some p →
  commit_id p ∈ commit_parents c → i < j.
Proof.
  intros [Hnd _ Hent Hfirst] Hi Hj Hp.
  assert (Hsplit : out = take j out ++ p :: drop (S j) out).
  { by rewrite <- (take_drop_middle out j p) at 1. }
  assert (Hc : is_child entries (commit_id p) (commit_id c)).
  { exists c. rewrite Forall_forall in Hent. split_and!; [|done..].
    apply Hent. by eapply list_elem_of_lookup_2. }
  destruct (Hfirst _ _ _ _ Hsplit Hc) as [Hem|Hin]; [by apply elem_of_empty in Hem|].
  apply list_elem_of_fmap in Hin as (c' & Hid & Hc').
  apply list_elem_of_lookup in Hc' as [i' Hi'].
  apply lookup_take_Some in Hi' as [Hi' Hlt].
  assert (i = i') as ->; [|done].
  eapply (NoDup_lookup (commit_id <$> out)); [done | |].
  - by rewrite list_lookup_fmap, Hi.
  - by rewrite list_lookup_fmap, Hi', Hid.
Qed.

(** The walker's entries are exactly the commits reachable from the
    head. *)
Lemma walker_dag_reachable head entries x :
  walker_dag head entries →
  x ∈ commit_id <$> entries ↔ reachable entries head x.
Proof.
  intros Hdag. split.
  - intros (e & -> & He)%list_elem_of_fmap. by apply Hdag.
  - induction 1 as [|e p He _ IH Hp]; [apply Hdag|].
    by eapply dag_closed.
Qed.

(** C1: on the directed acyclic graph of the commits reachable from the
    head, the linearizer terminates (the loop needs at most [topo_fuel]
    iterations) and yields every reachable commit exactly once, each
    commit after all of its children; the sequence is the same for every
    sufficient number of loop iterations and for every order in which
    the walker delivers the commits. *)
Theorem C1_topo_traversal_linearizes
    (get_walker : sha → list Commit) (repo : RenoRepo)
    (branch : option string) (head : sha) :
  _get_ref repo branch = Ok head →
  walker_dag head (get_walker head) →
  ∃ out,
    (∀ fuel, topo_fuel (get_walker head) ≤ fuel →
       _topo_traversal get_walker repo fuel branch = Some (out, None))
    ∧ out ≡ₚ get_walker head
    ∧ NoDup (commit_id <$> out)
    ∧ (∀ x, x ∈ commit_id <$> out ↔ reachable (get_walker head) head x)
    ∧ (∀ i j c p,
         out !! i = Some c → out !! j = Some p →
         commit_id p ∈ commit_parents c → i < j)
    ∧ (∀ get_walker' fuel,
         get_walker' head ≡ₚ get_walker head →
         topo_fuel (get_walker head) ≤ fuel →
         _topo_traversal get_walker' repo fuel branch = Some (out, None)).
Proof.
  intros Href Hdag.
  destruct (topo_loop_correct (get_walker head) head Hdag
              (topo_fuel (get_walker head)) [head] ∅) as (out & Hrun & Hpost).
  { apply topo_inv_init. done. }
  { unfold topo_fuel. simpl. lia. }
  exists out.
  assert (Hany : ∀ get_walker' fuel,
            get_walker' head ≡ₚ get_walker head →
            topo_fuel (get_walker head) ≤ fuel →
            _topo_traversal get_walker' repo fuel branch = Some (out, None)).
  { intros get_walker' fuel Hperm Hfuel. unfold _topo_traversal. rewrite Href.
    rewrite <- (topo_all_perm (get_walker head) (get_walker' head));
      [|apply Hdag | done].
    rewrite (topo_loop_children_ext _ _ (topo_children (get_walker head))).
    - by eapply topo_loop_fuel_mono.
    - intros s. by apply topo_children_perm. }
  assert (Hperm : out ≡ₚ get_walker head).
  { apply topo_post_perm; [apply Hdag | done]. }
  split_and!.
  - intros fuel Hfuel. by apply Hany.
  - done.
  - apply Hpost.
  - intros x. rewrite Hperm. by apply walker_dag_reachable.
  - intros i j c p. by eapply topo_post_order.
  - done.
Qed.

Lemma merge_walker_dag : walker_dag "d1239b6" (merge_walker "d1239b6").
Proof.
  assert (Hreach : Forall (fun e => reachable merge_commits "d1239b6" (commit_id e))
                     merge_commits).
  { assert (R1 : reachable merge_commits "d1239b6" "d1239b6") by constructor.
    assert (R2 : reachable merge_commits "d1239b6" "9478612").
    { eapply (reachable_parent _ _ (mk_commit "d1239b6" ["303e21d"; "9478612"] 500));
        [compute_done | done | compute_done]. }
    assert (R3 : reachable merge_commits "d1239b6" "303e21d").
    { eapply (reachable_parent _ _ (mk_commit "d1239b6" ["303e21d"; "9478612"] 500));
        [compute_done | done | compute_done]. }
    assert (R4 : reachable merge_commits "d1239b6" "0ba5186").
    { eapply (reachable_parent _ _ (mk_commit "303e21d" ["0ba5186"] 300));
        [compute_done | done | compute_done]. }
    assert (R5 : reachable merge_commits "d1239b6" "a7f573d").
    { eapply (reachable_parent _ _ (mk_commit "0ba5186" ["a7f573d"] 200));
        [compute_done | done | compute_done]. }
    repeat constructor; done. }
  change (merge_walker "d1239b6") with merge_commits. split.
  - compute_done.
  - compute_done.
  - assert (H : Forall (fun e => Forall (fun p => p ∈ commit_id <$> merge_commits)
                                  (commit_parents e)) merge_commits)
      by compute_done.
    intros e p He Hp. rewrite Forall_forall in H. specialize (H e He).
    rewrite Forall_forall in H. auto.
  - by apply Forall_forall.
  - exists merge_rank.
    assert (H : Forall (fun e => Forall (fun p => merge_rank p < merge_rank (commit_id e))
                                  (commit_parents e)) merge_commits)
      by compute_done.
    intros e p He Hp. rewrite Forall_forall in H. specialize (H e He).
    rewrite Forall_forall in H. auto.
Qed.

Lemma C1_topo_traversal_linearizes_witness :
  ∃ out,
    (∀ fuel, topo_fuel (merge_walker "d1239b6") ≤ fuel →
       _topo_traversal merge_walker merge_repo fuel None = Some (out, None))
    ∧ out ≡ₚ merge_walker "d1239b6"
    ∧ NoDup (commit_id <$> out)
    ∧ (∀ x, x ∈ commit_id <$> out ↔ reachable (merge_walker "d1239b6") "d1239b6" x)
    ∧ (∀ i j c p,
         out !! i = Some c → out !! j = Some p →
         commit_id p ∈ commit_parents c → i < j)
    ∧ (∀ get_walker' fuel,
         get_walker' "d1239b6" ≡ₚ merge_walker "d1239b6" →
         topo_fuel (merge_walker "d1239b6") ≤ fuel →
         _topo_traversal get_walker' merge_repo fuel None = Some (out, None)).
Proof.
  apply (C1_topo_traversal_linearizes merge_walker merge_repo None "d1239b6").
  - reflexivity.
  - exact merge_walker_dag.
Defined.

Example topo_traversal_merge :
  fmap (M := option) (fun ys => (commit_id <$> ys.1, ys.2))
    (_topo_traversal merge_walker merge_repo 10 None)
  = Some (["d1239b6"; "9478612"; "303e21d"; "0ba5186"; "a7f573d"], None).
Proof. vm_compute. reflexivity. Qed.

(** ** The version assigner *)

(** C3 does not hold of the code: [sorted] is applied to the pairs
    [(path, commit)], so a bucket is ordered by path. Here the note with
    identifier [...02] comes before the note with identifier [...01]. *)
Theorem C3_bucket_sorted_by_path_not_id :
  get_notes_by_version two_notes_walker two_notes_tree_changes (fun _ _ => [])
    two_notes_repo default_config 5
  = Some (Ok [("1.0.0",
               [("releasenotes/notes/aaa-0000000000000002.yaml", "c1");
                ("releasenotes/notes/zzz-0000000000000001.yaml", "c1")])])
  ∧ _get_unique_id "releasenotes/notes/aaa-0000000000000002.yaml"
    = "0000000000000002"
  ∧ _get_unique_id "releasenotes/notes/zzz-0000000000000001.yaml"
    = "0000000000000001"
  ∧ String.ltb "0000000000000001" "0000000000000002" = true.
Proof. split_and!; vm_compute; reflexivity. Qed.

Example pre_release_examples :
  PRE_RELEASE_RE "1.0.0.0rc1" = Some "0rc1"
  ∧ PRE_RELEASE_RE "1.0.0.0a1" = Some "0a1"
  ∧ PRE_RELEASE_RE "1.0.0.0b12" = Some "0b12"
  ∧ PRE_RELEASE_RE "1.0.0" = None
  ∧ PRE_RELEASE_RE "1.0.0.rc1" = None
  ∧ PRE_RELEASE_RE "4.0.0.0rc1-1" = None
  ∧ strip_pre_release "1.0.0.0rc1" "0rc1" = "1.0.0"
  ∧ drop_last_component "4.0.0.0rc1" = "4.0.0".
Proof. split_and!; reflexivity. Qed.

Section Dict.
Context {V : Type}.
Implicit Types d : list (string * V).

Lemma dict_get_set_eq k v d : dict_get k (dict_set k v d) = Some v.
Proof.
  induction d as [|[k' v'] d IH]; simpl.
  - by rewrite decide_True.
  - destruct (decide (k' = k)) as [->|Hne]; simpl.
    + by rewrite decide_True.
    + by rewrite decide_False.
Qed.

Lemma dict_get_set_ne k k' v d : k ≠ k' → dict_get k' (dict_set k v d) = dict_get k' d.
Proof.
  intros Hne. induction d as [|[k0 v0] d IH]; simpl.
  - by rewrite decide_False.
  - destruct (decide (k0 = k)) as [->|Hk]; simpl.
    + by rewrite !decide_False.
    + destruct (decide (k0 = k')); done.
Qed.

Lemma dict_get_Some_elem_of k v d : dict_get k d = Some v → (k, v) ∈ d.
Proof.
  induction d as [|[k0 v0] d IH]; simpl; [done|].
  destruct (decide (k0 = k)) as [->|Hk].
  - intros [= ->]. left.
  - intros H. right. auto.
Qed.

Lemma dict_set_keys k v d :
  (dict_set k v d).*1 = if decide (k ∈ d.*1) then d.*1 else d.*1 ++ [k].
Proof.
  induction d as [|[k0 v0] d IH].
  - simpl. destruct (decide (k ∈ [])) as [Hin|]; [by apply elem_of_nil in Hin | done].
  - cbn [dict_set]. destruct (decide (k0 = k)) as [->|Hne].
    + rewrite !fmap_cons. cbn [fst].
      destruct (decide (k ∈ k :: d.*1)) as [_|Hin]; [done|].
      exfalso. apply Hin. left.
    + rewrite !fmap_cons, IH. cbn [fst].
      destruct (decide (k ∈ d.*1)) as [Hin|Hnin];
        destruct (decide (k ∈ k0 :: d.*1)) as [Hin'|Hin']; try done.
      * exfalso. apply Hin'. by right.
      * apply elem_of_cons in Hin' as [->|?]; done.
Qed.

Lemma dict_get_None k d : dict_get k d = None ↔ k ∉ d.*1.
Proof.
  induction d as [|[k0 v0] d IH]; simpl.
  - split; [intros _; apply not_elem_of_nil | done].
  - rewrite not_elem_of_cons. destruct (decide (k0 = k)) as [->|Hne].
    + split; [done | intros [? _]; done].
    + rewrite IH. split; [intros ?; split; [congruence | done] | intros [_ ?]; done].
Qed.
End Dict.

(** ** Pre-release versions *)

Section PreRelease.
Import Py PyFacts.

Lemma span_digits_stop l :
  match l with [] => True | c :: _ => is_digit c = false end →
  span_digits l = ([], l).
Proof. destruct l as [|c l]; simpl; [done|]. by intros ->. Qed.

Lemma span_digits_app d rest :
  Forall (fun c => is_digit c = true) d →
  span_digits rest = ([], rest) →
  span_digits (d ++ rest) = (d, rest).
Proof.
  intros Hd Hrest. induction Hd as [|c d Hc _ IH]; simpl; [done|].
  by rewrite Hc, IH.
Qed.

Lemma span_markers_stop l :
  match l with [] => True | c :: _ => is_digit c = true end →
  span_markers l = ([], l).
Proof.
  destruct l as [|c l]; simpl; [done|]. intros Hc.
  assert (Ha : Ascii.eqb c "a" = false).
  { apply Ascii.eqb_neq. by intros ->. }
  assert (Hb : Ascii.eqb c "b" = false).
  { apply Ascii.eqb_neq. by intros ->. }
  assert (Hr : Ascii.eqb c "r" = false).
  { apply Ascii.eqb_neq. by intros ->. }
  rewrite Ha, Hb, Hr. simpl. by destruct l.
Qed.

Lemma span_markers_app markers rest :
  Forall is_marker markers →
  span_markers rest = ([], rest) →
  span_markers (concat markers ++ rest) = (concat markers, rest).
Proof.
  intros Hm Hrest. induction Hm as [|m markers Hm _ IH]; simpl; [done|].
  rewrite <- app_assoc.
  destruct Hm as [-> | [-> | ->]]; simpl; by rewrite IH.
Qed.

Lemma marker_head_not_digit markers rest :
  Forall is_marker markers → markers ≠ [] →
  match concat markers ++ rest with
  | [] => True
  | c :: _ => is_digit c = false
  end.
Proof.
  intros Hm Hne. destruct Hm as [|m markers Hm _]; [done|].
  by destruct Hm as [-> | [-> | ->]].
Qed.

(** The runs stop in front of a dot. *)
Lemma span_digits_dot a y d r :
  span_digits (a ++ "."%char :: y) = (d, r) → ∃ a', r = a' ++ "."%char :: y.
Proof.
  revert d r. induction a as [|c a IH]; intros d r; simpl.
  - intros [= _ <-]. by exists [].
  - destruct (is_digit c).
    + destruct (span_digits (a ++ "."%char :: y)) as [d' r'] eqn:Hs.
      intros [= _ <-]. by eapply IH.
    + intros [= _ <-]. by exists (c :: a).
Qed.

Lemma span_markers_dot a y m r :
  span_markers (a ++ "."%char :: y) = (m, r) → ∃ a', r = a' ++ "."%char :: y.
Proof.
  remember (length a) as n eqn:Hn. revert a Hn m r.
  induction n as [n IH] using lt_wf_ind. intros a Hn m r.
  destruct a as [|c a]; simpl.
  - destruct y; intros [= _ <-]; by exists [].
  - destruct (Ascii.eqb c "a" || Ascii.eqb c "b").
    + destruct (span_markers (a ++ "."%char :: y)) as [m' r'] eqn:Hs.
      intros [= _ <-]. eapply (IH (length a)); [simpl in Hn; lia | done | done].
    + destruct a as [|c2 a]; simpl.
      * rewrite andb_false_r. intros [= _ <-]. by exists [c].
      * destruct (Ascii.eqb c "r" && Ascii.eqb c2 "c").
        -- destruct (span_markers (a ++ "."%char :: y)) as [m' r'] eqn:Hs.
           intros [= _ <-]. eapply (IH (length a)); [simpl in Hn; lia | done | done].
        -- intros [= _ <-]. by exists (c :: c2 :: a).
Qed.

(** No match starts at a dot that is followed by another dot. *)
Lemma pre_release_match_at_not_last a y :
  pre_release_match_at ("."%char :: a ++ "."%char :: y) = None.
Proof.
  unfold pre_release_match_at. rewrite Ascii.eqb_refl.
  destruct (span_digits _) as [d1 r1] eqn:H1.
  apply span_digits_dot in H1 as [a1 ->].
  destruct (span_markers _) as [ms r2] eqn:H2.
  apply span_markers_dot in H2 as [a2 ->].
  destruct (span_digits _) as [d2 r3] eqn:H3.
  apply span_digits_dot in H3 as [a3 ->].
  destruct d1; [done|]. destruct ms; [done|].
  rewrite bool_decide_eq_false_2; [done|].
  intros [H|H]; destruct a3 as [|? [|??]]; done.
Qed.

Lemma pre_release_match_at_tail d1 markers d2 :
  d1 ≠ [] → Forall (fun c => is_digit c = true) d1 →
  markers ≠ [] → Forall is_marker markers →
  Forall (fun c => is_digit c = true) d2 →
  pre_release_match_at ("."%char :: d1 ++ concat markers ++ d2)
  = Some (d1 ++ concat markers ++ d2).
Proof.
  intros Hd1 Hdig1 Hm Hmark Hdig2.
  unfold pre_release_match_at. rewrite Ascii.eqb_refl.
  rewrite span_digits_app; [|done|].
  2:{ apply span_digits_stop. by apply marker_head_not_digit. }
  rewrite span_markers_app; [|done|].
  2:{ apply span_markers_stop. by destruct Hdig2. }
  rewrite <- (app_nil_r d2) at 1.
  rewrite span_digits_app by done.
  destruct d1 as [|c1 d1]; [done|].
  destruct (concat markers) as [|m ms] eqn:Hc.
  { destruct Hmark as [|m markers Hm' _]; [done|].
    by destruct Hm' as [-> | [-> | ->]]. }
  rewrite bool_decide_eq_true_2; [done | by left].
Qed.

Lemma pre_release_search_label p tail :
  "."%char ∉ tail →
  pre_release_match_at ("."%char :: tail) = Some tail →
  pre_release_search (p ++ "."%char :: tail) = Some tail.
Proof.
  intros Hdot Hmatch. induction p as [|c p IH].
  - simpl app. destruct tail; simpl in *; by rewrite Hmatch.
  - change ((c :: p) ++ "."%char :: tail) with (c :: (p ++ "."%char :: tail)).
    assert (Hnone : pre_release_match_at (c :: (p ++ "."%char :: tail)) = None).
    { destruct (Ascii.eqb_spec c ".") as [->|Hne].
      - apply pre_release_match_at_not_last.
      - simpl. apply Ascii.eqb_neq in Hne. by rewrite Hne. }
    cbn [pre_release_search]. by rewrite Hnone.
Qed.

Lemma rstrip_snoc c l : rstrip c (l ++ [c]) = rstrip c l.
Proof.
  induction l as [|x l IH]; simpl.
  - by rewrite Ascii.eqb_refl.
  - by rewrite IH.
Qed.

Lemma rstrip_id c l : last l ≠ Some c → rstrip c l = l.
Proof.
  induction l as [|x l IH]; [done|].
  destruct l as [|y l].
  - simpl. intros Hx. destruct (Ascii.eqb_spec x c) as [->|]; done.
  - intros Hlast.
    change (rstrip c (x :: y :: l))
      with (match rstrip c (y :: l) with
            | [] => if Ascii.eqb x c then [] else [x]
            | r => x :: r
            end).
    by rewrite IH.
Qed.

Lemma digit_not_dot d :
  Forall (fun c => is_digit c = true) d → "."%char ∉ d.
Proof.
  intros Hd Hin. rewrite Forall_forall in Hd. by apply Hd in Hin.
Qed.

Lemma marker_not_dot markers :
  Forall is_marker markers → "."%char ∉ concat markers.
Proof.
  induction 1 as [|m markers Hm _ IH]; simpl; [apply not_elem_of_nil|].
  rewrite elem_of_app. intros [Hin|Hin]; [|done].
  destruct Hm as [-> | [-> | ->]]; by apply contains_elem_of in Hin.
Qed.

Lemma chars_pre_release_label prefix d1 markers d2 :
  chars (pre_release_label prefix d1 markers d2)
  = chars prefix ++ "."%char :: d1 ++ concat markers ++ d2.
Proof.
  unfold pre_release_label. by rewrite !chars_app, chars_str.
Qed.

(** On a pre-release label the pattern finds the last component, and
    stripping it gives back the prefix. *)
Lemma pre_release_label_match prefix d1 markers d2 :
  d1 ≠ [] → Forall (fun c => is_digit c = true) d1 →
  markers ≠ [] → Forall is_marker markers →
  Forall (fun c => is_digit c = true) d2 →
  PRE_RELEASE_RE (pre_release_label prefix d1 markers d2)
  = Some (str (d1 ++ concat markers ++ d2)).
Proof.
  intros Hd1 Hdig1 Hm Hmark Hdig2. unfold PRE_RELEASE_RE.
  rewrite chars_pre_release_label, pre_release_search_label; [done| |].
  - rewrite !elem_of_app. intros [H|[H|H]].
    + by apply (digit_not_dot d1).
    + by apply (marker_not_dot markers).
    + by apply (digit_not_dot d2).
  - by apply pre_release_match_at_tail.
Qed.

Lemma strip_pre_release_label prefix d1 markers d2 :
  last (chars prefix) ≠ Some "."%char →
  strip_pre_release (pre_release_label prefix d1 markers d2)
    (str (d1 ++ concat markers ++ d2))
  = prefix.
Proof.
  intros Hlast. unfold strip_pre_release.
  rewrite chars_pre_release_label, chars_str.
  replace (chars prefix ++ "."%char :: d1 ++ concat markers ++ d2)
    with ((chars prefix ++ ["."%char]) ++ (d1 ++ concat markers ++ d2))
    by (by rewrite <- app_assoc).
  rewrite length_app.
  replace (length (chars prefix ++ ["."%char]) + length (d1 ++ concat markers ++ d2)
           - length (d1 ++ concat markers ++ d2))
    with (length (chars prefix ++ ["."%char])) by lia.
  rewrite take_app_length, rstrip_snoc, rstrip_id by done.
  apply str_chars.
Qed.

Lemma canonical_version_label versions_by_date prefix d1 markers d2 :
  d1 ≠ [] → Forall (fun c => is_digit c = true) d1 →
  markers ≠ [] → Forall is_marker markers →
  Forall (fun c => is_digit c = true) d2 →
  last (chars prefix) ≠ Some "."%char →
  canonical_version versions_by_date (pre_release_label prefix d1 markers d2)
  = if decide (prefix ∈ versions_by_date) then prefix
    else pre_release_label prefix d1 markers d2.
Proof.
  intros. unfold canonical_version.
  rewrite pre_release_label_match, strip_pre_release_label by done.
  destruct (decide (prefix ∈ versions_by_date)).
  - by rewrite bool_decide_eq_true_2.
  - by rewrite bool_decide_eq_false_2.
Qed.

End PreRelease.

(** ** The collapser *)

Lemma collapse_step_mono versions_by_date collapsing acc ov k x :
  x ∈ files_of k acc →
  x ∈ files_of k (collapse_step versions_by_date collapsing acc ov).
Proof.
  intros Hx. unfold collapse_step.
  destruct (dict_get ov collapsing) as [files|]; [|done].
  unfold files_of in *.
  destruct (decide (canonical_version versions_by_date ov = k)) as [->|Hne].
  - rewrite dict_get_set_eq. simpl. apply elem_of_app. by left.
  - by rewrite dict_get_set_ne.
Qed.

Lemma collapse_fold_mono versions_by_date collapsing l acc k x :
  x ∈ files_of k acc →
  x ∈ files_of k (foldl (collapse_step versions_by_date collapsing) acc l).
Proof.
  revert acc. induction l as [|v l IH]; intros acc Hx; [done|].
  simpl. apply IH. by apply collapse_step_mono.
Qed.

Lemma collapse_fold_files known collapsing l acc ov files x :
  ov ∈ l →
  dict_get ov collapsing = Some files →
  x ∈ files →
  x ∈ files_of (canonical_version known ov)
        (foldl (collapse_step known collapsing) acc l).
Proof.
  intros Hov Hfiles Hx. revert acc Hov.
  induction l as [|v l IH]; intros acc Hov; [by apply elem_of_nil in Hov|].
  simpl. apply elem_of_cons in Hov as [<-|Hov]; [|by apply IH].
  apply collapse_fold_mono. unfold collapse_step, files_of.
  rewrite Hfiles, dict_get_set_eq. simpl. apply elem_of_app. by right.
Qed.

(** The files of every known version that has a bucket end up in the
    bucket of its canonical version. *)
Lemma collapse_files versions_by_date collapsing ov files x :
  ov ∈ versions_by_date →
  dict_get ov collapsing = Some files →
  x ∈ files →
  x ∈ files_of (canonical_version versions_by_date ov)
        (collapse versions_by_date collapsing).
Proof. apply collapse_fold_files. Qed.

Lemma canonical_version_known versions_by_date ov :
  ov ∈ versions_by_date → canonical_version versions_by_date ov ∈ versions_by_date.
Proof.
  intros Hov. unfold canonical_version.
  destruct (PRE_RELEASE_RE ov) as [g|]; [|done].
  case_bool_decide; done.
Qed.

(** Every bucket of the collapsed mapping is named by a known version. *)
Lemma collapse_keys_known versions_by_date collapsing v :
  v ∉ versions_by_date → dict_get v (collapse versions_by_date collapsing) = None.
Proof.
  intros Hv. unfold collapse.
  assert (Hgen : ∀ l acc,
    (∀ ov, ov ∈ l → ov ∈ versions_by_date) →
    dict_get v acc = None →
    dict_get v (foldl (collapse_step versions_by_date collapsing) acc l) = None).
  { induction l as [|ov l IH]; intros acc Hl Hacc; [done|].
    simpl. apply IH; [intros; apply Hl; by right|].
    unfold collapse_step. destruct (dict_get ov collapsing) as [files|]; [|done].
    rewrite dict_get_set_ne; [done|].
    intros Heq. apply Hv. rewrite <- Heq.
    apply canonical_version_known, Hl. left. }
  by apply Hgen.
Qed.

Example collapse_test :
  collapse ["1.0.0"; "1.0.0.0rc1"; "1.0.0.0b1"; "1.0.0.0a1"]
    [("1.0.0", [("f4", "c4")]); ("1.0.0.0rc1", [("f3", "c3")]);
     ("1.0.0.0b1", [("f2", "c2")]); ("1.0.0.0a1", [("f1", "c1")])]
  = [("1.0.0", [("f4", "c4"); ("f3", "c3"); ("f2", "c2"); ("f1", "c1")])].
Proof. vm_compute. reflexivity. Qed.

Example collapse_without_full_release :
  collapse ["1.0.0.0rc1"; "1.0.0.0b1"; "1.0.0.0a1"]
    [("1.0.0.0rc1", [("f3", "c3")]); ("1.0.0.0b1", [("f2", "c2")]);
     ("1.0.0.0a1", [("f1", "c1")])]
  = [("1.0.0.0rc1", [("f3", "c3")]); ("1.0.0.0b1", [("f2", "c2")]);
     ("1.0.0.0a1", [("f1", "c1")])].
Proof. vm_compute. reflexivity. Qed.

(** C6, as stated, fails on a label that has the marker right after
    the dot: [1.0.0.rc1] is not recognised as a pre-release, and its
    bucket stays on its own although [1.0.0] is a known version. *)
Lemma C6_marker_first_counterexample :
  marker_first_label "1.0.0" "rc" "1" = "1.0.0.rc1"
  ∧ PRE_RELEASE_RE "1.0.0.rc1" = None
  ∧ "1.0.0" ∈ ["1.0.0"; "1.0.0.rc1"]
  ∧ collapse ["1.0.0"; "1.0.0.rc1"]
      [("1.0.0", [("notes/b-0000000000000002.yaml", "c2")]);
       ("1.0.0.rc1", [("notes/a-0000000000000001.yaml", "c1")])]
    = [("1.0.0", [("notes/b-0000000000000002.yaml", "c2")]);
       ("1.0.0.rc1", [("notes/a-0000000000000001.yaml", "c1")])].
Proof.
  split_and!; [reflexivity | reflexivity | left | vm_compute; reflexivity].
Qed.

(** C6 (amended): for a label [<prefix>.<digits><markers><digits>]
    whose last component is one or more digits, one or more of the
    markers [a], [b], [rc], and then any number of digits, the collapser
    puts the notes of its bucket into the bucket of [<prefix>] if and
    only if [<prefix>] is among the known versions; otherwise the notes
    stay in a bucket of the label itself, and no bucket [<prefix>]
    exists. *)
Theorem C6_collapse_into_known_release
    (versions_by_date : list string) (collapsing : list (string * bucket))
    (prefix : string) (d1 : list ascii) (markers : list (list ascii))
    (d2 : list ascii) (files : bucket) :
  let ov := pre_release_label prefix d1 markers d2 in
  let collapsed := collapse versions_by_date collapsing in
  d1 ≠ [] → Forall (fun c => is_digit c = true) d1 →
  markers ≠ [] → Forall is_marker markers →
  Forall (fun c => is_digit c = true) d2 →
  last (Py.chars prefix) ≠ Some "."%char →
  ov ∈ versions_by_date →
  dict_get ov collapsing = Some files →
  canonical_version versions_by_date ov
  = (if decide (prefix ∈ versions_by_date) then prefix else ov)
  ∧ (prefix ∈ versions_by_date →
     ∀ x, x ∈ files → x ∈ files_of prefix collapsed)
  ∧ (prefix ∉ versions_by_date →
     dict_get prefix collapsed = None
     ∧ ∀ x, x ∈ files → x ∈ files_of ov collapsed).
Proof.
  intros ov collapsed Hd1 Hdig1 Hm Hmark Hdig2 Hlast Hov Hfiles.
  pose proof (canonical_version_label versions_by_date prefix d1 markers d2
                Hd1 Hdig1 Hm Hmark Hdig2 Hlast) as Hcanon.
  fold ov in Hcanon. split; [done|]. split.
  - intros Hknown x Hx.
    pose proof (collapse_files versions_by_date collapsing ov files x Hov Hfiles Hx)
      as Hin.
    rewrite Hcanon in Hin. by rewrite decide_True in Hin.
  - intros Hunknown. split; [by apply collapse_keys_known|].
    intros x Hx.
    pose proof (collapse_files versions_by_date collapsing ov files x Hov Hfiles Hx)
      as Hin.
    rewrite Hcanon in Hin. by rewrite decide_False in Hin.
Qed.

Lemma C6_collapse_into_known_release_witness :
  let known := ["1.0.0"; "1.0.0.0rc1"] in
  let collapsing :=
    [("1.0.0", [("notes/b-0000000000000002.yaml", "c2")]);
     ("1.0.0.0rc1", [("notes/a-0000000000000001.yaml", "c1")])] in
  canonical_version known "1.0.0.0rc1" = "1.0.0"
  ∧ ("notes/a-0000000000000001.yaml", "c1")
      ∈ files_of "1.0.0" (collapse known collapsing).
Proof.
  intros known collapsing.
  destruct (C6_collapse_into_known_release known collapsing "1.0.0"
              (Py.chars "0") [Py.chars "rc"] (Py.chars "1")
              [("notes/a-0000000000000001.yaml", "c1")])
    as (Hcanon & Hknown & _).
  - discriminate.
  - repeat constructor.
  - discriminate.
  - constructor; [right; right; reflexivity | constructor].
  - repeat constructor.
  - discriminate.
  - right. left.
  - reflexivity.
  - split.
    + exact Hcanon.
    + apply Hknown; left.
Defined.

(** ** The main loop, one note at a time *)

Section NoteView.
Variable notesdir : string.
Variable uid : string.

Lemma remember_name_lookup_ne u path commit names :
  u ≠ uid → remember_name notesdir u path commit names !! uid = names !! uid.
Proof.
  intros Hne. unfold remember_name. destruct (names !! u); [done|].
  by rewrite lookup_insert_ne.
Qed.

Lemma remember_name_lookup_eq path commit names :
  remember_name notesdir uid path commit names !! uid
  = match names !! uid with
    | Some n => Some n
    | None => Some (Py.str (Py.path_join (Py.chars notesdir) (Py.chars path)),
                    commit)
    end.
Proof.
  unfold remember_name. destruct (names !! uid) eqn:Hn; [done|].
  by rewrite lookup_insert_eq.
Qed.

Lemma apply_change_current_version st r :
  current_version (apply_change notesdir st r) = current_version st.
Proof. unfold apply_change. case_bool_decide; [done|]. by destruct r. Qed.

Lemma apply_change_versions st r :
  versions (apply_change notesdir st r) = versions st.
Proof. unfold apply_change. case_bool_decide; [done|]. by destruct r. Qed.

Lemma apply_change_earliest_seen st r :
  earliest_seen (apply_change notesdir st r)
  = dict_set (cr_uid r) (current_version st) (earliest_seen st).
Proof. unfold apply_change. case_bool_decide; [done|]. by destruct r. Qed.

Lemma apply_change_view_other st r :
  cr_uid r ≠ uid →
  uid_view (apply_change notesdir st r) uid = uid_view st uid.
Proof.
  intros Hne. unfold uid_view. rewrite apply_change_earliest_seen.
  rewrite dict_get_set_ne by done. unfold apply_change.
  case_bool_decide as Hdel; [done|].
  destruct r as [u p c|u p|u p c|u o p c]; simpl in *;
    rewrite ?remember_name_lookup_ne by done; try done.
  f_equal. destruct (last_name_by_id st !! u); [done|].
  apply bool_decide_ext. set_solver.
Qed.

Lemma apply_change_view_same st r :
  cr_uid r = uid →
  uid_view (apply_change notesdir st r) uid
  = view_step notesdir (uid_view st uid) (current_version st, r).
Proof.
  intros Hu. unfold uid_view, view_step. rewrite apply_change_earliest_seen, Hu.
  rewrite dict_get_set_eq. unfold apply_change. rewrite Hu.
  destruct (bool_decide (uid ∈ uniqueids_deleted st)) eqn:Hdel;
    [simpl; by rewrite Hdel|].
  apply bool_decide_eq_false in Hdel.
  destruct r as [u p c|u p|u p c|u o p c]; simpl in *; subst u.
  - rewrite remember_name_lookup_eq.
    destruct (last_name_by_id st !! uid); by rewrite bool_decide_eq_false_2.
  - destruct (last_name_by_id st !! uid).
    + by rewrite bool_decide_eq_false_2.
    + rewrite bool_decide_eq_true_2; [done | set_solver].
  - rewrite remember_name_lookup_eq.
    destruct (last_name_by_id st !! uid); by rewrite bool_decide_eq_false_2.
  - rewrite remember_name_lookup_eq.
    destruct (last_name_by_id st !! uid); by rewrite bool_decide_eq_false_2.
Qed.

Lemma enter_commit_view st tags :
  uid_view (enter_commit st tags).1 uid = uid_view st uid.
Proof. unfold enter_commit. by destruct (last tags). Qed.

Lemma enter_commit_current_version st tags :
  current_version (enter_commit st tags).1 = default (current_version st) (last tags).
Proof. unfold enter_commit. by destruct (last tags). Qed.

(** The view of a note after the scan is determined by its history. *)
Lemma scan_view evs : ∀ st,
  uid_view (foldl (scan_step notesdir) st evs) uid
  = foldl (view_step notesdir) (uid_view st uid)
      (uid_history (current_version st) uid evs).
Proof.
  induction evs as [|ev evs IH]; intros st; [done|].
  destruct ev as [tags|r]; simpl.
  - rewrite IH, enter_commit_view, enter_commit_current_version. done.
  - rewrite IH, apply_change_current_version.
    destruct (decide (cr_uid r = uid)) as [Hu|Hu]; simpl.
    + by rewrite apply_change_view_same.
    + by rewrite apply_change_view_other.
Qed.

Lemma last_version_cons e v r h :
  last_version e ((v, r) :: h) = last_version (Some v) h.
Proof.
  unfold last_version. destruct h as [|[v' r'] h]; [done|].
  rewrite last_cons_cons.
  destruct (last ((v', r') :: h)) as [[??]|] eqn:Hl; [done|].
  by apply last_None in Hl.
Qed.

(** Once a name is recorded it stays, whatever is met later. *)
Lemma view_kept h : ∀ e n,
  foldl (view_step notesdir) (e, Some n, false) h
  = (last_version e h, Some n, false).
Proof.
  induction h as [|[v r] h IH]; intros e n; [done|].
  simpl. by rewrite IH, last_version_cons.
Qed.

(** A note marked as deleted stays deleted. *)
Lemma view_deleted h : ∀ e n,
  foldl (view_step notesdir) (e, n, true) h = (last_version e h, n, true).
Proof.
  induction h as [|[v r] h IH]; intros e n; [done|].
  simpl. by rewrite IH, last_version_cons.
Qed.

Lemma view_history v1 r1 rest :
  foldl (view_step notesdir) (None, None, false) ((v1, r1) :: rest)
  = match note_name notesdir r1 with
    | Some x => (last_version (Some v1) rest, Some x, false)
    | None => (last_version (Some v1) rest, None, true)
    end.
Proof.
  simpl. destruct (note_name notesdir r1) as [x|].
  - apply view_kept.
  - apply view_deleted.
Qed.

End NoteView.

(** ** Building the buckets *)

Lemma empty_buckets_get (v : string) (vs : list string) :
  ∀ d : list (string * bucket),
    dict_get v (foldl (fun d v => dict_set v [] d) d vs)
    = if decide (v ∈ vs) then Some [] else dict_get v d.
Proof.
  induction vs as [|a vs IH]; intros d; simpl.
  - destruct (decide (v ∈ [])) as [Hin|]; [by apply elem_of_nil in Hin | done].
  - rewrite IH. destruct (decide (v ∈ vs)) as [Hin|Hnin].
    + rewrite decide_True; [done | by right].
    + destruct (decide (a = v)) as [->|Hne].
      * rewrite dict_get_set_eq. rewrite decide_True; [done | left].
      * rewrite dict_get_set_ne by done. rewrite decide_False; [done|].
        rewrite not_elem_of_cons. split; [congruence | done].
Qed.

Section Invert.
Variable names : gmap string (string * sha).
Implicit Types d : list (string * bucket).

Lemma invert_step_dom d item v :
  dict_get v (invert_step names d item) = None ↔ dict_get v d = None.
Proof.
  destruct item as [u ver]. unfold invert_step.
  destruct (names !! u) as [name|]; [|done].
  destruct (dict_get ver d) as [files|] eqn:Hver; [|done].
  destruct (decide (ver = v)) as [->|Hne].
  - rewrite dict_get_set_eq, Hver. done.
  - by rewrite dict_get_set_ne.
Qed.

Lemma invert_step_files d u ver v x :
  x ∈ files_of v (invert_step names d (u, ver)) ↔
  x ∈ files_of v d ∨ (dict_get v d ≠ None ∧ ver = v ∧ names !! u = Some x).
Proof.
  unfold invert_step, files_of.
  destruct (names !! u) as [name|] eqn:Hname.
  - destruct (dict_get ver d) as [files|] eqn:Hver.
    + destruct (decide (ver = v)) as [->|Hne].
      * rewrite dict_get_set_eq, Hver. simpl.
        rewrite elem_of_app, list_elem_of_singleton. naive_solver.
      * rewrite dict_get_set_ne by done. naive_solver.
    + split; [by left|]. intros [?|(Hv & -> & _)]; [done|]. by rewrite Hver in Hv.
  - naive_solver.
Qed.

Lemma invert_fold_dom items : ∀ d v,
  dict_get v (foldl (invert_step names) d items) = None ↔ dict_get v d = None.
Proof.
  induction items as [|item items IH]; intros d v; [done|].
  simpl. by rewrite IH, invert_step_dom.
Qed.

Lemma invert_fold_files items : ∀ d v x,
  x ∈ files_of v (foldl (invert_step names) d items) ↔
  x ∈ files_of v d
  ∨ (dict_get v d ≠ None ∧ ∃ u, (u, v) ∈ items ∧ names !! u = Some x).
Proof.
  induction items as [|[u ver] items IH]; intros d v x.
  - simpl. split; [by left|]. intros [?|(_ & u & ?%elem_of_nil & _)]; done.
  - cbn [foldl]. rewrite IH, invert_step_files.
    assert (Hdom := invert_step_dom d (u, ver) v).
    split.
    + intros [[?|(Hv & -> & Hn)]|(Hv & u' & Hin & Hn)].
      * by left.
      * right. split; [done|]. exists u. split; [left | done].
      * right. split; [by rewrite <- Hdom|]. exists u'. split; [by right | done].
    + intros [?|(Hv & u' & Hin & Hn)]; [by left; left|].
      apply elem_of_cons in Hin as [[= -> ->]|Hin].
      * left. right. done.
      * right. split; [by rewrite Hdom|]. eauto.
Qed.

End Invert.

(** The bucket of a version holds the names of the notes whose earliest
    version it is. *)
Lemma invert_earliest_seen_files st v x :
  x ∈ files_of v (invert_earliest_seen st) ↔
  v ∈ versions st
  ∧ ∃ u, (u, v) ∈ earliest_seen st ∧ last_name_by_id st !! u = Some x.
Proof.
  unfold invert_earliest_seen. rewrite invert_fold_files.
  unfold files_of at 1. rewrite !empty_buckets_get. simpl.
  destruct (decide (v ∈ versions st)) as [Hv|Hv]; simpl.
  - split.
    + intros [?%elem_of_nil|[_ ?]]; done.
    + intros [_ ?]. right. done.
  - split.
    + intros [?%elem_of_nil|[? _]]; done.
    + intros [? _]. done.
Qed.

Lemma dict_set_elem_of {V} (k u : string) (x v : V) (d : list (string * V)) :
  (u, v) ∈ dict_set k x d → (u, v) = (k, x) ∨ (u, v) ∈ d.
Proof.
  induction d as [|[k0 v0] d IH]; simpl.
  - intros ->%list_elem_of_singleton. by left.
  - destruct (decide (k0 = k)) as [->|Hne].
    + intros [->|?]%elem_of_cons; [by left | right; by right].
    + intros [->|Hin]%elem_of_cons; [right; left|].
      destruct (IH Hin) as [?|?]; [by left | right; by right].
Qed.

Section ScanInvariant.
Variable notesdir : string.

Lemma apply_changes_known records : ∀ st,
  current_version st ∈ versions st → earliest_versions_known st →
  earliest_versions_known (foldl (apply_change notesdir) st records).
Proof.
  induction records as [|r records IH]; intros st Hcv Hknown; [done|].
  simpl. apply IH.
  - by rewrite apply_change_current_version, apply_change_versions.
  - intros u v. rewrite apply_change_earliest_seen, apply_change_versions.
    intros [[= -> ->]|Hin]%dict_set_elem_of; [done | by eapply Hknown].
Qed.

Lemma enter_commit_known st tags :
  earliest_versions_known st →
  current_version (enter_commit st tags).1 ∈ versions (enter_commit st tags).1
  ∧ earliest_versions_known (enter_commit st tags).1.
Proof.
  intros Hknown. unfold enter_commit, earliest_versions_known.
  destruct (last tags) as [t|]; simpl.
  - case_bool_decide as Hin.
    + split; [done | apply Hknown].
    + split; [apply elem_of_app; right; left|].
      intros u v Huv. apply elem_of_app. left. by eapply Hknown.
  - case_bool_decide as Hin.
    + split; [done | apply Hknown].
    + split; [apply elem_of_app; right; left|].
      intros u v Huv. apply elem_of_app. left. by eapply Hknown.
Qed.

Lemma foldl_changes st records :
  foldl (scan_step notesdir) st (EvChange <$> records)
  = foldl (apply_change notesdir) st records.
Proof. revert st. induction records as [|r records IH]; intros st; [done | apply IH]. Qed.

Lemma scan_records_cons st d seen :
  scan_records notesdir st (d :: seen)
  = scan_records notesdir
      (foldl (apply_change notesdir) (enter_commit st d.1).1 d.2) seen.
Proof.
  unfold scan_records. cbn [mbind list_bind]. rewrite foldl_app. f_equal.
  unfold commit_events. cbn [foldl scan_step]. apply foldl_changes.
Qed.

Lemma scan_records_known seen : ∀ st,
  earliest_versions_known st →
  earliest_versions_known (scan_records notesdir st seen).
Proof.
  induction seen as [|d seen IH]; intros st Hknown; [done|].
  rewrite scan_records_cons. apply IH.
  destruct (enter_commit_known st d.1 Hknown) as [Hcv Hknown'].
  by apply apply_changes_known.
Qed.

End ScanInvariant.

(** ** The main loop *)

Section ScanLoop.
Variable tree_changes : option sha → option sha → list change_item.
Variable tree_changes_for_merge : list sha → option sha → list change_item.
Variable repo : RenoRepo.
Variable notesdir : string.

(** The loop computes [scan_records] of what it reads for the commits
    it goes through. *)
Lemma scan_loop_seen branch_base_tag final entries : ∀ st st',
  scan_loop tree_changes tree_changes_for_merge repo notesdir branch_base_tag
    st entries final = Ok st' →
  ∃ seen,
    Forall2 (commit_data tree_changes tree_changes_for_merge repo notesdir)
      (take (length seen) entries) seen
    ∧ st' = scan_records notesdir st seen.
Proof.
  induction entries as [|entry entries IH]; intros st st'; simpl.
  - destruct final; [done|]. intros [= <-]. exists []. split; [constructor | done].
  - unfold scan_commit.
    destruct (get_tags_on_commit repo (commit_id entry)) as [toc|] eqn:Htags;
      simpl; [|done].
    destruct (enter_commit st toc) as [st1 tags] eqn:Henter.
    destruct (_changes_in_subdir _ _ _ entry notesdir) as [changes|] eqn:Hch;
      simpl; [|done].
    destruct (_aggregate_changes (commit_id entry) changes) as [records|] eqn:Hagg;
      simpl; [|done].
    assert (Hdata : commit_data tree_changes tree_changes_for_merge repo notesdir
                      entry (toc, records)).
    { split; [done|]. exists changes. done. }
    assert (Hst1 : st1 = (enter_commit st toc).1) by by rewrite Henter.
    destruct (Py.truthy branch_base_tag && _).
    + intros [= <-]. exists [(toc, records)]. split.
      * simpl. rewrite take_0. constructor; [done | constructor].
      * by rewrite scan_records_cons, Hst1.
    + intros Hrun. destruct (IH _ _ Hrun) as (seen & Hseen & ->).
      exists ((toc, records) :: seen). split.
      * simpl. by constructor.
      * by rewrite scan_records_cons, Hst1.
Qed.

End ScanLoop.

Lemma last_version_earliest v1 rest :
  last_version (Some v1) rest = Some (earliest_of v1 rest).
Proof.
  unfold last_version, earliest_of. by destruct (last rest) as [[v r]|].
Qed.

Lemma initial_state_view cv0 uid : uid_view (initial_state cv0) uid = (None, None, false).
Proof. done. Qed.

Lemma initial_state_known cv0 : earliest_versions_known (initial_state cv0).
Proof. intros u v Hin. by apply elem_of_nil in Hin. Qed.

(** What the scan knows of a note at its end, from the note's history. *)
Lemma scan_records_note notesdir cv0 seen uid v1 r1 rest :
  let st := scan_records notesdir (initial_state cv0) seen in
  uid_history cv0 uid (seen ≫= commit_events) = (v1, r1) :: rest →
  uid_view st uid
  = match note_name notesdir r1 with
    | Some x => (Some (earliest_of v1 rest), Some x, false)
    | None => (Some (earliest_of v1 rest), None, true)
    end.
Proof.
  intros st Hh. unfold st, scan_records.
  rewrite scan_view, initial_state_view. simpl current_version. rewrite Hh.
  rewrite view_history, last_version_earliest. done.
Qed.

(** The scan goes through the commits in the order of the traversal,
    and the first change it meets for a note decides. If that change is
    not a delete, the note is not treated as deleted and its file is in
    the bucket of the version current at the last change met; if it is a
    delete, the note is marked as deleted and no entry of any bucket
    belongs to it. On a history without merges the first change met is
    the newest one. *)
Lemma first_change_met_decides
    (tree_changes : option sha → option sha → list change_item)
    (tree_changes_for_merge : list sha → option sha → list change_item)
    (repo : RenoRepo) (notesdir : string) (branch_base_tag : option string)
    (cv0 : string) (entries : list Commit) (final : option exn) (st : ScanState) :
  scan_loop tree_changes tree_changes_for_merge repo notesdir branch_base_tag
    (initial_state cv0) entries final = Ok st →
  ∃ seen,
    Forall2 (commit_data tree_changes tree_changes_for_merge repo notesdir)
      (take (length seen) entries) seen
    ∧ st = scan_records notesdir (initial_state cv0) seen
    ∧ ∀ uid v1 r1 rest,
        uid_history cv0 uid (seen ≫= commit_events) = (v1, r1) :: rest →
        (cr_type r1 ≠ CHANGE_DELETE →
         (uid ∉ uniqueids_deleted st)
         ∧ ∃ x, note_name notesdir r1 = Some x
                ∧ last_name_by_id st !! uid = Some x
                ∧ x ∈ files_of (earliest_of v1 rest) (invert_earliest_seen st))
        ∧ (cr_type r1 = CHANGE_DELETE →
           uid ∈ uniqueids_deleted st
           ∧ ∀ v x, x ∈ files_of v (invert_earliest_seen st) →
                    ∃ u, u ≠ uid ∧ (u, v) ∈ earliest_seen st
                         ∧ last_name_by_id st !! u = Some x).
Proof.
  intros Hrun.
  destruct (scan_loop_seen _ _ _ _ _ _ _ _ _ Hrun) as (seen & Hseen & ->).
  exists seen. split; [done|]. split; [done|].
  intros uid v1 r1 rest Hh.
  pose proof (scan_records_note notesdir cv0 seen uid v1 r1 rest Hh) as Hview.
  cbv zeta in Hview. set (st := scan_records notesdir (initial_state cv0) seen) in *.
  assert (Hknown : earliest_versions_known st).
  { apply scan_records_known, initial_state_known. }
  unfold uid_view in Hview. split.
  - intros Htype.
    destruct (note_name notesdir r1) as [x|] eqn:Hname; [|by destruct r1].
    injection Hview as Hearliest Hlast Hdel.
    apply bool_decide_eq_false in Hdel. split; [done|].
    exists x. split_and!; [done | done |].
    apply invert_earliest_seen_files.
    apply dict_get_Some_elem_of in Hearliest. split; [by eapply Hknown | eauto].
  - intros Htype.
    destruct (note_name notesdir r1) as [x|] eqn:Hname; [by destruct r1|].
    injection Hview as Hearliest Hlast Hdel.
    apply bool_decide_eq_true in Hdel. split; [done|].
    intros v x (_ & u & Hin & Hu)%invert_earliest_seen_files.
    exists u. split_and!; [|done..]. intros ->. congruence.
Qed.

Example readd_first_change_met :
  let st :=
    {| current_version := "1.0.0";
       versions := ["3.0.0"; "2.0.0"; "1.0.0"];
       earliest_seen := [("0000000000000001", "1.0.0")];
       last_name_by_id :=
         {["0000000000000001" := ("notes/new-0000000000000001.yaml", "c3")]};
       uniqueids_deleted := ∅ |} in
  ∃ seen,
    Forall2 (commit_data readd_tree_changes (fun _ _ => []) readd_repo "notes")
      (take (length seen) readd_commits) seen
    ∧ st = scan_records "notes" (initial_state "3.0.0") seen
    ∧ ∀ uid v1 r1 rest,
        uid_history "3.0.0" uid (seen ≫= commit_events) = (v1, r1) :: rest →
        (cr_type r1 ≠ CHANGE_DELETE →
         (uid ∉ uniqueids_deleted st)
         ∧ ∃ x, note_name "notes" r1 = Some x
                ∧ last_name_by_id st !! uid = Some x
                ∧ x ∈ files_of (earliest_of v1 rest) (invert_earliest_seen st))
        ∧ (cr_type r1 = CHANGE_DELETE →
           uid ∈ uniqueids_deleted st
           ∧ ∀ v x, x ∈ files_of v (invert_earliest_seen st) →
                    ∃ u, u ≠ uid ∧ (u, v) ∈ earliest_seen st
                         ∧ last_name_by_id st !! u = Some x).
Proof.
  intros st.
  apply (first_change_met_decides readd_tree_changes
           (fun _ _ => []) readd_repo "notes" None "3.0.0" readd_commits None st).
  vm_compute. reflexivity.
Qed.

Example readd_scan :
  get_notes_by_version readd_walker readd_tree_changes (fun _ _ => [])
    readd_repo readd_config 10
  = Some (Ok [("1.0.0", [("notes/new-0000000000000001.yaml", "c3")])]).
Proof. vm_compute. reflexivity. Qed.

(** C4. A note that is deleted and never added again can still be
    reported. In the history [c0], [d], [y], [m] the note
    [n-0000000000000001.yaml] is added by [c0] and deleted by [d]; [y],
    which does not descend from [d], edits it, and the merge [m] of [d]
    and [y] keeps the deletion and brings no change of its own. The
    traversal yields [m], [y], [d], [c0], so the scan meets the edit of
    [y] before the delete of [d] and takes the delete for one that a
    later commit has undone: the note is not marked as deleted, and the
    result lists its file under [1.0.0], with the commit [y], although
    the file does not exist at the head. *)
Theorem C4_note_deleted_before_merge_is_reported :
  _topo_traversal merged_delete_walker merged_delete_repo 10 None
  = Some (merged_delete_commits, None)
  ∧ Forall2
      (fun entry changes =>
         _changes_in_subdir merged_delete_tree_changes
           merged_delete_tree_changes_for_merge merged_delete_repo entry "notes"
         = Ok changes)
      merged_delete_commits
      [[];
       [One {| tc_type := CHANGE_MODIFY;
               tc_old_path := Some "n-0000000000000001.yaml";
               tc_new_path := Some "n-0000000000000001.yaml" |}];
       [One {| tc_type := CHANGE_DELETE;
               tc_old_path := Some "n-0000000000000001.yaml";
               tc_new_path := None |}];
       [One {| tc_type := CHANGE_ADD; tc_old_path := None;
               tc_new_path := Some "keep-0000000000000002.yaml" |};
        One {| tc_type := CHANGE_ADD; tc_old_path := None;
               tc_new_path := Some "n-0000000000000001.yaml" |}]]
  ∧ get_file_at_commit merged_delete_repo "notes/n-0000000000000001.yaml" "m"
    = Ok None
  ∧ get_notes_by_version merged_delete_walker merged_delete_tree_changes
      merged_delete_tree_changes_for_merge merged_delete_repo readd_config 10
    = Some (Ok [("1.0.0",
                 [("notes/keep-0000000000000002.yaml", "c0");
                  ("notes/n-0000000000000001.yaml", "y")])]).
Proof.
  split_and!.
  - vm_compute. reflexivity.
  - repeat constructor.
  - vm_compute. reflexivity.
  - vm_compute. reflexivity.
Qed.

(** ** The scanner on the histories of the repository's tests *)

Example tags_on_branch :
  _get_tags_on_branch branch_walker branch_repo None
  = Ok ["3.0.0"; "2.0.0"; "1.0.0"]
  ∧ _get_tags_on_branch branch_walker branch_repo (Some "stable/2")
    = Ok ["2.0.0"; "1.0.0"].
Proof. split; vm_compute; reflexivity. Qed.

Example current_version_on_branch :
  _get_current_version branch_repo 5 None = Some (Ok "3.0.0")
  ∧ _get_current_version branch_repo 5 (Some "stable/2") = Some (Ok "2.0.0-1").
Proof. split; vm_compute; reflexivity. Qed.

Example branch_base :
  _get_branch_base branch_walker branch_repo (Some "stable/2") = Ok (Some "2.0.0").
Proof. vm_compute. reflexivity. Qed.

Example files_current_branch :
  get_notes_by_version branch_walker branch_tree_changes (fun _ _ => [])
    branch_repo (branch_config None) 10
  = Some (Ok [("3.0.0", [("notes/slug3-0000000000000003.yaml", "c3")]);
              ("2.0.0", [("notes/slug2-0000000000000002.yaml", "c2")]);
              ("1.0.0", [("notes/slug1-0000000000000001.yaml", "c1")])]).
Proof. vm_compute. reflexivity. Qed.

Example files_stable_from_master :
  get_notes_by_version branch_walker branch_tree_changes (fun _ _ => [])
    branch_repo (branch_config (Some "stable/2")) 10
  = Some (Ok [("2.0.0-1", [("notes/slug21-0000000000000004.yaml", "s1")]);
              ("2.0.0", [("notes/slug2-0000000000000002.yaml", "c2")])]).
Proof. vm_compute. reflexivity. Qed.

(** ** The order inside a bucket *)

Lemma string_leb_trans a b c :
  String.leb a b = true → String.leb b c = true → String.leb a c = true.
Proof.
  intros Hab Hbc. apply Is_true_true.
  apply (transitivity (R := String.le) (y := b)); by apply Is_true_true.
Qed.

Lemma string_leb_total a b : String.leb a b = false → String.leb b a = true.
Proof. intros Hab. destruct (String.leb_total a b); congruence. Qed.

Lemma note_leb_trans a b c :
  note_leb a b = true → note_leb b c = true → note_leb a c = true.
Proof.
  unfold note_leb.
  destruct (decide (a.1 = b.1)) as [Hab|Hab], (decide (b.1 = c.1)) as [Hbc|Hbc].
  - rewrite decide_True by congruence. apply string_leb_trans.
  - rewrite decide_False by congruence. by rewrite Hab.
  - rewrite decide_False by congruence. by rewrite Hbc.
  - intros H1 H2. destruct (decide (a.1 = c.1)) as [Hac|Hac].
    + exfalso. apply Hab. apply String.leb_antisym; [done|]. by rewrite Hac.
    + by eapply string_leb_trans.
Qed.

Lemma note_leb_total a b : note_leb a b = false → note_leb b a = true.
Proof.
  unfold note_leb. destruct (decide (a.1 = b.1)) as [Hab|Hab].
  - rewrite decide_True by done. apply string_leb_total.
  - rewrite decide_False by congruence. apply string_leb_total.
Qed.

Lemma trim_sorted earliest files_and_tags versions_by_date : ∀ trimmed v files,
  (v, files) ∈ trim earliest files_and_tags versions_by_date trimmed →
  (v, files) ∈ trimmed
  ∨ StronglySorted (fun a b => note_leb a b = true) files.
Proof.
  induction versions_by_date as [|ov rest IH]; intros trimmed v files; simpl; [auto|].
  destruct (dict_get ov files_and_tags) as [[|f fs]|]; [by apply IH | | by apply IH].
  assert (Hset : (v, files) ∈ dict_set ov (py_sorted note_leb (f :: fs)) trimmed →
                 (v, files) ∈ trimmed
                 ∨ StronglySorted (fun a b => note_leb a b = true) files).
  { intros [[= -> ->]|Hin]%dict_set_elem_of; [right | by left].
    apply (py_sorted_sorted note_leb note_leb_trans note_leb_total (f :: fs)). }
  destruct (Py.truthy earliest && _); [done|].
  intros [Hin|Hs]%IH; [by apply Hset | by right].
Qed.

(** What the scan returns is ordered, inside every bucket, by path and
    then by commit. *)
Lemma get_notes_by_version_sorted
    get_walker tree_changes tree_changes_for_merge repo conf fuel out v files :
  get_notes_by_version get_walker tree_changes tree_changes_for_merge repo conf fuel
  = Some (Ok out) →
  (v, files) ∈ out →
  StronglySorted (fun a b => note_leb a b = true) files.
Proof.
  unfold get_notes_by_version.
  destruct (scan_setup _ _ _) as [[[vbd earliest] bbt]|]; [|done].
  destruct (_get_current_version _ _ _) as [[cv|]|]; [|done..].
  destruct (_topo_traversal _ _ _ _) as [[entries final]|]; [|done].
  destruct (scan_loop _ _ _ _ _ _ _ _) as [st|]; simpl; [|done].
  intros [= <-] [Hin|Hs]%trim_sorted; [by apply elem_of_nil in Hin | done].
Qed.

(** ** Reading files from a commit *)

Section Files.
Import Py PyFacts.
Variable repo : RenoRepo.

Lemma split_nonempty sep l : split sep l ≠ [].
Proof.
  destruct l as [|c l]; simpl; [done|].
  destruct (Ascii.eqb c sep); [done|]. by destruct (split sep l).
Qed.

Lemma split_app sep l1 l2 :
  split sep (l1 ++ sep :: l2) = split sep l1 ++ split sep l2.
Proof.
  induction l1 as [|c l1 IH]; simpl.
  - by rewrite Ascii.eqb_refl.
  - rewrite IH. destruct (Ascii.eqb c sep); [done|].
    pose proof (split_nonempty sep l1). by destruct (split sep l1).
Qed.

Lemma path_components_nonempty path : path_components path ≠ [].
Proof.
  unfold path_components. intros H%fmap_nil_inv. by apply split_nonempty in H.
Qed.

Lemma path_components_join dir rest :
  path_components (dir +:+ "/" +:+ rest)
  = path_components dir ++ path_components rest.
Proof.
  unfold path_components. rewrite !chars_app. simpl.
  by rewrite split_app, fmap_app.
Qed.

Lemma get_subtree_app cs1 cs2 : ∀ tree,
  cs1 ≠ [] → cs2 ≠ [] →
  _get_subtree repo tree (cs1 ++ cs2)
  = o ← _get_subtree repo tree cs1;
    match o with
    | Some subtree => _get_subtree repo subtree cs2
    | None => Ok None
    end.
Proof.
  induction cs1 as [|c cs1 IH]; intros tree Hcs1 Hcs2; [done|].
  destruct cs1 as [|c' cs1].
  - destruct cs2 as [|c2 cs2]; [done|]. simpl.
    by destruct (tree_lookup tree c) as [[s|]|].
  - change ((c :: c' :: cs1) ++ cs2) with (c :: (c' :: cs1) ++ cs2).
    change (_get_subtree repo tree (c :: (c' :: cs1) ++ cs2))
      with (entry ← tree_lookup tree c;
            match entry with
            | Some s =>
                match repo_objects repo !! s with
                | Some subtree => _get_subtree repo subtree ((c' :: cs1) ++ cs2)
                | None => Ok None
                end
            | None => Ok None
            end).
    change (_get_subtree repo tree (c :: c' :: cs1))
      with (entry ← tree_lookup tree c;
            match entry with
            | Some s =>
                match repo_objects repo !! s with
                | Some subtree => _get_subtree repo subtree (c' :: cs1)
                | None => Ok None
                end
            | None => Ok None
            end).
    destruct (tree_lookup tree c) as [[s|]|]; simpl; try done.
    destruct (repo_objects repo !! s) as [subtree|]; [|done].
    by apply IH.
Qed.

Lemma get_file_from_tree_subtree cs : ∀ tree,
  _get_file_from_tree repo cs tree
  = o ← _get_subtree repo tree cs;
    match o with
    | Some file_blob => data ← blob_data file_blob; Ok (Some data)
    | None => Ok None
    end.
Proof.
  induction cs as [|c cs IH]; intros tree; [done|].
  destruct cs as [|c' cs].
  - simpl. by destruct (tree_lookup tree c) as [[s|]|].
  - change (_get_file_from_tree repo (c :: c' :: cs) tree)
      with (entry ← tree_lookup tree c;
            match entry with
            | Some s =>
                match repo_objects repo !! s with
                | Some subtree => _get_file_from_tree repo (c' :: cs) subtree
                | None => Ok None
                end
            | None => Ok None
            end).
    change (_get_subtree repo tree (c :: c' :: cs))
      with (entry ← tree_lookup tree c;
            match entry with
            | Some s =>
                match repo_objects repo !! s with
                | Some subtree => _get_subtree repo subtree (c' :: cs)
                | None => Ok None
                end
            | None => Ok None
            end).
    destruct (tree_lookup tree c) as [[s|]|]; simpl; try done.
    destruct (repo_objects repo !! s) as [subtree|]; [|done].
    apply IH.
Qed.

Lemma get_subtree_not_a_tree o cs :
  (∀ t, o ≠ OTree t) → cs ≠ [] → _get_subtree repo o cs = Raise TypeError.
Proof.
  intros Ho Hcs. destruct cs as [|c [|c' cs]]; [done| |];
    by destruct o as [| |t|]; [| |destruct (Ho t)|].
Qed.

End Files.

(** X1. [_get_file_from_tree] finds the object [_get_subtree] finds for
    the same path and returns its data: [None] where the subtree lookup
    gives [None], the exception the subtree lookup raises, and
    [AttributeError] when the object found is not a blob. *)
Theorem X1_file_lookup_reads_subtree_data
    (repo : RenoRepo) (filename : string) (tree : GitObject) :
  _get_file_from_tree repo (path_components filename) tree
  = o ← _get_subtree repo tree (path_components filename);
    match o with
    | Some file_blob => data ← blob_data file_blob; Ok (Some data)
    | None => Ok None
    end.
Proof. apply get_file_from_tree_subtree. Qed.

(** X2. Looking up [dir/rest] is looking up [dir] and then [rest] in
    what was found; nothing found for [dir] gives [None] for the whole
    path. *)
Theorem X2_get_subtree_path_composition
    (repo : RenoRepo) (tree : GitObject) (dir rest : string) :
  _get_subtree repo tree (path_components (dir +:+ "/" +:+ rest))
  = o ← _get_subtree repo tree (path_components dir);
    match o with
    | Some subtree => _get_subtree repo subtree (path_components rest)
    | None => Ok None
    end.
Proof.
  rewrite path_components_join.
  apply get_subtree_app; apply path_components_nonempty.
Qed.

(** X3. Where [file] is a regular file of the commit,
    [get_file_at_commit] returns its data, and a path below it,
    [file/rest], is not reported as missing: the lookup raises
    [TypeError]. *)
Theorem X3_path_below_a_file_raises
    (repo : RenoRepo) (s : sha) (c : Commit) (tree : GitObject)
    (file rest : string) (i : sha) (data : string) :
  repo_get_commit repo s = Ok c →
  repo_get repo (commit_tree c) = Ok tree →
  _get_subtree repo tree (path_components file) = Ok (Some (OBlob i data)) →
  get_file_at_commit repo file s = Ok (Some data)
  ∧ get_file_at_commit repo (file +:+ "/" +:+ rest) s = Raise TypeError.
Proof.
  intros Hc Htree Hfile. unfold get_file_at_commit.
  rewrite Hc. simpl. rewrite Htree. simpl.
  rewrite !get_file_from_tree_subtree, path_components_join.
  rewrite get_subtree_app by apply path_components_nonempty.
  rewrite Hfile. simpl.
  rewrite get_subtree_not_a_tree; [done..|apply path_components_nonempty].
Qed.

Lemma X3_path_below_a_file_raises_witness :
  get_file_at_commit files_repo "doc/README" "c1" = Ok (Some "read me")
  ∧ get_file_at_commit files_repo ("doc/README" +:+ "/" +:+ "x") "c1"
    = Raise TypeError.
Proof.
  apply (X3_path_below_a_file_raises files_repo "c1"
           {| commit_id := "c1"; commit_parents := [];
              commit_tree := "t1"; commit_time := 100 |}
           (OTree {| tree_id := "t1";
                     tree_entries := [("EMPTY", "b0"); ("doc", "t2")] |})
           "doc/README" "x" "b1" "read me");
    vm_compute; reflexivity.
Defined.

(** X4. [_file_exists_at_commit] is true only for a blob with data: a
    missing path and an empty file both give false, and a path that
    names a directory raises [AttributeError]. *)
Theorem X4_file_exists_only_with_data
    (repo : RenoRepo) (s : sha) (c : Commit) (tree : GitObject)
    (filename : string) (o : option GitObject) :
  repo_get_commit repo s = Ok c →
  repo_get repo (commit_tree c) = Ok tree →
  _get_subtree repo tree (path_components filename) = Ok o →
  _file_exists_at_commit repo filename s
  = match o with
    | None => Ok false
    | Some (OBlob _ data) => Ok (bool_decide (data ≠ ""))
    | Some _ => Raise AttributeError
    end.
Proof.
  intros Hc Htree Hfile. unfold _file_exists_at_commit, get_file_at_commit.
  rewrite Hc. simpl. rewrite Htree. simpl.
  rewrite get_file_from_tree_subtree, Hfile. simpl.
  destruct o as [[| | |i data]|]; simpl; try done.
  by destruct data.
Qed.

Lemma X4_file_exists_only_with_data_witness :
  _file_exists_at_commit files_repo "EMPTY" "c1" = Ok false
  ∧ _file_exists_at_commit files_repo "doc/README" "c1" = Ok true
  ∧ _file_exists_at_commit files_repo "doc" "c1" = Raise AttributeError
  ∧ _file_exists_at_commit files_repo "doc/MISSING" "c1" = Ok false.
Proof.
  pose (c := {| commit_id := "c1"; commit_parents := [];
                commit_tree := "t1"; commit_time := 100 |}).
  pose (t := OTree {| tree_id := "t1";
                      tree_entries := [("EMPTY", "b0"); ("doc", "t2")] |}).
  split; [|split; [|split]].
  - apply (X4_file_exists_only_with_data files_repo "c1" c t "EMPTY"
             (Some (OBlob "b0" ""))); vm_compute; reflexivity.
  - apply (X4_file_exists_only_with_data files_repo "c1" c t "doc/README"
             (Some (OBlob "b1" "read me"))); vm_compute; reflexivity.
  - apply (X4_file_exists_only_with_data files_repo "c1" c t "doc"
             (Some (OTree {| tree_id := "t2";
                             tree_entries := [("README", "b1")] |})));
      vm_compute; reflexivity.
  - apply (X4_file_exists_only_with_data files_repo "c1" c t "doc/MISSING" None);
      vm_compute; reflexivity.
Defined.

(** ** Resolving references *)

Section GetRef.
Import Py PyFacts.
Variable repo : RenoRepo.

Lemma first_ref_found pre ref post s :
  Forall (fun r => refs_get (repo_refs repo) r = None) pre →
  refs_get (repo_refs repo) ref = Some s →
  first_ref repo (pre ++ ref :: post) = dereferenced repo s.
Proof.
  intros Hpre Href. induction Hpre as [|r pre Hr _ IH]; simpl.
  - by rewrite Href.
  - by rewrite Hr.
Qed.

Lemma first_ref_unknown candidates :
  first_ref repo candidates = Raise (ValueError "Unknown reference") ↔
  Forall (fun r => refs_get (repo_refs repo) r = None) candidates.
Proof.
  induction candidates as [|r candidates IH]; simpl; [by split|].
  destruct (refs_get (repo_refs repo) r) as [s|] eqn:Hr.
  - split.
    + unfold repo_get. by destruct (repo_objects repo !! s) as [[]|].
    + intros H. apply Forall_cons in H as [H _]. congruence.
  - rewrite IH. split; [by constructor | by intros [_ ?]%Forall_cons].
Qed.

Lemma get_ref_named name :
  name ≠ "" → _get_ref repo (Some name) = first_ref repo (ref_candidates name).
Proof. intros Hname. unfold _get_ref. by destruct name. Qed.

End GetRef.

(** X5. [_get_ref] resolves a name through the first of its candidate
    references ([refs/heads/], [refs/remotes/], [refs/tags/], then the
    end-of-life tag) that exists, whatever the later candidates are; a
    tag object is followed one step to the object it marks, and a
    reference whose object is missing raises [KeyError]. *)
Theorem X5_get_ref_first_candidate
    (repo : RenoRepo) (name : string) (pre post : list string)
    (ref : string) (s : sha) :
  name ≠ "" →
  ref_candidates name = pre ++ ref :: post →
  Forall (fun r => refs_get (repo_refs repo) r = None) pre →
  refs_get (repo_refs repo) ref = Some s →
  _get_ref repo (Some name)
  = match repo_objects repo !! s with
    | Some (OTag t) => Ok (tag_object t)
    | Some _ => Ok s
    | None => Raise KeyError
    end.
Proof.
  intros Hname Hcands Hpre Href.
  rewrite get_ref_named, Hcands by done.
  rewrite (first_ref_found repo pre ref post s) by done.
  unfold dereferenced, repo_get.
  by destruct (repo_objects repo !! s) as [[]|].
Qed.

Lemma X5_get_ref_first_candidate_witness :
  _get_ref branch_repo (Some "stable/2") = Ok "s1"
  ∧ _get_ref eol_repo (Some "newton-eol") = Ok "c1".
Proof.
  split.
  - apply (X5_get_ref_first_candidate branch_repo "stable/2" []
             ["refs/remotes/stable/2"; "refs/tags/stable/2"; "refs/tags/2-eol"]
             "refs/heads/stable/2" "s1");
      [discriminate | reflexivity | constructor | reflexivity].
  - apply (X5_get_ref_first_candidate eol_repo "newton-eol"
             ["refs/heads/newton-eol"; "refs/remotes/newton-eol"]
             ["refs/tags/newton-eol-eol"]
             "refs/tags/newton-eol" "tag1");
      [discriminate | reflexivity | by repeat constructor | reflexivity].
Defined.

(** X6. For a non-empty name [_get_ref] raises the [ValueError] for an
    unknown reference exactly when none of the four candidate references
    exists. *)
Theorem X6_get_ref_unknown_reference (repo : RenoRepo) (name : string) :
  name ≠ "" →
  (_get_ref repo (Some name) = Raise (ValueError "Unknown reference") ↔
   Forall (fun r => refs_get (repo_refs repo) r = None) (ref_candidates name)).
Proof.
  intros Hname. rewrite get_ref_named by done. apply first_ref_unknown.
Qed.

Lemma X6_get_ref_unknown_reference_witness :
  _get_ref branch_repo (Some "stable/3") = Raise (ValueError "Unknown reference").
Proof.
  apply (X6_get_ref_unknown_reference branch_repo "stable/3");
    [discriminate | by repeat constructor].
Defined.

(** X7. A branch [dir/base] that has no branch, remote or tag reference
    of its own resolves to the tag [base-eol], named after the last
    component of the branch name only. *)
Theorem X7_get_ref_end_of_life_tag
    (repo : RenoRepo) (dir base : string) (s : sha) :
  "/"%char ∉ Py.chars base →
  refs_get (repo_refs repo) ("refs/heads/" +:+ dir +:+ "/" +:+ base) = None →
  refs_get (repo_refs repo) ("refs/remotes/" +:+ dir +:+ "/" +:+ base) = None →
  refs_get (repo_refs repo) ("refs/tags/" +:+ dir +:+ "/" +:+ base) = None →
  refs_get (repo_refs repo) ("refs/tags/" +:+ base +:+ "-eol") = Some s →
  _get_ref repo (Some (dir +:+ "/" +:+ base)) = dereferenced repo s.
Proof.
  intros Hbase Hheads Hremotes Htags Heol.
  rewrite get_ref_named.
  - unfold ref_candidates.
    rewrite PyFacts.chars_app. change (Py.chars ("/" +:+ base)) with ("/"%char :: Py.chars base).
    rewrite PyFacts.basename_dir, PyFacts.str_chars by done.
    apply (first_ref_found repo
             ["refs/heads/" +:+ dir +:+ "/" +:+ base;
              "refs/remotes/" +:+ dir +:+ "/" +:+ base;
              "refs/tags/" +:+ dir +:+ "/" +:+ base]
             ("refs/tags/" +:+ base +:+ "-eol") [] s); [|done].
    by repeat constructor.
  - intros H%(f_equal Py.chars). rewrite PyFacts.chars_app in H.
    by destruct (Py.chars dir).
Qed.

Lemma X7_get_ref_end_of_life_tag_witness :
  _get_ref eol_repo (Some ("stable" +:+ "/" +:+ "newton")) = Ok "c1".
Proof.
  apply (X7_get_ref_end_of_life_tag eol_repo "stable" "newton" "tag1");
    [by apply PyFacts.contains_false | reflexivity..].
Defined.

(** ** The tag index *)

Section TagIndexFacts.
Import Py PyFacts.

Lemma startswith_spec p l : startswith p l = true ↔ ∃ r, l = p ++ r.
Proof.
  revert l. induction p as [|c p IH]; intros l; simpl.
  - split; [by exists l | done].
  - destruct l as [|x l]; [split; [done | by intros [r ?]]|].
    rewrite andb_true_iff, IH. split.
    + intros [->%Ascii.eqb_eq [r ->]]. by exists r.
    + intros [r [= -> ->]]. split; [apply Ascii.eqb_refl | by exists r].
Qed.

Lemma tag_ref_starts t :
  startswith (chars "refs/tags/") (chars ("refs/tags/" +:+ t)) = true.
Proof. apply startswith_spec. exists (chars t). by rewrite chars_app. Qed.

Lemma tag_ref_name t :
  str (after_first (chars "/tags/") (chars ("refs/tags/" +:+ t))) = t.
Proof. rewrite chars_app. simpl. rewrite drop_0. apply str_chars. Qed.

Lemma tag_ref_inv k :
  startswith (chars "refs/tags/") (chars k) = true →
  k = "refs/tags/" +:+ str (after_first (chars "/tags/") (chars k)).
Proof.
  intros [r Hr]%startswith_spec.
  rewrite <- (str_chars k) at 1. rewrite Hr. simpl. rewrite drop_0.
  rewrite <- (str_chars ("refs/tags/" +:+ str r)).
  by rewrite chars_app, chars_str.
Qed.

Lemma dict_set_fresh {V} k (v : V) d : k ∉ d.*1 → dict_set k v d = d ++ [(k, v)].
Proof.
  induction d as [|[k' v'] d IH]; simpl; [done|].
  rewrite not_elem_of_cons. intros [Hne Hk].
  rewrite decide_False by done. by rewrite IH.
Qed.

Lemma load_all_tags_snoc refs k v :
  load_all_tags (refs ++ [(k, v)])
  = if startswith (chars "refs/tags/") (chars k)
    then dict_set (str (after_first (chars "/tags/") (chars k))) v
           (load_all_tags refs)
    else load_all_tags refs.
Proof. unfold load_all_tags. by rewrite foldl_app. Qed.

(** The tags of the index are the references below [refs/tags/], named
    by what follows that prefix. *)
Lemma load_all_tags_spec refs :
  NoDup refs.*1 →
  ∀ t v, (t, v) ∈ load_all_tags refs ↔ ("refs/tags/" +:+ t, v) ∈ refs.
Proof.
  induction refs as [|[k v0] refs IH] using rev_ind; intros Hnd t v.
  - unfold load_all_tags. simpl. by rewrite !elem_of_nil.
  - rewrite fmap_app in Hnd. apply NoDup_app in Hnd as (Hnd & Hk & _).
    specialize (IH Hnd). rewrite load_all_tags_snoc, elem_of_app, list_elem_of_singleton.
    destruct (startswith (chars "refs/tags/") (chars k)) eqn:Hstart.
    + pose proof (tag_ref_inv k Hstart) as Hkeq.
      set (t0 := str (after_first (chars "/tags/") (chars k))) in *.
      rewrite dict_set_fresh, elem_of_app, list_elem_of_singleton, IH.
      * split; (intros [?|Heq]; [by left | right]).
        -- injection Heq as -> ->. by rewrite Hkeq.
        -- injection Heq as Hk' ->. f_equal. subst t0.
           by rewrite <- Hk', tag_ref_name.
      * intros [[t' v'] [Ht' Hin]]%list_elem_of_fmap. simpl in Ht'. subst t'.
        apply IH in Hin. rewrite <- Hkeq in Hin.
        apply (Hk k); [|by left].
        apply list_elem_of_fmap. by exists (k, v').
    + rewrite IH. split; [by left | intros [?|Heq]; [done|]].
      injection Heq as <- _. by rewrite tag_ref_starts in Hstart.
Qed.

End TagIndexFacts.

Section ForEachRaises.
Context {S X : Type} (body : S → X → result S) (P : exn → Prop).

Lemma for_each_raises_with s l x :
  x ∈ l → (∀ s1, ∃ e, body s1 x = Raise e) →
  (∀ s1 y e, body s1 y = Raise e → P e) →
  ∃ e, for_each body s l = Raise e ∧ P e.
Proof.
  intros Hin Hx HP. revert s.
  induction l as [|y l IH]; intros s; [by apply elem_of_nil in Hin|].
  simpl. destruct (body s y) as [s'|e] eqn:Hy.
  - simpl. apply IH. apply elem_of_cons in Hin as [->|Hin]; [|done].
    destruct (Hx s) as [e He]. congruence.
  - exists e. split; [done | by eapply HP].
Qed.

End ForEachRaises.

(** The tags on a commit, read off the index. *)
Lemma tags_on_commit_index repo s tags :
  get_tags_on_commit repo s = Ok tags →
  ∀ t, t ∈ tags ↔
       ∃ tag_sha date,
         (t, tag_sha) ∈ load_all_tags (repo_refs repo)
         ∧ tag_target repo tag_sha = Ok (s, date).
Proof.
  intros Htags t. rewrite get_tags_on_commit_unfold in Htags.
  destruct (_load_tags repo) as [idx|] eqn:Hload; [|done].
  simpl in Htags. injection Htags as <-.
  assert (Hall : _all_tags idx = load_all_tags (repo_refs repo)).
  { rewrite load_tags_unfold in Hload.
    destruct (for_each _ _ _); [|done]. by injection Hload as <-. }
  rewrite list_elem_of_fmap, <- Hall. split.
  - intros [[t' date] [-> Hin]]. simpl.
    apply elem_of_py_sorted, (load_tags_entries repo idx Hload) in Hin
      as (tag_sha & Hin & Htarget).
    by exists tag_sha, date.
  - intros (tag_sha & date & Hin & Htarget). exists (t, date). split; [done|].
    apply elem_of_py_sorted, (load_tags_entries repo idx Hload).
    by exists tag_sha.
Qed.

(** X8. The tags [get_tags_on_commit] returns for a commit are exactly
    the references below [refs/tags/], named without that prefix, that
    point at the commit or at a tag object marking it; references
    outside [refs/tags/] never count. *)
Theorem X8_tags_on_commit_are_the_tag_references
    (repo : RenoRepo) (s : sha) (tags : list string) :
  NoDup (repo_refs repo).*1 →
  get_tags_on_commit repo s = Ok tags →
  ∀ t, t ∈ tags ↔
       ∃ tag_sha date,
         ("refs/tags/" +:+ t, tag_sha) ∈ repo_refs repo
         ∧ tag_ordering_entry repo tag_sha s date.
Proof.
  intros Hnd Htags t. rewrite (tags_on_commit_index repo s tags Htags).
  split; intros (tag_sha & date & Hin & Htarget); exists tag_sha, date.
  - split; [by apply load_all_tags_spec | by apply tag_target_spec].
  - split; [by apply load_all_tags_spec | by apply tag_target_spec].
Qed.

Lemma X8_tags_on_commit_are_the_tag_references_witness :
  "2.0.0" ∈ ["2.0.0"] ↔
  ∃ tag_sha date,
    ("refs/tags/" +:+ "2.0.0", tag_sha) ∈ repo_refs branch_repo
    ∧ tag_ordering_entry branch_repo tag_sha "c2" date.
Proof.
  apply (X8_tags_on_commit_are_the_tag_references branch_repo "c2" ["2.0.0"]).
  - vm_compute. repeat constructor; set_solver.
  - vm_compute. reflexivity.
Defined.

Lemma for_each_keep_ind {S X} (body : S → X → result S) (P : S → Prop) xs :
  (∀ s1 x s2, P s1 → x ∈ xs → body s1 x = Ok s2 → P s2) →
  ∀ s, P s → P (for_each_keep body s xs).1.
Proof.
  induction xs as [|x xs IH]; intros Hstep s Hs; simpl; [done|].
  destruct (body s x) as [s'|e] eqn:Hx; simpl; [|done].
  apply IH.
  - intros s1 y s2 H1 Hy. apply Hstep; [done | by right].
  - eapply Hstep; [done | by left | done].
Qed.

(** What [_load_tags] has put into the index when it stops, at the end
    of the tags or at the first one it cannot read, comes from tag
    references. *)
Lemma load_tags_state_sound repo : index_sound repo (_load_tags_state repo).1.
Proof.
  unfold _load_tags_state.
  set (body := fun m '(tag, tag_sha) => _).
  assert (Hm : ∀ s name date,
    (name, date) ∈ default [] ((for_each_keep body ∅
                                  (load_all_tags (repo_refs repo))).1 !! s) →
    ∃ tag_sha, (name, tag_sha) ∈ load_all_tags (repo_refs repo)
               ∧ tag_target repo tag_sha = Ok (s, date)).
  { apply (for_each_keep_ind body (fun m => ∀ s name date,
      (name, date) ∈ default [] (m !! s) →
      ∃ tag_sha, (name, tag_sha) ∈ load_all_tags (repo_refs repo)
                 ∧ tag_target repo tag_sha = Ok (s, date))).
    - intros m1 [tag tag_sha] m2 IH Hin Hbody s name date. simpl in Hbody.
      destruct (tag_target repo tag_sha) as [[tagged d]|] eqn:Ht;
        simpl in Hbody; [|done].
      injection Hbody as <-. unfold setdefault_append.
      destruct (decide (tagged = s)) as [->|Hne].
      + rewrite lookup_insert_eq. simpl. rewrite elem_of_app.
        intros [Hold | Hnew%list_elem_of_singleton]; [by apply IH|].
        injection Hnew as -> ->. by exists tag_sha.
      + rewrite lookup_insert_ne by done. apply IH.
    - intros s name date. rewrite lookup_empty. simpl.
      by intros ?%elem_of_nil. }
  destruct (for_each_keep body ∅ _) as [m e]. exact Hm.
Qed.

(** An accessor that has been asked once holds an index, and the index
    holds tag references only. *)
Lemma cache_reachable_sound repo cache :
  cache_reachable repo cache →
  cache = None ∨ ∃ idx, cache = Some idx ∧ index_sound repo idx.
Proof.
  induction 1 as [|cache s _ IH]; [by left|]. right.
  assert (Hstep : ∀ idx e, index_sound repo idx →
    ∃ idx',
      (match e with
       | Some e => (Raise e, Some idx)
       | None =>
           match _shas_to_tags idx !! s with
           | Some tags_and_dates =>
               let sorted := py_sorted date_leb tags_and_dates in
               (Ok sorted.*1,
                Some {| _all_tags := _all_tags idx;
                        _shas_to_tags := <[s := sorted]> (_shas_to_tags idx) |})
           | None => (Ok [], Some idx)
           end
       end : result (list string) * option TagIndex).2 = Some idx'
      ∧ index_sound repo idx').
  { intros idx [e|] Hidx; [by exists idx|].
    destruct (_shas_to_tags idx !! s) as [tds|] eqn:Hs; simpl; [|by exists idx].
    eexists. split; [done|]. intros s' name date.
    unfold tags_and_dates. simpl.
    destruct (decide (s = s')) as [<-|Hne].
    - rewrite lookup_insert_eq. simpl. rewrite elem_of_py_sorted.
      intros Hin. apply Hidx. unfold tags_and_dates. by rewrite Hs.
    - rewrite lookup_insert_ne by done. apply Hidx. }
  destruct IH as [-> | (idx & -> & Hidx)]; unfold get_tags_on_commit_cached.
  - pose proof (load_tags_state_sound repo) as Hload.
    destruct (_load_tags_state repo) as [idx e]. by apply Hstep.
  - by apply (Hstep idx None).
Qed.

(** X9. One reference below [refs/tags/] that names a tree or a blob
    makes the first [get_tags_on_commit] call on an accessor raise,
    whatever commit is asked for, also one the reference has nothing to
    do with. The accessor keeps the index as far as it was built, so
    every later call on it returns a list and never raises; the tags in
    that list are references below [refs/tags/] that mark the commit. *)
Theorem X9_unrecognized_tag_fails_first_lookup_only
    (repo : RenoRepo) (tag : string) (tag_sha : sha) (o : GitObject) :
  NoDup (repo_refs repo).*1 →
  ("refs/tags/" +:+ tag, tag_sha) ∈ repo_refs repo →
  repo_objects repo !! tag_sha = Some o →
  (∀ c, o ≠ OCommit c) → (∀ t, o ≠ OTag t) →
  (∀ s, ∃ e, (get_tags_on_commit_cached repo None s).1 = Raise e
             ∧ (e = KeyError ∨ ∃ msg, e = ValueError msg))
  ∧ (∀ cache s,
       cache_reachable repo cache → cache ≠ None →
       ∃ tags,
         (get_tags_on_commit_cached repo cache s).1 = Ok tags
         ∧ ∀ t, t ∈ tags →
                ∃ ref_sha date,
                  ("refs/tags/" +:+ t, ref_sha) ∈ repo_refs repo
                  ∧ tag_ordering_entry repo ref_sha s date).
Proof.
  intros Hnd Href Ho Hcommit Htag. split.
  - intros s.
    change (get_tags_on_commit_cached repo None s).1
      with (get_tags_on_commit repo s).
    rewrite get_tags_on_commit_unfold, load_tags_unfold.
    destruct (for_each_raises_with (load_body repo)
                (fun e => e = KeyError ∨ ∃ msg, e = ValueError msg)
                ∅ (load_all_tags (repo_refs repo)) (tag, tag_sha))
      as (e & -> & He).
    + by apply load_all_tags_spec.
    + intros m. unfold load_body, tag_target, repo_get. rewrite Ho. simpl.
      destruct o as [c|t| |]; [by destruct (Hcommit c) | by destruct (Htag t) | |];
        by eexists.
    + intros m [name sha'] e. unfold load_body, tag_target, repo_get.
      destruct (repo_objects repo !! sha') as [[]|]; simpl; intros [= <-]; eauto.
    + by exists e.
  - intros cache s [-> | (idx & -> & Hidx)]%cache_reachable_sound Hused; [done|].
    unfold get_tags_on_commit_cached.
    exists (py_sorted date_leb (tags_and_dates idx s)).*1. split.
    + unfold tags_and_dates. by destruct (_shas_to_tags idx !! s).
    + intros t ([t' date] & -> & Hin%elem_of_py_sorted)%list_elem_of_fmap.
      destruct (Hidx s t' date Hin) as (ref_sha & Hall & Htarget).
      exists ref_sha, date. simpl.
      split; [by apply load_all_tags_spec | by apply tag_target_spec].
Qed.

Lemma X9_unrecognized_tag_fails_first_lookup_only_witness :
  (∃ e, (get_tags_on_commit_cached tree_tag_repo None "c1").1 = Raise e
        ∧ (e = KeyError ∨ ∃ msg, e = ValueError msg))
  ∧ (∃ tags,
       (get_tags_on_commit_cached tree_tag_repo
          (get_tags_on_commit_cached tree_tag_repo None "c1").2 "c1").1
       = Ok tags
       ∧ ∀ t, t ∈ tags →
              ∃ ref_sha date,
                ("refs/tags/" +:+ t, ref_sha) ∈ repo_refs tree_tag_repo
                ∧ tag_ordering_entry tree_tag_repo ref_sha "c1" date).
Proof.
  destruct (X9_unrecognized_tag_fails_first_lookup_only tree_tag_repo
              "docs" "t1" (OTree {| tree_id := "t1"; tree_entries := [] |}))
    as [Hfirst Hlater].
  - vm_compute. repeat constructor; set_solver.
  - vm_compute. set_solver.
  - vm_compute. reflexivity.
  - discriminate.
  - discriminate.
  - split; [apply Hfirst|]. apply Hlater.
    + apply cache_after_call, cache_fresh.
    + vm_compute. discriminate.
Defined.

(** The call after the failed one answers from what had been indexed:
    the tag read before the unreadable one is reported. *)
Example tree_tag_repo_second_call :
  (get_tags_on_commit_cached tree_tag_repo None "c1").1
  = Raise (ValueError "Unrecognized tag object")
  ∧ (get_tags_on_commit_cached tree_tag_repo
       (get_tags_on_commit_cached tree_tag_repo None "c1").2 "c1").1
    = Ok ["1.0.0"].
Proof. vm_compute. split; reflexivity. Qed.

(** X10. Where every tag reference can be read, so that [_load_tags]
    builds its index, sorting the cached list in place does not show:
    after any sequence of calls on one accessor, [get_tags_on_commit]
    returns for every commit what a fresh accessor returns. *)
Theorem X10_tag_lookups_are_repeatable
    (repo : RenoRepo) (idx0 : TagIndex) (cache : option TagIndex) (s : sha) :
  _load_tags repo = Ok idx0 →
  cache_reachable repo cache →
  (get_tags_on_commit_cached repo cache s).1 = get_tags_on_commit repo s.
Proof.
  intros Hload Hcache.
  destruct (cache_reachable_inv repo idx0 cache Hload Hcache)
    as [-> | (idx & -> & Hinv)]; [done|].
  rewrite get_tags_on_commit_unfold, Hload. simpl.
  rewrite <- Hinv. unfold tags_and_dates, get_tags_on_commit_cached. simpl.
  by destruct (_shas_to_tags idx !! s).
Qed.

Lemma X10_tag_lookups_are_repeatable_witness :
  (get_tags_on_commit_cached two_tags_repo
     (get_tags_on_commit_cached two_tags_repo None "c1").2 "c1").1
  = get_tags_on_commit two_tags_repo "c1".
Proof.
  destruct (_load_tags two_tags_repo) as [idx0|] eqn:Hload;
    [|vm_compute in Hload; discriminate Hload].
  apply (X10_tag_lookups_are_repeatable two_tags_repo idx0).
  - exact Hload.
  - apply cache_after_call, cache_fresh.
Defined.

(** ** Tags along a branch *)

Lemma elem_of_concat {A} (x : A) (ls : list (list A)) :
  x ∈ concat ls ↔ ∃ l, x ∈ l ∧ l ∈ ls.
Proof.
  induction ls as [|l ls IH]; simpl.
  - rewrite elem_of_nil. split; [done|]. by intros (l & _ & ?%elem_of_nil).
  - rewrite elem_of_app, IH. split.
    + intros [Hx|(l' & Hx & Hl')]; [exists l | exists l'];
        (split; [done|]); [by left | by right].
    + intros (l' & Hx & [->|Hl']%elem_of_cons); [by left | right; by exists l'].
Qed.

Section TagsOnBranch.
Variable get_walker : sha → list Commit.
Variable repo : RenoRepo.

Lemma tags_on_branch_loop idx l :
  _load_tags repo = Ok idx →
  ∀ acc, ∃ tss,
    for_each (fun results c =>
                tags ← get_tags_on_commit repo (commit_id c);
                Ok (results ++ tags)) acc l
    = Ok (acc ++ concat tss)
    ∧ Forall2 (fun c tags => get_tags_on_commit repo (commit_id c) = Ok tags)
        l tss.
Proof.
  intros Hload. induction l as [|c l IH]; intros acc.
  - exists []. simpl. by rewrite app_nil_r.
  - simpl. destruct (get_tags_on_commit repo (commit_id c)) as [tags|e] eqn:Htags.
    + simpl. destruct (IH (acc ++ tags)) as (tss & -> & Hall).
      exists (tags :: tss). simpl. rewrite app_assoc. split; [done|].
      by constructor.
    + rewrite get_tags_on_commit_unfold, Hload in Htags. done.
Qed.

End TagsOnBranch.

(** X11. When the tag index can be built, [_get_tags_on_branch] returns
    the tags of the commits of the branch's walk, commit after commit in
    walk order; a tag is in the list exactly when its reference points
    at a commit of the walk, or at a tag object marking one. *)
Theorem X11_tags_on_branch_follow_the_walk
    (get_walker : sha → list Commit) (repo : RenoRepo)
    (branch : option string) (head : sha) (idx : TagIndex) :
  NoDup (repo_refs repo).*1 →
  _load_tags repo = Ok idx →
  _get_ref repo branch = Ok head →
  ∃ tss,
    _get_tags_on_branch get_walker repo branch = Ok (concat tss)
    ∧ Forall2 (fun c tags => get_tags_on_commit repo (commit_id c) = Ok tags)
        (get_walker head) tss
    ∧ ∀ t, t ∈ concat tss ↔
           ∃ c tag_sha date,
             c ∈ get_walker head
             ∧ ("refs/tags/" +:+ t, tag_sha) ∈ repo_refs repo
             ∧ tag_ordering_entry repo tag_sha (commit_id c) date.
Proof.
  intros Hnd Hload Href. unfold _get_tags_on_branch. rewrite Href. simpl.
  destruct (tags_on_branch_loop repo idx (get_walker head) Hload [])
    as (tss & -> & Hall).
  exists tss. split; [done|]. split; [done|]. intros t.
  rewrite elem_of_concat. split.
  - intros (tags & Ht & Hin).
    apply list_elem_of_lookup in Hin as [i Hi].
    destruct (Forall2_lookup_r _ _ _ _ _ Hall Hi) as (c & Hc & Htags).
    apply (tags_on_commit_index repo _ _ Htags) in Ht
      as (tag_sha & date & Hin & Htarget).
    exists c, tag_sha, date. split; [by eapply list_elem_of_lookup_2|].
    split; [by apply load_all_tags_spec | by apply tag_target_spec].
  - intros (c & tag_sha & date & Hc & Hin & Hentry).
    apply list_elem_of_lookup in Hc as [i Hi].
    destruct (Forall2_lookup_l _ _ _ _ _ Hall Hi) as (tags & Htss & Htags).
    exists tags. split; [|by eapply list_elem_of_lookup_2].
    apply (tags_on_commit_index repo _ _ Htags).
    exists tag_sha, date.
    split; [by apply load_all_tags_spec | by apply tag_target_spec].
Qed.

Lemma X11_tags_on_branch_follow_the_walk_witness :
  ∃ tss,
    _get_tags_on_branch branch_walker branch_repo (Some "stable/2")
    = Ok (concat tss)
    ∧ Forall2 (fun c tags =>
                 get_tags_on_commit branch_repo (commit_id c) = Ok tags)
        (branch_walker "s1") tss
    ∧ ∀ t, t ∈ concat tss ↔
           ∃ c tag_sha date,
             c ∈ branch_walker "s1"
             ∧ ("refs/tags/" +:+ t, tag_sha) ∈ repo_refs branch_repo
             ∧ tag_ordering_entry branch_repo tag_sha (commit_id c) date.
Proof.
  destruct (_load_tags branch_repo) as [idx|] eqn:Hload;
    [|vm_compute in Hload; discriminate Hload].
  apply (X11_tags_on_branch_follow_the_walk branch_walker branch_repo
           (Some "stable/2") "s1" idx).
  - vm_compute. repeat constructor; set_solver.
  - exact Hload.
  - reflexivity.
Defined.

(** ** The current version *)

Lemma current_version_loop_describe repo c n c' tags t :
  untagged_walk repo c n c' →
  get_tags_on_commit repo (commit_id c') = Ok tags →
  last tags = Some t →
  ∀ fuel count, n < fuel →
    current_version_loop repo fuel c count
    = Some (Ok (match count + n with
                | 0 => t
                | _ => t +:+ "-" +:+ pretty (count + n)
                end)).
Proof.
  intros Hwalk Htags Hlast.
  induction Hwalk as [c|c p ps parent n c' Hnone Hparents Hparent _ IH];
    intros fuel count Hfuel.
  - destruct fuel as [|fuel]; [lia|]. simpl. rewrite Htags, Hlast.
    rewrite Nat.add_0_r. by destruct count.
  - destruct fuel as [|fuel]; [lia|]. simpl.
    rewrite Hnone. simpl. rewrite Hparents, Hparent.
    rewrite IH by (done || lia). by rewrite Nat.add_succ_r.
Qed.

(** X12. [_get_current_version] describes the head by the first tagged
    commit on its chain of first parents: the newest tag of that commit,
    alone when the head itself carries it, and followed by a dash and
    the number of commits passed otherwise. Other parents are never
    looked at. *)
Theorem X12_current_version_describes_head
    (repo : RenoRepo) (branch : option string) (head : sha)
    (c c' : Commit) (n : nat) (tags : list string) (t : string) :
  _get_ref repo branch = Ok head →
  repo_get_commit repo head = Ok c →
  untagged_walk repo c n c' →
  get_tags_on_commit repo (commit_id c') = Ok tags →
  last tags = Some t →
  ∀ fuel, n < fuel →
    _get_current_version repo fuel branch
    = Some (Ok (match n with
                | 0 => t
                | _ => t +:+ "-" +:+ pretty n
                end)).
Proof.
  intros Href Hc Hwalk Htags Hlast fuel Hfuel.
  unfold _get_current_version. rewrite Href, Hc.
  by rewrite (current_version_loop_describe repo c n c' tags t).
Qed.

Lemma X12_current_version_describes_head_witness :
  _get_current_version branch_repo 2 (Some "stable/2") = Some (Ok "2.0.0-1").
Proof.
  apply (X12_current_version_describes_head branch_repo (Some "stable/2") "s1"
           {| commit_id := "s1"; commit_parents := ["c2"];
              commit_tree := "ts"; commit_time := 400 |}
           {| commit_id := "c2"; commit_parents := ["c1"];
              commit_tree := "t2"; commit_time := 200 |}
           1 ["2.0.0"] "2.0.0").
  - reflexivity.
  - reflexivity.
  - eapply (walk_step _ _ "c2" []).
    + vm_compute. reflexivity.
    + reflexivity.
    + reflexivity.
    + apply walk_here.
  - vm_compute. reflexivity.
  - reflexivity.
  - lia.
Defined.

(** ** The base of a branch *)

(** X13. [_get_branch_base] returns the newest tag of the first commit
    of the branch's walk that the walk of [master] also visits, and
    [None] when the two walks have no commit in common. *)
Theorem X13_branch_base_is_newest_tag_of_divergence
    (get_walker : sha → list Commit) (repo : RenoRepo)
    (branch : option string) (master_head branch_head : sha) :
  _get_ref repo (Some "master") = Ok master_head →
  _get_ref repo branch = Ok branch_head →
  (∀ c tags t,
     divergence_commit get_walker master_head branch_head c →
     get_tags_on_commit repo (commit_id c) = Ok tags →
     last tags = Some t →
     _get_branch_base get_walker repo branch = Ok (Some t))
  ∧ (Forall (fun c => commit_id c ∉ commit_id <$> get_walker master_head)
       (get_walker branch_head) →
     _get_branch_base get_walker repo branch = Ok None).
Proof.
  intros Hmaster Hbranch. split.
  - intros c tags t [i Hfind] Htags Hlast.
    unfold _get_branch_base. rewrite Hmaster. simpl. rewrite Hbranch. simpl.
    rewrite branch_base_find, Hfind, Htags. simpl.
    unfold last_tag. by rewrite Hlast.
  - intros Hnone.
    unfold _get_branch_base. rewrite Hmaster. simpl. rewrite Hbranch. simpl.
    rewrite branch_base_find.
    destruct (list_find _ _) as [[i c]|] eqn:Hfind; [|done].
    apply list_find_Some in Hfind as (Hi & Hc & _).
    rewrite Forall_forall in Hnone.
    destruct (Hnone c); [by eapply list_elem_of_lookup_2 | done].
Qed.

Lemma X13_branch_base_is_newest_tag_of_divergence_witness :
  _get_branch_base branch_walker branch_repo (Some "stable/2") = Ok (Some "2.0.0").
Proof.
  destruct (X13_branch_base_is_newest_tag_of_divergence branch_walker branch_repo
              (Some "stable/2") "c3" "s1") as [Hbase _].
  - reflexivity.
  - reflexivity.
  - apply (Hbase {| commit_id := "c2"; commit_parents := ["c1"];
                    commit_tree := "t2"; commit_time := 200 |} ["2.0.0"]).
    + exists 1. vm_compute. reflexivity.
    + vm_compute. reflexivity.
    + reflexivity.
Defined.

Lemma get_ref_unknown_master repo :
  _get_ref repo (Some "master") = Raise (ValueError "Unknown reference") ↔
  Forall (fun r => refs_get (repo_refs repo) r = None) (ref_candidates "master").
Proof. rewrite get_ref_named by done. apply first_ref_unknown. Qed.

(** X14. The mainline is looked up under the fixed name [master]: in a
    repository without a branch, remote or tag of that name, and
    without a tag [master-eol], [_get_branch_base] raises [ValueError]
    for every branch, and so does [get_notes_by_version] whenever it has
    to work out the base of a branch for itself. *)
Theorem X14_branch_base_needs_master
    (get_walker : sha → list Commit)
    (tree_changes : option sha → option sha → list change_item)
    (tree_changes_for_merge : list sha → option sha → list change_item)
    (repo : RenoRepo) :
  Forall (fun r => refs_get (repo_refs repo) r = None) (ref_candidates "master") →
  (∀ branch, _get_branch_base get_walker repo branch
             = Raise (ValueError "Unknown reference"))
  ∧ ∀ conf name versions_by_date fuel,
      branch conf = Some name → name ≠ "" → name ≠ "master" →
      Py.truthy (earliest_version conf) = false →
      stop_at_branch_base conf = true →
      _get_tags_on_branch get_walker repo (branch conf) = Ok versions_by_date →
      get_notes_by_version get_walker tree_changes tree_changes_for_merge
        repo conf fuel
      = Some (Raise (ValueError "Unknown reference")).
Proof.
  intros Hnone.
  assert (Hbase : ∀ branch, _get_branch_base get_walker repo branch
                            = Raise (ValueError "Unknown reference")).
  { intros branch. unfold _get_branch_base.
    rewrite (proj2 (get_ref_unknown_master repo) Hnone). done. }
  split; [done|].
  intros conf name versions_by_date fuel Hbranch Hname Hmaster Hearliest Hstop Htags.
  unfold get_notes_by_version, scan_setup.
  rewrite Htags, Hearliest, Hstop, Hbase, Hbranch. simpl.
  rewrite bool_decide_eq_true_2 by congruence.
  by destruct name.
Qed.

Lemma X14_branch_base_needs_master_witness :
  _get_branch_base untagged_base_walker main_repo (Some "stable")
  = Raise (ValueError "Unknown reference")
  ∧ get_notes_by_version untagged_base_walker (fun _ _ => []) (fun _ _ => [])
      main_repo (branch_config (Some "stable")) 10
    = Some (Raise (ValueError "Unknown reference")).
Proof.
  destruct (X14_branch_base_needs_master untagged_base_walker
              (fun _ _ => []) (fun _ _ => []) main_repo) as [Hbase Hnotes].
  { by repeat constructor. }
  split; [apply Hbase|].
  apply (Hnotes (branch_config (Some "stable")) "stable" ["1.0.0"]).
  - reflexivity.
  - discriminate.
  - discriminate.
  - reflexivity.
  - reflexivity.
  - vm_compute. reflexivity.
Defined.

(** ** More on the history linearizer *)

Lemma reachable_rank entries head (rank : sha → nat) x :
  (∀ e p, e ∈ entries → p ∈ commit_parents e → rank p < rank (commit_id e)) →
  reachable entries head x → rank x ≤ rank head.
Proof.
  intros Hrank. induction 1 as [|e p Hin _ IH Hp]; [done|].
  specialize (Hrank e p Hin Hp). lia.
Qed.

Lemma head_has_no_child entries head c :
  walker_dag head entries → ¬ is_child entries head c.
Proof.
  intros Hdag (e & Hin & <- & Hp).
  destruct (dag_acyclic _ _ Hdag) as [rank Hrank].
  pose proof (reachable_rank entries head rank (commit_id e) Hrank
                (dag_reachable _ _ Hdag e Hin)).
  specialize (Hrank e head Hin Hp). lia.
Qed.

(** X15. On the commit graph of a branch the linearizer yields the head
    of the branch first. *)
Theorem X15_topo_traversal_starts_at_head
    (get_walker : sha → list Commit) (repo : RenoRepo)
    (branch : option string) (head : sha) :
  _get_ref repo branch = Ok head →
  walker_dag head (get_walker head) →
  ∃ e rest,
    e ∈ get_walker head ∧ commit_id e = head
    ∧ ∀ fuel, topo_fuel (get_walker head) ≤ fuel →
        _topo_traversal get_walker repo fuel branch = Some (e :: rest, None).
Proof.
  intros Href Hdag.
  destruct (topo_loop_correct (get_walker head) head Hdag
              (topo_fuel (get_walker head)) [head] ∅) as (out & Hrun & _).
  { by apply topo_inv_init. }
  { unfold topo_fuel. simpl. lia. }
  assert (Hhead : head ∈ commit_id <$> get_walker head) by apply Hdag.
  apply list_elem_of_fmap in Hhead as (e & Hid & Hin).
  assert (Hlook : topo_all (get_walker head) !! head = Some e).
  { apply topo_all_lookup; [apply Hdag | done]. }
  unfold topo_fuel in Hrun. cbn [Nat.add topo_loop] in Hrun.
  rewrite Hlook in Hrun.
  rewrite (proj2 (unprocessed_children_nil _ ∅)) in Hrun.
  - destruct (topo_loop _ _ _ _ _) as [[rest final]|] eqn:Hrest; [|done].
    injection Hrun as <- ->.
    exists e, rest. split; [done|]. split; [done|].
    intros fuel Hfuel. unfold _topo_traversal. rewrite Href.
    apply (topo_loop_fuel_mono _ _ (topo_fuel (get_walker head))); [|done].
    unfold topo_fuel. cbn [Nat.add topo_loop]. rewrite Hlook.
    rewrite (proj2 (unprocessed_children_nil _ ∅)).
    + by rewrite Hrest.
    + intros c Hc%topo_children_lookup. by apply head_has_no_child in Hc.
  - intros c Hc%topo_children_lookup. by apply head_has_no_child in Hc.
Qed.

Lemma X15_topo_traversal_starts_at_head_witness :
  ∃ e rest,
    e ∈ merge_walker "d1239b6" ∧ commit_id e = "d1239b6"
    ∧ ∀ fuel, topo_fuel (merge_walker "d1239b6") ≤ fuel →
        _topo_traversal merge_walker merge_repo fuel None
        = Some (e :: rest, None).
Proof.
  apply (X15_topo_traversal_starts_at_head merge_walker merge_repo None "d1239b6").
  - reflexivity.
  - apply merge_walker_dag.
Defined.

Section LinearHistory.
Variable chain : list Commit.
Hypothesis Hlinear : linear_history chain.
Hypothesis Hnodup : NoDup (commit_id <$> chain).

Lemma linear_parents l1 e l2 :
  chain = l1 ++ e :: l2 →
  commit_parents e = match l2 with
                     | [] => []
                     | p :: _ => [commit_id p]
                     end.
Proof.
  clear Hnodup. revert Hlinear. generalize chain. intros l Hl Heq. subst l.
  induction l1 as [|a l1 IH]; simpl in Hl; [apply Hl | apply IH, Hl].
Qed.

Lemma linear_children done c rest x :
  chain = done ++ c :: rest →
  is_child chain (commit_id c) x →
  x ∈ commit_id <$> done.
Proof.
  intros Hchain (e & Hin & <- & Hp).
  apply list_elem_of_split in Hin as (l1 & l2 & Heq).
  rewrite (linear_parents l1 e l2 Heq) in Hp.
  destruct l2 as [|p l2]; [by apply elem_of_nil in Hp|].
  apply list_elem_of_singleton in Hp.
  assert (Hi : (commit_id <$> chain) !! S (length l1) = Some (commit_id p)).
  { rewrite Heq, list_lookup_fmap.
    by rewrite (lookup_app_r l1) by lia; replace (S (length l1) - length l1) with 1 by lia. }
  assert (Hj : (commit_id <$> chain) !! length done = Some (commit_id c)).
  { rewrite Hchain, list_lookup_fmap.
    by rewrite (lookup_app_r done) by lia; rewrite Nat.sub_diag. }
  rewrite <- Hp in Hi.
  pose proof (NoDup_lookup _ _ _ _ Hnodup Hi Hj) as Hlen.
  apply list_elem_of_fmap. exists e. split; [done|].
  apply (list_elem_of_lookup_2 _ (length l1)).
  assert (Hl : chain !! length l1 = Some e).
  { rewrite Heq. by rewrite (lookup_app_r l1) by lia; rewrite Nat.sub_diag. }
  rewrite Hchain, lookup_app_l in Hl by lia. done.
Qed.

Lemma linear_loop children :
  (∀ s, default ∅ (children !! s) = default ∅ (topo_children chain !! s)) →
  ∀ rest done fuel,
    chain = done ++ rest → length rest ≤ fuel →
    topo_loop (topo_all chain) children fuel
      (match rest with [] => [] | c :: _ => [commit_id c] end)
      (list_to_set (commit_id <$> done))
    = Some (rest, None).
Proof.
  intros Hchildren.
  induction rest as [|c rest IH]; intros done fuel Hchain Hfuel.
  - by destruct fuel.
  - destruct fuel as [|fuel]; [simpl in Hfuel; lia|].
    cbn [topo_loop].
    assert (Hlook : topo_all chain !! commit_id c = Some c).
    { apply topo_all_lookup; [done|]. split; [|done].
      rewrite Hchain. apply elem_of_app. right. left. }
    rewrite Hlook, Hchildren.
    rewrite (proj2 (unprocessed_children_nil _ _)).
    + rewrite (linear_parents done c rest Hchain).
      replace ({[commit_id c]} ∪ list_to_set (commit_id <$> done))
        with (list_to_set (commit_id <$> (done ++ [c])) : gset sha)
        by (rewrite fmap_app, list_to_set_app_L; set_solver).
      assert (Htodo : push_parents
                        match rest with [] => [] | p :: _ => [commit_id p] end []
                      = match rest with [] => [] | p :: _ => [commit_id p] end).
      { by destruct rest. }
      rewrite Htodo, (IH (done ++ [c]) fuel).
      * done.
      * by rewrite <- app_assoc.
      * simpl in Hfuel. lia.
    + intros x Hx%topo_children_lookup.
      apply elem_of_list_to_set. by eapply linear_children.
Qed.

End LinearHistory.

(** X16. A history without merges comes out of the linearizer from the
    head back to the root, whatever the order in which the walker
    delivers its commits. *)
Theorem X16_linear_history_from_head_to_root
    (get_walker : sha → list Commit) (repo : RenoRepo)
    (branch : option string) (c : Commit) (chain : list Commit) :
  _get_ref repo branch = Ok (commit_id c) →
  linear_history (c :: chain) →
  NoDup (commit_id <$> c :: chain) →
  get_walker (commit_id c) ≡ₚ c :: chain →
  ∀ fuel, length (c :: chain) ≤ fuel →
    _topo_traversal get_walker repo fuel branch = Some (c :: chain, None).
Proof.
  intros Href Hlinear Hnodup Hperm fuel Hfuel.
  unfold _topo_traversal. rewrite Href.
  rewrite (topo_all_perm _ (c :: chain)); [|by rewrite Hperm | done].
  apply (linear_loop (c :: chain) Hlinear Hnodup _
           (fun s => topo_children_perm _ _ s Hperm) (c :: chain) [] fuel);
    done.
Qed.

Lemma X16_linear_history_from_head_to_root_witness :
  _topo_traversal (fun head => reverse (readd_walker head)) readd_repo 3 None
  = Some (readd_commits, None).
Proof.
  apply (X16_linear_history_from_head_to_root
           (fun head => reverse (readd_walker head)) readd_repo None
           {| commit_id := "c3"; commit_parents := ["c2"];
              commit_tree := "t3"; commit_time := 300 |}
           [{| commit_id := "c2"; commit_parents := ["c1"];
               commit_tree := "t2"; commit_time := 200 |};
            {| commit_id := "c1"; commit_parents := [];
               commit_tree := "t1"; commit_time := 100 |}]).
  - reflexivity.
  - by repeat split.
  - vm_compute. repeat constructor; set_solver.
  - apply reverse_Permutation.
  - simpl. lia.
Defined.

(** ** More on the change aggregator *)

Section AggregateRecords.
Variable commit : sha.

Lemma classify_entry c u e :
  classify commit c = Some (u, e) → entry_of_commit commit u e.
Proof.
  unfold classify, entry_of_commit.
  destruct (tc_type c); try done.
  - destruct (decode_path (tc_new_path c)) as [p|]; simpl; [|done].
    destruct (_note_file (Some p)) eqn:Hnote; [|done]. by intros [= <- <-].
  - destruct (decode_path (tc_new_path c)) as [p|]; simpl; [|done].
    destruct (_note_file (Some p)) eqn:Hnote; [|done]. by intros [= <- <-].
  - destruct (decode_path (tc_old_path c)) as [p|]; simpl; [|done].
    destruct (_note_file (Some p)) eqn:Hnote; [|done]. by intros [= <- <-].
Qed.

Lemma raw_group_entries u cs :
  Forall (entry_of_commit commit u) (raw_group commit u cs).
Proof.
  apply Forall_forall. intros e (c & _ & Hc)%list_elem_of_omap.
  destruct (classify commit c) as [[u' e']|] eqn:Hclass; [|done].
  simpl in Hc. destruct (decide (u' = u)) as [->|]; [|done].
  injection Hc as <-. by eapply classify_entry.
Qed.

Lemma first_added_elem g p s : first_added g = Ok (p, s) → UAdd p s ∈ g.
Proof.
  induction g as [|[] g IH]; simpl; [done| | |].
  - intros [= -> ->]. left.
  - intros H. right. auto.
  - intros H. right. auto.
Qed.

Lemma first_deleted_elem g p : first_deleted g = Ok p → UDelete p ∈ g.
Proof.
  induction g as [|[] g IH]; simpl; [done| | |].
  - intros H. right. auto.
  - intros [= ->]. left.
  - intros H. right. auto.
Qed.

Lemma resolve_many_records u g rs :
  Forall (entry_of_commit commit u) g →
  resolve_many commit u g = Ok rs →
  Forall (record_of_commit commit) rs.
Proof.
  intros Hg. rewrite Forall_forall in Hg. unfold resolve_many.
  destruct (types_are [CHANGE_ADD; CHANGE_DELETE] g).
  - destruct (first_added g) as [[p s]|] eqn:Hadd; simpl; [|done].
    destruct (first_deleted g) as [old|] eqn:Hdel; simpl; [|done].
    intros [= <-]. constructor; [|constructor].
    destruct (Hg _ (first_added_elem _ _ _ Hadd)) as (? & ? & ?).
    destruct (Hg _ (first_deleted_elem _ _ Hdel)) as (? & ? & _).
    by repeat split.
  - destruct (types_are [CHANGE_MODIFY] g) eqn:Htypes; [|done].
    intros [= <-]. apply Forall_fmap, Forall_forall. intros e He.
    destruct (Hg e He) as (? & ? & _). by repeat split.
Qed.

Lemma resolve_group_records u g rs :
  Forall (entry_of_commit commit u) g →
  resolve_group commit u g = Ok rs →
  Forall (record_of_commit commit) rs.
Proof.
  intros Hg. destruct (decide (length g = 1)) as [Hlen|Hlen].
  - destruct g as [|e [|e' g]]; try done.
    apply Forall_cons in Hg as [(? & ? & ?) _].
    destruct e; simpl; intros [= <-]; by repeat constructor.
  - rewrite resolve_group_many by done. by apply resolve_many_records.
Qed.

(** The second loop puts the records of the groups one after the
    other. *)
Lemma resolve_loop_concat L : ∀ acc res,
  for_each (resolve_body commit) acc L = Ok res →
  ∃ rss,
    res = acc ++ concat rss
    ∧ Forall2 (fun kv rs => resolve_group commit kv.1 kv.2 = Ok rs) L rss.
Proof.
  induction L as [|[u g] L IH]; intros acc res; simpl.
  - intros [= <-]. exists []. by rewrite app_nil_r.
  - destruct (resolve_group commit u g) as [rs|] eqn:Hrs; simpl; [|done].
    intros (rss & -> & Hall)%IH. exists (rs :: rss). simpl.
    rewrite app_assoc. split; [done | by constructor].
Qed.

Lemma resolve_loop_ok L : ∀ acc,
  Forall (fun kv => is_ok (resolve_group commit kv.1 kv.2) = true) L →
  ∃ res, for_each (resolve_body commit) acc L = Ok res.
Proof.
  induction L as [|[u g] L IH]; intros acc HL; simpl; [by eexists|].
  apply Forall_cons in HL as [Hg HL]. simpl in Hg.
  destruct (resolve_group commit u g) as [rs|]; [|done]. simpl. by apply IH.
Qed.

(** What a successful run returns, group by group. *)
Lemma aggregate_groups changes results :
  _aggregate_changes commit changes = Ok results →
  ∃ L rss,
    results = concat rss
    ∧ StronglySorted (fun a b => key_leb a b = true) L
    ∧ Forall (fun kv => kv.2 = raw_group commit kv.1 (flat_changes changes)) L
    ∧ Forall2 (fun kv rs => resolve_group commit kv.1 kv.2 = Ok rs) L rss.
Proof.
  rewrite aggregate_unfold.
  destruct (collect_changes commit changes) as [d|] eqn:Hcollect; simpl; [|done].
  destruct (collect_changes_groups commit changes d Hcollect) as (Hnd & _ & Hget).
  intros (rss & -> & Hall)%resolve_loop_concat.
  exists (py_sorted key_leb d), rss. split_and!; [done | | | done].
  - apply py_sorted_sorted.
    + intros a b c. apply string_leb_trans.
    + intros a b. apply string_leb_total.
  - apply Forall_forall. intros [u g] Hin%elem_of_py_sorted. simpl.
    by rewrite <- Hget, (by_uid_get_elem_of u g d).
Qed.

End AggregateRecords.

Lemma aggregate_record_of_commit commit changes results r :
  _aggregate_changes commit changes = Ok results →
  r ∈ results → record_of_commit commit r.
Proof.
  intros (L & rss & -> & _ & Hgroups & Hall)%aggregate_groups.
  intros (rs & Hr & Hrs)%elem_of_concat.
  rewrite Forall_forall in Hgroups.
  apply list_elem_of_lookup in Hrs as [i Hi].
  destruct (Forall2_lookup_r _ _ _ _ _ Hall Hi) as ([u g] & HL & Hrun).
  simpl in Hrun.
  assert (Hrecords : Forall (record_of_commit commit) rs).
  { apply (resolve_group_records commit u g); [|done].
    pose proof (Hgroups (u, g) (list_elem_of_lookup_2 _ _ _ HL)) as Hg.
    simpl in Hg. rewrite Hg. apply raw_group_entries. }
  rewrite Forall_forall in Hrecords. by apply Hrecords.
Qed.

(** X17. Every record [_aggregate_changes] returns is about note files:
    its paths end in [.yaml], its identifier is the unique id of each of
    its paths, and the hash it carries is the id of the commit, never
    that of a blob. *)
Theorem X17_aggregate_records_are_of_the_commit
    (commit : sha) (changes : list change_item) (results : list ChangeRecord) :
  _aggregate_changes commit changes = Ok results →
  Forall (record_of_commit commit) results.
Proof.
  intros Hrun. apply Forall_forall. intros r Hr.
  by eapply aggregate_record_of_commit.
Qed.

Lemma X17_aggregate_records_are_of_the_commit_witness :
  Forall (record_of_commit "commit-id")
    [RRename "0000000000000001" "prefix/old-0000000000000001.yaml"
       "prefix/new-0000000000000001.yaml" "commit-id"].
Proof.
  apply (X17_aggregate_records_are_of_the_commit "commit-id"
           [One {| tc_type := CHANGE_ADD; tc_old_path := None;
                   tc_new_path := Some "prefix/new-0000000000000001.yaml" |};
            One {| tc_type := CHANGE_DELETE;
                   tc_old_path := Some "prefix/old-0000000000000001.yaml";
                   tc_new_path := None |}]).
  vm_compute. reflexivity.
Defined.

Lemma string_leb_refl a : String.leb a a = true.
Proof. by destruct (String.leb_total a a). Qed.

Lemma concat_sorted_by_uid (L : list (string * list uid_change))
    (rss : list (list ChangeRecord)) :
  StronglySorted (fun a b => key_leb a b = true) L →
  Forall2 (fun kv rs => Forall (fun r => cr_uid r = kv.1) rs) L rss →
  StronglySorted (fun a b => String.leb (cr_uid a) (cr_uid b) = true) (concat rss)
  ∧ Forall (fun r => ∃ kv, kv ∈ L ∧ cr_uid r = kv.1) (concat rss).
Proof.
  intros Hsorted Hall. induction Hall as [|kv rs L rss Hrs _ IH]; simpl.
  - split; constructor.
  - apply StronglySorted_cons in Hsorted as [Hhead Hsorted].
    destruct (IH Hsorted) as [IHs IHk].
    rewrite Forall_forall in Hrs. rewrite Forall_forall in IHk.
    rewrite Forall_forall in Hhead.
    split.
    + apply StronglySorted_app. split_and!; [| |done].
      * intros r1 r2 Hr1 Hr2. destruct (IHk r2 Hr2) as (kv' & Hkv' & ->).
        rewrite (Hrs r1 Hr1). by apply Hhead.
      * clear IH IHs IHk Hhead. induction rs as [|r rs IHrs]; constructor.
        -- apply IHrs. intros r' Hr'. apply Hrs. by right.
        -- apply Forall_forall. intros r' Hr'.
           rewrite (Hrs r), (Hrs r'); [apply string_leb_refl | by right | by left].
    + apply Forall_app. split; apply Forall_forall.
      * intros r Hr. exists kv. split; [by left | by apply Hrs].
      * intros r Hr. destruct (IHk r Hr) as (kv' & ? & ?). exists kv'.
        split; [by right | done].
Qed.

(** X18. The records come out ordered by unique id, whatever the order
    of the raw changes. *)
Theorem X18_aggregate_records_sorted_by_uid
    (commit : sha) (changes : list change_item) (results : list ChangeRecord) :
  _aggregate_changes commit changes = Ok results →
  StronglySorted (fun a b => String.leb (cr_uid a) (cr_uid b) = true) results.
Proof.
  intros (L & rss & -> & Hsorted & _ & Hall)%aggregate_groups.
  apply (concat_sorted_by_uid L rss Hsorted).
  eapply Forall2_impl; [done|].
  intros [u g] rs Hrun. simpl in *. by eapply resolve_group_uid.
Qed.

Lemma X18_aggregate_records_sorted_by_uid_witness :
  StronglySorted (fun a b => String.leb (cr_uid a) (cr_uid b) = true)
    [RDelete "0000000000000001" "a-0000000000000001.yaml";
     RAdd "0000000000000002" "b-0000000000000002.yaml" "c"].
Proof.
  apply (X18_aggregate_records_sorted_by_uid "c"
           [One {| tc_type := CHANGE_ADD; tc_old_path := None;
                   tc_new_path := Some "b-0000000000000002.yaml" |};
            One {| tc_type := CHANGE_DELETE;
                   tc_old_path := Some "a-0000000000000001.yaml";
                   tc_new_path := None |}]).
  vm_compute. reflexivity.
Defined.

Section AggregateSkips.
Variable commit : sha.

Lemma collect_change_skip d c :
  concerns_notes c = false → collect_change commit d c = Ok d.
Proof.
  unfold concerns_notes, examined_path, collect_change.
  intros [Hh Hnote]%orb_false_iff. apply negb_false_iff in Hh.
  destruct (tc_type c); try done; by rewrite Hnote.
Qed.

Lemma collect_loop_filter l : ∀ d,
  for_each (collect_change commit) d (filter (fun c => concerns_notes c = true) l)
  = for_each (collect_change commit) d l.
Proof.
  induction l as [|c l IH]; intros d; [done|].
  rewrite filter_cons. destruct (decide (concerns_notes c = true)) as [|Hskip].
  - simpl. destruct (collect_change commit d c); simpl; [apply IH | done].
  - apply not_true_is_false in Hskip. simpl.
    by rewrite (collect_change_skip d c Hskip).
Qed.

Lemma flat_changes_One l : flat_changes (One <$> l) = l.
Proof.
  unfold flat_changes. induction l as [|c l IH]; [done|].
  rewrite fmap_cons, bind_cons. simpl. by rewrite IH.
Qed.

End AggregateSkips.

(** X19. For a change stream with ASCII paths, only the changes that
    concern notes count: the result, or the exception, is the same when
    the changes to other files are left out, and the lists a merge
    delivers are treated like the flat stream of their elements. (A
    path that is not valid UTF-8 makes the decoding raise, whatever the
    file is; such streams are outside this statement.) *)
Theorem X19_aggregate_ignores_other_files
    (commit : sha) (changes : list change_item) :
  Forall (fun c => ascii_paths c = true) (flat_changes changes) →
  _aggregate_changes commit changes
  = _aggregate_changes commit
      (One <$> filter (fun c => concerns_notes c = true) (flat_changes changes)).
Proof.
  intros _.
  rewrite !aggregate_unfold, !collect_changes_flat, flat_changes_One.
  by rewrite collect_loop_filter.
Qed.

Lemma X19_aggregate_ignores_other_files_witness :
  _aggregate_changes "c2"
    [One {| tc_type := CHANGE_MODIFY; tc_old_path := Some "setup.py";
            tc_new_path := Some "setup.py" |};
     Many [{| tc_type := CHANGE_ADD; tc_old_path := None;
              tc_new_path := Some "a-0000000000000001.yaml" |};
           {| tc_type := CHANGE_DELETE; tc_old_path := Some "README.rst";
              tc_new_path := None |}]]
  = _aggregate_changes "c2"
      (One <$> filter (fun c => concerns_notes c = true)
         (flat_changes
            [One {| tc_type := CHANGE_MODIFY; tc_old_path := Some "setup.py";
                    tc_new_path := Some "setup.py" |};
             Many [{| tc_type := CHANGE_ADD; tc_old_path := None;
                      tc_new_path := Some "a-0000000000000001.yaml" |};
                   {| tc_type := CHANGE_DELETE; tc_old_path := Some "README.rst";
                      tc_new_path := None |}]])).
Proof.
  apply X19_aggregate_ignores_other_files.
  vm_compute. repeat constructor.
Defined.

Section AggregateSucceeds.
Variable commit : sha.

Lemma by_uid_append_nonempty u e d :
  Forall (fun kv => kv.2 ≠ []) d →
  Forall (fun kv : string * list uid_change => kv.2 ≠ []) (by_uid_append u e d).
Proof.
  induction 1 as [|[k cs] d Hk Hd IH]; simpl.
  - by repeat constructor.
  - destruct (decide (k = u)); constructor; simpl; try done.
    by destruct cs.
Qed.

Lemma collect_changes_nonempty changes d :
  collect_changes commit changes = Ok d →
  Forall (fun kv => kv.2 ≠ []) d.
Proof.
  rewrite collect_changes_flat. intros Hrun.
  apply (for_each_ok_ind (collect_change commit)
           (fun d _ => Forall (fun kv => kv.2 ≠ []) d) _ _ _ Hrun); [done|].
  intros d1 done c d2 Hd1 Hbody.
  destruct (handled_type (tc_type c)) eqn:Hh;
    [|by rewrite collect_change_unhandled in Hbody].
  rewrite collect_change_handled in Hbody by done. injection Hbody as <-.
  destruct (classify commit c) as [[u e]|]; [by apply by_uid_append_nonempty | done].
Qed.

Lemma resolve_group_ok u g :
  g ≠ [] → resolvable_group g → is_ok (resolve_group commit u g) = true.
Proof.
  intros Hne Hg. destruct (decide (length g = 1)) as [Hlen|Hlen].
  - destruct g as [|e [|e' g]]; try done. by destruct e.
  - rewrite resolve_group_many by done. unfold resolve_many.
    assert (Hrename : group_types_eq [CHANGE_ADD; CHANGE_DELETE] g →
              is_ok (added ← first_added g; deled ← first_deleted g;
                     Ok [RRename u deled added.1 added.2]) = true).
    { intros Hg'.
      destruct (first_added_ok g) as [a ->]; [apply Hg'; set_solver|].
      destruct (first_deleted_ok g) as [p ->]; [apply Hg'; set_solver|].
      done. }
    destruct (types_are [CHANGE_ADD; CHANGE_DELETE] g) eqn:Hrn.
    + by apply Hrename, types_are_spec.
    + destruct Hg as [?|[Hg|Hg]]; [done| |].
      * apply types_are_spec in Hg. congruence.
      * by rewrite (proj2 (types_are_spec _ _) Hg).
Qed.

End AggregateSucceeds.

(** X20. For a change stream with ASCII paths, [_aggregate_changes]
    returns a result exactly when every raw change is an add, a delete
    or a modification and the changes of every unique id are a single
    change, adds together with deletes, or modifications only; in every
    other case it raises. (A path that is not valid UTF-8 makes the
    decoding raise as well; such streams are outside this statement.) *)
Theorem X20_aggregate_succeeds_iff_resolvable
    (commit : sha) (changes : list change_item) :
  Forall (fun c => ascii_paths c = true) (flat_changes changes) →
  is_ok (_aggregate_changes commit changes) = true ↔
  Forall (fun c => handled_type (tc_type c) = true) (flat_changes changes)
  ∧ ∀ uid, raw_group commit uid (flat_changes changes) = []
           ∨ resolvable_group (raw_group commit uid (flat_changes changes)).
Proof.
  intros _. split.
  - intros Hok.
    assert (Hhandled :
      Forall (fun c => handled_type (tc_type c) = true) (flat_changes changes)).
    { rewrite aggregate_unfold in Hok.
      destruct (collect_changes commit changes) as [d|] eqn:Hcollect; [|done].
      by destruct (collect_changes_groups commit changes d Hcollect) as (_ & ? & _). }
    split; [done|]. intros uid.
    destruct (raw_group commit uid (flat_changes changes)) as [|e g] eqn:Hg;
      [by left | right].
    rewrite <- Hg. unfold resolvable_group.
    destruct (decide (length (raw_group commit uid (flat_changes changes)) = 1))
      as [|Hlen]; [by left | right].
    destruct (types_are [CHANGE_ADD; CHANGE_DELETE]
                (raw_group commit uid (flat_changes changes))) eqn:Hrename;
      [left; by apply types_are_spec | right].
    destruct (types_are [CHANGE_MODIFY]
                (raw_group commit uid (flat_changes changes))) eqn:Hmodify;
      [by apply types_are_spec|].
    exfalso. rewrite (aggregate_unrecognized commit changes uid) in Hok.
    + done.
    + done.
    + by rewrite Hg.
    + done.
    + rewrite <- types_are_spec. congruence.
    + rewrite <- types_are_spec. congruence.
  - intros [Hhandled Hgroups]. rewrite aggregate_unfold.
    destruct (collect_changes_handled commit changes Hhandled) as [d Hcollect].
    rewrite Hcollect. simpl.
    destruct (collect_changes_groups commit changes d Hcollect) as (Hnd & _ & Hget).
    pose proof (collect_changes_nonempty commit changes d Hcollect) as Hne.
    rewrite Forall_forall in Hne.
    destruct (resolve_loop_ok commit (py_sorted key_leb d) []) as [res ->]; [|done].
    apply Forall_forall. intros [u g] Hin%elem_of_py_sorted. simpl.
    specialize (Hne _ Hin). simpl in Hne.
    assert (Hg : g = raw_group commit u (flat_changes changes))
      by (by rewrite <- Hget, (by_uid_get_elem_of u g d)).
    apply resolve_group_ok; [done|].
    destruct (Hgroups u) as [Hnil|Hres]; [congruence | by rewrite Hg].
Qed.

Lemma X20_aggregate_succeeds_iff_resolvable_witness :
  is_ok (_aggregate_changes "c2"
           [One {| tc_type := CHANGE_ADD; tc_old_path := None;
                   tc_new_path := Some "a-0000000000000001.yaml" |};
            One {| tc_type := CHANGE_MODIFY;
                   tc_old_path := Some "b-0000000000000001.yaml";
                   tc_new_path := Some "b-0000000000000001.yaml" |}]) = true ↔
  Forall (fun c => handled_type (tc_type c) = true)
    (flat_changes
       [One {| tc_type := CHANGE_ADD; tc_old_path := None;
               tc_new_path := Some "a-0000000000000001.yaml" |};
        One {| tc_type := CHANGE_MODIFY;
               tc_old_path := Some "b-0000000000000001.yaml";
               tc_new_path := Some "b-0000000000000001.yaml" |}])
  ∧ ∀ uid,
      raw_group "c2" uid
        (flat_changes
           [One {| tc_type := CHANGE_ADD; tc_old_path := None;
                   tc_new_path := Some "a-0000000000000001.yaml" |};
            One {| tc_type := CHANGE_MODIFY;
                   tc_old_path := Some "b-0000000000000001.yaml";
                   tc_new_path := Some "b-0000000000000001.yaml" |}]) = []
      ∨ resolvable_group
          (raw_group "c2" uid
             (flat_changes
                [One {| tc_type := CHANGE_ADD; tc_old_path := None;
                        tc_new_path := Some "a-0000000000000001.yaml" |};
                 One {| tc_type := CHANGE_MODIFY;
                        tc_old_path := Some "b-0000000000000001.yaml";
                        tc_new_path := Some "b-0000000000000001.yaml" |}])).
Proof.
  apply X20_aggregate_succeeds_iff_resolvable.
  vm_compute. repeat constructor.
Defined.

(** ** More on the version assigner *)

(** X21. An [earliest_version] that is not a tag of the branch makes
    [get_notes_by_version] raise [ValueError] before any commit is
    scanned; the current version of an untagged head does not count as
    known here. *)
Theorem X21_unknown_earliest_version_raises
    (get_walker : sha → list Commit)
    (tree_changes : option sha → option sha → list change_item)
    (tree_changes_for_merge : list sha → option sha → list change_item)
    (repo : RenoRepo) (conf : Config) (ev : string)
    (versions_by_date : list string) (fuel : nat) :
  earliest_version conf = Some ev → ev ≠ "" →
  _get_tags_on_branch get_walker repo (branch conf) = Ok versions_by_date →
  ev ∉ versions_by_date →
  get_notes_by_version get_walker tree_changes tree_changes_for_merge
    repo conf fuel
  = Some (Raise (ValueError "earliest-version set to unknown revision")).
Proof.
  intros Hev Hne Htags Hunknown.
  unfold get_notes_by_version, scan_setup. rewrite Htags, Hev. simpl.
  rewrite bool_decide_eq_true_2 by done. by destruct ev.
Qed.

Lemma X21_unknown_earliest_version_raises_witness :
  get_notes_by_version branch_walker branch_tree_changes (fun _ _ => [])
    branch_repo
    {| reporoot := "."; notespath := "notes"; branch := Some "stable/2";
       earliest_version := Some "2.0.0-1"; collapse_pre_releases := true;
       stop_at_branch_base := true |} 10
  = Some (Raise (ValueError "earliest-version set to unknown revision")).
Proof.
  apply (X21_unknown_earliest_version_raises branch_walker branch_tree_changes
           (fun _ _ => []) branch_repo _ "2.0.0-1" ["2.0.0"; "1.0.0"] 10).
  - reflexivity.
  - discriminate.
  - vm_compute. reflexivity.
  - set_solver.
Defined.

Lemma dict_set_NoDup {V} k (v : V) d : NoDup d.*1 → NoDup (dict_set k v d).*1.
Proof.
  intros Hnd. rewrite dict_set_keys. destruct (decide (k ∈ d.*1)); [done|].
  apply NoDup_app. split_and!; [done| |apply NoDup_singleton].
  intros x Hx ->%list_elem_of_singleton. done.
Qed.

Lemma trim_keys_NoDup earliest files_and_tags versions_by_date : ∀ trimmed,
  NoDup trimmed.*1 →
  NoDup (trim earliest files_and_tags versions_by_date trimmed).*1.
Proof.
  induction versions_by_date as [|ov rest IH]; intros trimmed Hnd; simpl; [done|].
  destruct (dict_get ov files_and_tags) as [[|f fs]|]; [by apply IH | | by apply IH].
  destruct (Py.truthy earliest && _); [by apply dict_set_NoDup|].
  by apply IH, dict_set_NoDup.
Qed.

Lemma trim_entries earliest files_and_tags versions_by_date : ∀ trimmed v files,
  (v, files) ∈ trim earliest files_and_tags versions_by_date trimmed →
  (v, files) ∈ trimmed
  ∨ (v ∈ versions_by_date
     ∧ files_of v files_and_tags ≠ []
     ∧ files = py_sorted note_leb (files_of v files_and_tags)).
Proof.
  induction versions_by_date as [|ov rest IH]; intros trimmed v files; simpl; [auto|].
  assert (Hrest : (v, files) ∈ trim earliest files_and_tags rest trimmed →
                  (v, files) ∈ trimmed
                  ∨ (v ∈ ov :: rest
                     ∧ files_of v files_and_tags ≠ []
                     ∧ files = py_sorted note_leb (files_of v files_and_tags))).
  { intros [?|(? & ? & ?)]%IH; [by left | right]. split; [by right | done]. }
  destruct (dict_get ov files_and_tags) as [[|f fs]|] eqn:Hov; [done| |done].
  assert (Hset : (v, files) ∈ dict_set ov (py_sorted note_leb (f :: fs)) trimmed →
                 (v, files) ∈ trimmed
                 ∨ (v ∈ ov :: rest
                    ∧ files_of v files_and_tags ≠ []
                    ∧ files = py_sorted note_leb (files_of v files_and_tags))).
  { intros [[= -> ->]|Hin]%dict_set_elem_of; [right | by left].
    unfold files_of. rewrite Hov. split; [by left | done]. }
  destruct (Py.truthy earliest && _); [done|].
  intros [Hin|(? & ? & ?)]%IH; [by apply Hset | right].
  split; [by right | done].
Qed.

(** X22. In what [get_notes_by_version] returns every version is a tag
    of the branch or the current version and appears once, and its list
    of notes is not empty and ordered by path, then commit. *)
Theorem X22_result_versions_known_and_sorted
    (get_walker : sha → list Commit)
    (tree_changes : option sha → option sha → list change_item)
    (tree_changes_for_merge : list sha → option sha → list change_item)
    (repo : RenoRepo) (conf : Config) (fuel : nat)
    (out : list (string * list (string * sha))) :
  get_notes_by_version get_walker tree_changes tree_changes_for_merge
    repo conf fuel = Some (Ok out) →
  ∃ versions_by_date cv,
    _get_tags_on_branch get_walker repo (branch conf) = Ok versions_by_date
    ∧ _get_current_version repo fuel (branch conf) = Some (Ok cv)
    ∧ NoDup out.*1
    ∧ ∀ v files, (v, files) ∈ out →
        (v = cv ∨ v ∈ versions_by_date)
        ∧ files ≠ []
        ∧ StronglySorted (fun a b => note_leb a b = true) files.
Proof.
  unfold get_notes_by_version, scan_setup.
  destruct (_get_tags_on_branch get_walker repo (branch conf))
    as [versions_by_date|] eqn:Htags; [|done].
  simpl.
  set (setup := if Py.truthy (earliest_version conf) && _ then _ else _).
  destruct setup as [[[vbd earliest] bbt]|] eqn:Hsetup; [|done].
  assert (vbd = versions_by_date) as ->.
  { subst setup. destruct (Py.truthy (earliest_version conf) && _); [done|].
    destruct (_ && _ && _ && _); [|by injection Hsetup].
    destruct (_get_branch_base _ _ _); [|done]. simpl in Hsetup.
    by injection Hsetup. }
  destruct (_get_current_version repo fuel (branch conf)) as [[cv|]|]; [|done..].
  destruct (_topo_traversal _ _ _ _) as [[entries final]|]; [|done].
  destruct (scan_loop _ _ _ _ _ _ _ _) as [st|]; simpl; [|done].
  intros [= <-]. exists versions_by_date, cv. split_and!; [done..| |].
  - apply trim_keys_NoDup. constructor.
  - intros v files [Hin|(Hv & Hne & ->)]%trim_entries;
      [by apply elem_of_nil in Hin|].
    split_and!.
    + destruct (bool_decide (cv ∈ versions_by_date)); [by right|].
      apply elem_of_cons in Hv as [->|?]; [by left | by right].
    + intros Hnil. apply Hne, Permutation_nil.
      by rewrite <- Hnil, py_sorted_perm.
    + apply py_sorted_sorted; [apply note_leb_trans | apply note_leb_total].
Qed.

Lemma X22_result_versions_known_and_sorted_witness :
  ∃ versions_by_date cv,
    _get_tags_on_branch branch_walker branch_repo (Some "stable/2")
    = Ok versions_by_date
    ∧ _get_current_version branch_repo 10 (Some "stable/2") = Some (Ok cv)
    ∧ NoDup [("2.0.0-1", [("notes/slug21-0000000000000004.yaml", "s1")]);
             ("2.0.0", [("notes/slug2-0000000000000002.yaml", "c2")])].*1
    ∧ ∀ v files,
        (v, files) ∈ [("2.0.0-1", [("notes/slug21-0000000000000004.yaml", "s1")]);
                      ("2.0.0", [("notes/slug2-0000000000000002.yaml", "c2")])] →
        (v = cv ∨ v ∈ versions_by_date)
        ∧ files ≠ []
        ∧ StronglySorted (fun a b => note_leb a b = true) files.
Proof.
  apply (X22_result_versions_known_and_sorted branch_walker branch_tree_changes
           (fun _ _ => []) branch_repo (branch_config (Some "stable/2")) 10).
  vm_compute. reflexivity.
Defined.

Section ScanStops.
Variable tree_changes : option sha → option sha → list change_item.
Variable tree_changes_for_merge : list sha → option sha → list change_item.
Variable repo : RenoRepo.
Variable notesdir : string.

Lemma scan_commit_tags st entry r tags :
  scan_commit tree_changes tree_changes_for_merge repo notesdir st entry = Ok r →
  get_tags_on_commit repo (commit_id entry) = Ok tags →
  tags ≠ [] →
  r.2 = tags.
Proof.
  unfold scan_commit. intros Hrun Htags Hne. rewrite Htags in Hrun.
  simpl in Hrun. unfold enter_commit in Hrun.
  destruct (last tags) as [t|] eqn:Hlast; [|by apply last_None in Hlast].
  destruct (_changes_in_subdir _ _ _ _ _) as [changes|]; [|done].
  simpl in Hrun. destruct (_aggregate_changes _ _) as [records|]; [|done].
  simpl in Hrun. by injection Hrun as <-.
Qed.

End ScanStops.

(** X23. The scan ends with the commit that carries the tag of the
    branch base: what the traversal yields after that commit is not
    scanned, and an exception that would end the traversal later is
    never met. *)
Theorem X23_scan_stops_at_branch_base
    (tree_changes : option sha → option sha → list change_item)
    (tree_changes_for_merge : list sha → option sha → list change_item)
    (repo : RenoRepo) (notesdir t : string) (st st' : ScanState)
    (pre : list Commit) (e : Commit) (tags : list string) :
  t ≠ "" →
  get_tags_on_commit repo (commit_id e) = Ok tags →
  t ∈ tags →
  scan_loop tree_changes tree_changes_for_merge repo notesdir (Some t)
    st (pre ++ [e]) None = Ok st' →
  ∀ post final,
    scan_loop tree_changes tree_changes_for_merge repo notesdir (Some t)
      st (pre ++ e :: post) final = Ok st'.
Proof.
  revert st st'.
  induction pre as [|a pre IH]; intros st st' Ht Htags Hin Hrun post final.
  - simpl in *.
    destruct (scan_commit _ _ _ _ _ _) as [r|] eqn:Hcommit; [|done].
    simpl in *.
    rewrite (scan_commit_tags _ _ _ _ st e r tags Hcommit Htags) in *
      by (intros ->; by apply elem_of_nil in Hin).
    rewrite bool_decide_eq_true_2 in * by done.
    by destruct t.
  - simpl in *.
    destruct (scan_commit _ _ _ _ _ a) as [r|] eqn:Hcommit; [|done].
    simpl in *. destruct (_ && bool_decide (t ∈ r.2)); [done|].
    by apply IH.
Qed.

Lemma X23_scan_stops_at_branch_base_witness :
  ∃ st',
    scan_loop branch_tree_changes (fun _ _ => []) branch_repo "notes"
      (Some "2.0.0") (initial_state "2.0.0-1") (take 2 (branch_walker "s1")) None
    = Ok st'
    ∧ ∀ post final,
        scan_loop branch_tree_changes (fun _ _ => []) branch_repo "notes"
          (Some "2.0.0") (initial_state "2.0.0-1")
          ([{| commit_id := "s1"; commit_parents := ["c2"];
               commit_tree := "ts"; commit_time := 400 |}]
           ++ {| commit_id := "c2"; commit_parents := ["c1"];
                 commit_tree := "t2"; commit_time := 200 |} :: post) final
        = Ok st'.
Proof.
  destruct (scan_loop branch_tree_changes (fun _ _ => []) branch_repo "notes"
              (Some "2.0.0") (initial_state "2.0.0-1")
              (take 2 (branch_walker "s1")) None) as [st'|] eqn:Hrun;
    [|vm_compute in Hrun; discriminate Hrun].
  exists st'. split; [reflexivity|].
  apply (X23_scan_stops_at_branch_base branch_tree_changes (fun _ _ => [])
           branch_repo "notes" "2.0.0" (initial_state "2.0.0-1") st'
           [{| commit_id := "s1"; commit_parents := ["c2"];
               commit_tree := "ts"; commit_time := 400 |}]
           {| commit_id := "c2"; commit_parents := ["c1"];
              commit_tree := "t2"; commit_time := 200 |} ["2.0.0"]).
  - discriminate.
  - vm_compute. reflexivity.
  - left.
  - exact Hrun.
Defined.

(** ** More on the collapser and the last loop *)

Lemma collapse_step_files known collapsing acc ov k :
  files_of k (collapse_step known collapsing acc ov)
  = files_of k acc
    ++ (if decide (canonical_version known ov = k)
        then files_of ov collapsing else []).
Proof.
  unfold collapse_step, files_of.
  destruct (dict_get ov collapsing) as [files|]; simpl.
  - destruct (decide (canonical_version known ov = k)) as [<-|Hne].
    + by rewrite dict_get_set_eq.
    + by rewrite dict_get_set_ne, app_nil_r.
  - destruct (decide _); by rewrite app_nil_r.
Qed.

Lemma collapse_fold_concat known collapsing l k : ∀ acc,
  files_of k (foldl (collapse_step known collapsing) acc l)
  = files_of k acc
    ++ concat ((fun ov => files_of ov collapsing)
                 <$> filter (fun ov => canonical_version known ov = k) l).
Proof.
  induction l as [|ov l IH]; intros acc; simpl; [by rewrite app_nil_r|].
  rewrite IH, collapse_step_files, filter_cons.
  destruct (decide (canonical_version known ov = k)); simpl.
  - by rewrite app_assoc.
  - by rewrite app_nil_r.
Qed.

(** X24. After collapsing, the notes of a version are the notes of the
    versions that fold into it, one bucket after the other in the order
    of [versions_by_date]; no note is dropped or repeated as long as its
    version is listed once. *)
Theorem X24_collapse_concatenates_buckets
    (versions_by_date : list string) (collapsing : list (string * bucket))
    (k : string) :
  files_of k (collapse versions_by_date collapsing)
  = concat ((fun ov => files_of ov collapsing)
              <$> filter (fun ov => canonical_version versions_by_date ov = k)
                    versions_by_date).
Proof. unfold collapse. by rewrite collapse_fold_concat. Qed.

Lemma trim_cut ev files_and_tags l1 l2 : ∀ trimmed,
  ev ≠ "" → files_of ev files_and_tags ≠ [] →
  trim (Some ev) files_and_tags (l1 ++ ev :: l2) trimmed
  = trim (Some ev) files_and_tags (l1 ++ [ev]) trimmed.
Proof.
  intros trimmed Hev Hfiles. revert trimmed.
  induction l1 as [|a l1 IH]; intros trimmed; simpl.
  - unfold files_of in Hfiles.
    destruct (dict_get ev files_and_tags) as [[|f fs]|]; [done| |done].
    rewrite bool_decide_eq_true_2 by done. by destruct ev.
  - destruct (dict_get a files_and_tags) as [[|f fs]|]; [done| |done].
    by destruct (_ && bool_decide (Some ev = Some a)).
Qed.

Lemma trim_no_cut ev files_and_tags versions_by_date : ∀ trimmed,
  files_of ev files_and_tags = [] →
  trim (Some ev) files_and_tags versions_by_date trimmed
  = trim None files_and_tags versions_by_date trimmed.
Proof.
  intros trimmed Hfiles. revert trimmed.
  induction versions_by_date as [|ov rest IH]; intros trimmed; simpl; [done|].
  destruct (dict_get ov files_and_tags) as [[|f fs]|] eqn:Hov; [done| |done].
  rewrite bool_decide_eq_false_2.
  - rewrite andb_false_r. apply IH.
  - intros [= ->]. unfold files_of in Hfiles. by rewrite Hov in Hfiles.
Qed.

(** X25. The last loop ends with [earliest_version] only if that
    version has notes: then the versions listed after it are left out;
    if it has none, the result is the one for no [earliest_version] at
    all, older versions included. *)
Theorem X25_trim_ends_at_earliest_version_with_notes
    (ev : string) (files_and_tags : list (string * bucket)) :
  ev ≠ "" →
  (files_of ev files_and_tags ≠ [] →
   ∀ l1 l2 trimmed,
     trim (Some ev) files_and_tags (l1 ++ ev :: l2) trimmed
     = trim (Some ev) files_and_tags (l1 ++ [ev]) trimmed)
  ∧ (files_of ev files_and_tags = [] →
     ∀ versions_by_date trimmed,
       trim (Some ev) files_and_tags versions_by_date trimmed
       = trim None files_and_tags versions_by_date trimmed).
Proof.
  intros Hev. split.
  - intros Hfiles l1 l2 trimmed. by apply trim_cut.
  - intros Hfiles versions_by_date trimmed. by apply trim_no_cut.
Qed.

Lemma X25_trim_ends_at_earliest_version_with_notes_witness :
  trim (Some "2.0.0") [("3.0.0", [("n3", "c3")]); ("1.0.0", [("n1", "c1")])]
    ["3.0.0"; "2.0.0"; "1.0.0"] []
  = [("3.0.0", [("n3", "c3")]); ("1.0.0", [("n1", "c1")])]
  ∧ trim (Some "2.0.0")
      [("3.0.0", [("n3", "c3")]); ("2.0.0", [("n2", "c2")]);
       ("1.0.0", [("n1", "c1")])]
      (["3.0.0"] ++ "2.0.0" :: ["1.0.0"]) []
    = [("3.0.0", [("n3", "c3")]); ("2.0.0", [("n2", "c2")])].
Proof.
  split.
  - destruct (X25_trim_ends_at_earliest_version_with_notes "2.0.0"
                [("3.0.0", [("n3", "c3")]); ("1.0.0", [("n1", "c1")])])
      as [_ Hnone]; [discriminate|].
    rewrite Hnone; reflexivity.
  - destruct (X25_trim_ends_at_earliest_version_with_notes "2.0.0"
                [("3.0.0", [("n3", "c3")]); ("2.0.0", [("n2", "c2")]);
                 ("1.0.0", [("n1", "c1")])])
      as [Hcut _]; [discriminate|].
    rewrite Hcut; [reflexivity | discriminate].
Defined.

(** ** More on pre-release versions *)

Section PreReleaseShape.
Import Py PyFacts.

Lemma span_digits_spec l : ∀ d r,
  span_digits l = (d, r) →
  l = d ++ r ∧ Forall (fun c => is_digit c = true) d.
Proof.
  induction l as [|c l IH]; intros d r; simpl.
  - by intros [= <- <-].
  - destruct (is_digit c) eqn:Hc.
    + destruct (span_digits l) as [d' r'] eqn:Hs. intros [= <- <-].
      destruct (IH d' r' eq_refl) as [-> Hd]. split; [done | by constructor].
    + by intros [= <- <-].
Qed.

Lemma span_markers_spec l : ∀ m r,
  span_markers l = (m, r) →
  ∃ markers, m = concat markers ∧ l = m ++ r ∧ Forall is_marker markers.
Proof.
  remember (length l) as n eqn:Hn. revert l Hn.
  induction n as [n IH] using lt_wf_ind. intros l Hn m r.
  destruct l as [|c l]; simpl.
  - intros [= <- <-]. by exists [].
  - destruct (Ascii.eqb c "a" || Ascii.eqb c "b") eqn:Hab.
    + destruct (span_markers l) as [m' r'] eqn:Hs. intros [= <- <-].
      destruct (IH (length l) ltac:(simpl in Hn; lia) l eq_refl m' r' Hs)
        as (markers & -> & -> & Hm).
      exists ([c] :: markers). split_and!; [done..|].
      constructor; [|done].
      apply orb_true_iff in Hab as [->%Ascii.eqb_eq | ->%Ascii.eqb_eq];
        [by left | right; by left].
    + destruct l as [|c2 l]; [intros [= <- <-]; by exists []|].
      destruct (Ascii.eqb c "r" && Ascii.eqb c2 "c") eqn:Hrc.
      * destruct (span_markers l) as [m' r'] eqn:Hs. intros [= <- <-].
        destruct (IH (length l) ltac:(simpl in Hn; lia) l eq_refl m' r' Hs)
          as (markers & -> & -> & Hm).
        apply andb_true_iff in Hrc as [->%Ascii.eqb_eq ->%Ascii.eqb_eq].
        exists (chars "rc" :: markers). split_and!; [done..|].
        constructor; [right; by right | done].
      * intros [= <- <-]. by exists [].
Qed.

Lemma pre_release_match_at_sound l g :
  pre_release_match_at l = Some g →
  ∃ d1 markers d2 nl,
    l = "."%char :: d1 ++ concat markers ++ d2 ++ nl
    ∧ g = d1 ++ concat markers ++ d2
    ∧ d1 ≠ [] ∧ Forall (fun c => is_digit c = true) d1
    ∧ markers ≠ [] ∧ Forall is_marker markers
    ∧ Forall (fun c => is_digit c = true) d2
    ∧ (nl = [] ∨ nl = [newline]).
Proof.
  unfold pre_release_match_at. destruct l as [|c l]; [done|].
  destruct (Ascii.eqb c ".") eqn:Hc; [|done]. apply Ascii.eqb_eq in Hc as ->.
  destruct (span_digits l) as [d1 r1] eqn:H1.
  destruct (span_markers r1) as [ms r2] eqn:H2.
  destruct (span_digits r2) as [d2 r3] eqn:H3.
  apply span_digits_spec in H1 as [-> Hd1].
  apply span_markers_spec in H2 as (markers & -> & -> & Hm).
  apply span_digits_spec in H3 as [-> Hd2].
  destruct d1 as [|c1 d1]; [done|].
  destruct (concat markers) as [|m0 ms] eqn:Hms; [done|].
  destruct (bool_decide (r3 = [] ∨ r3 = [newline])) eqn:Hend; [|done].
  apply bool_decide_eq_true in Hend. intros [= <-].
  exists (c1 :: d1), markers, d2, r3. rewrite Hms.
  split_and!; try done.
  by intros ->.
Qed.

Lemma pre_release_search_sound l g :
  pre_release_search l = Some g →
  ∃ p s, l = p ++ s ∧ pre_release_match_at s = Some g.
Proof.
  induction l as [|c l IH].
  - cbn [pre_release_search].
    destruct (pre_release_match_at []) eqn:Hm; [|done].
    intros [= <-]. by exists [], [].
  - cbn [pre_release_search].
    destruct (pre_release_match_at (c :: l)) eqn:Hm.
    + intros [= <-]. by exists [], (c :: l).
    + intros (p & s & -> & Hs)%IH. by exists (c :: p), s.
Qed.

Lemma split_no_sep sep l : sep ∉ l → split sep l = [l].
Proof.
  induction l as [|c l IH]; simpl; [done|].
  rewrite not_elem_of_cons. intros [Hne Hl].
  destruct (Ascii.eqb_spec c sep) as [->|_]; [done|]. by rewrite IH.
Qed.

Lemma join_split sep l : join [sep] (split sep l) = l.
Proof.
  induction l as [|c l IH]; simpl; [done|].
  pose proof (split_nonempty sep l) as Hne.
  destruct (Ascii.eqb_spec c sep) as [->|_].
  - destruct (split sep l) as [|w ws]; [done|]. simpl in *. by rewrite IH.
  - destruct (split sep l) as [|w ws]; [done|].
    destruct ws as [|w' ws]; simpl in *; by rewrite <- IH.
Qed.

Lemma drop_last_component_label prefix tail :
  "."%char ∉ tail →
  drop_last_component (prefix +:+ "." +:+ str tail) = prefix.
Proof.
  intros Hdot. unfold drop_last_component.
  rewrite !chars_app, chars_str. simpl.
  rewrite split_app, (split_no_sep _ tail Hdot), length_app. simpl.
  replace (length (split "." (chars prefix)) + 1 - 1)
    with (length (split "." (chars prefix))) by lia.
  by rewrite take_app_length, join_split, str_chars.
Qed.

End PreReleaseShape.

(** X26. Whatever [PRE_RELEASE_RE] finds has one shape: the version
    ends with a dot, one or more digits, one or more of the markers
    [a], [b] and [rc], and then digits only, up to a newline that may
    end the string; the group is what follows that dot. *)
Theorem X26_pre_release_match_shape (version g : string) :
  PRE_RELEASE_RE version = Some g →
  ∃ prefix d1 markers d2 nl,
    Py.chars version = Py.chars (pre_release_label prefix d1 markers d2) ++ nl
    ∧ g = Py.str (d1 ++ concat markers ++ d2)
    ∧ d1 ≠ [] ∧ Forall (fun c => is_digit c = true) d1
    ∧ markers ≠ [] ∧ Forall is_marker markers
    ∧ Forall (fun c => is_digit c = true) d2
    ∧ (nl = [] ∨ nl = [newline]).
Proof.
  unfold PRE_RELEASE_RE.
  destruct (pre_release_search (Py.chars version)) as [tail|] eqn:Hsearch; [|done].
  intros [= <-].
  apply pre_release_search_sound in Hsearch as (p & s & Hv & Hmatch).
  apply pre_release_match_at_sound in Hmatch
    as (d1 & markers & d2 & nl & -> & -> & Hrest).
  exists (Py.str p), d1, markers, d2, nl. split; [|done].
  rewrite chars_pre_release_label, PyFacts.chars_str, Hv.
  rewrite <- (app_assoc p). simpl. by rewrite <- !app_assoc.
Qed.

Lemma X26_pre_release_match_shape_witness :
  ∃ prefix d1 markers d2 nl,
    Py.chars "1.0.0.0rc1" = Py.chars (pre_release_label prefix d1 markers d2) ++ nl
    ∧ "0rc1" = Py.str (d1 ++ concat markers ++ d2)
    ∧ d1 ≠ [] ∧ Forall (fun c => is_digit c = true) d1
    ∧ markers ≠ [] ∧ Forall is_marker markers
    ∧ Forall (fun c => is_digit c = true) d2
    ∧ (nl = [] ∨ nl = [newline]).
Proof.
  apply (X26_pre_release_match_shape "1.0.0.0rc1" "0rc1"). reflexivity.
Defined.

(** X27. Where the base of a branch is a pre-release label, the
    [earliest_version] computed from it, the label without its last
    component, is the release the collapser folds that label into. *)
Theorem X27_earliest_version_is_collapse_target
    (versions_by_date : list string) (prefix : string) (d1 : list ascii)
    (markers : list (list ascii)) (d2 : list ascii) :
  d1 ≠ [] → Forall (fun c => is_digit c = true) d1 →
  markers ≠ [] → Forall is_marker markers →
  Forall (fun c => is_digit c = true) d2 →
  last (Py.chars prefix) ≠ Some "."%char →
  prefix ∈ versions_by_date →
  drop_last_component (pre_release_label prefix d1 markers d2) = prefix
  ∧ canonical_version versions_by_date (pre_release_label prefix d1 markers d2)
    = drop_last_component (pre_release_label prefix d1 markers d2).
Proof.
  intros Hd1 Hdig1 Hm Hmark Hdig2 Hlast Hknown.
  assert (Hdrop : drop_last_component (pre_release_label prefix d1 markers d2)
                  = prefix).
  { apply drop_last_component_label. rewrite !elem_of_app. intros [H|[H|H]].
    - by apply (digit_not_dot d1).
    - by apply (marker_not_dot markers).
    - by apply (digit_not_dot d2). }
  split; [done|].
  rewrite Hdrop, canonical_version_label by done.
  by rewrite decide_True.
Qed.

Lemma X27_earliest_version_is_collapse_target_witness :
  drop_last_component
    (pre_release_label "4.0.0" (Py.chars "0") [Py.chars "rc"] (Py.chars "1"))
  = "4.0.0"
  ∧ canonical_version ["4.0.0"; "4.0.0.0rc1"]
      (pre_release_label "4.0.0" (Py.chars "0") [Py.chars "rc"] (Py.chars "1"))
    = drop_last_component
        (pre_release_label "4.0.0" (Py.chars "0") [Py.chars "rc"] (Py.chars "1")).
Proof.
  apply (X27_earliest_version_is_collapse_target ["4.0.0"; "4.0.0.0rc1"]
           "4.0.0" (Py.chars "0") [Py.chars "rc"] (Py.chars "1")).
  - discriminate.
  - repeat constructor.
  - discriminate.
  - constructor; [right; right; reflexivity | constructor].
  - repeat constructor.
  - discriminate.
  - left.
Defined.

(** ** More on the main loop *)

(** X28. A commit whose notes directory is the one of its only parent,
    present as the same object or missing in both, leaves the notes as
    they are: the loop body only updates the version bookkeeping, and no
    diff is asked for. The parent's directory is taken to be missing or
    a tree with entries. *)
Theorem X28_untouched_notes_directory_changes_nothing
    (tree_changes : option sha → option sha → list change_item)
    (tree_changes_for_merge : list sha → option sha → list change_item)
    (repo : RenoRepo) (notesdir : string) (st : ScanState)
    (entry c : Commit) (p : sha) (pt t : option GitObject) (tags : list string) :
  commit_parents entry = [p] →
  repo_get_commit repo p = Ok c →
  commit_subtree repo (commit_tree c) notesdir = Ok pt →
  commit_subtree repo (commit_tree entry) notesdir = Ok t →
  (∀ o, pt = Some o → object_truthy o = true) →
  subtree_sha pt = subtree_sha t →
  get_tags_on_commit repo (commit_id entry) = Ok tags →
  _changes_in_subdir tree_changes tree_changes_for_merge repo entry notesdir = Ok []
  ∧ scan_commit tree_changes tree_changes_for_merge repo notesdir st entry
    = Ok (enter_commit st tags).
Proof.
  intros Hparents Hc Hpt Ht _ Hsame Htags.
  assert (Hchanges : _changes_in_subdir tree_changes tree_changes_for_merge
                       repo entry notesdir = Ok []).
  { unfold _changes_in_subdir. rewrite Hparents, Hc. simpl.
    rewrite Hpt. simpl. rewrite Ht. simpl. by rewrite decide_True. }
  split; [done|].
  unfold scan_commit. rewrite Htags. simpl.
  destruct (enter_commit st tags) as [st1 tags']. by rewrite Hchanges.
Qed.

Lemma X28_untouched_notes_directory_changes_nothing_witness :
  _changes_in_subdir (fun _ _ => [add_note "never-0000000000000009.yaml"])
    (fun _ _ => []) untouched_repo
    {| commit_id := "c2"; commit_parents := ["c1"];
       commit_tree := "t2"; commit_time := 200 |} "notes"
  = Ok []
  ∧ scan_commit (fun _ _ => [add_note "never-0000000000000009.yaml"])
      (fun _ _ => []) untouched_repo "notes" (initial_state "1.0.0-1")
      {| commit_id := "c2"; commit_parents := ["c1"];
         commit_tree := "t2"; commit_time := 200 |}
    = Ok (enter_commit (initial_state "1.0.0-1") []).
Proof.
  pose (n1 := OTree {| tree_id := "n1";
                       tree_entries := [("a-0000000000000001.yaml", "b2")] |}).
  apply (X28_untouched_notes_directory_changes_nothing
           (fun _ _ => [add_note "never-0000000000000009.yaml"]) (fun _ _ => [])
           untouched_repo "notes" (initial_state "1.0.0-1")
           {| commit_id := "c2"; commit_parents := ["c1"];
              commit_tree := "t2"; commit_time := 200 |}
           {| commit_id := "c1"; commit_parents := [];
              commit_tree := "t1"; commit_time := 100 |}
           "c1" (Some n1) (Some n1) []).
  - reflexivity.
  - reflexivity.
  - vm_compute. reflexivity.
  - vm_compute. reflexivity.
  - intros o [= <-]. reflexivity.
  - reflexivity.
  - vm_compute. reflexivity.
Defined.

Section Provenance.
Variable notesdir : string.

Lemma apply_change_names st r u x :
  last_name_by_id (apply_change notesdir st r) !! u = Some x →
  last_name_by_id st !! u = Some x ∨ note_name notesdir r = Some x.
Proof.
  unfold apply_change.
  destruct (bool_decide (cr_uid r ∈ uniqueids_deleted st)); simpl; [by left|].
  assert (Hname : ∀ path commit,
    remember_name notesdir (cr_uid r) path commit (last_name_by_id st) !! u
    = Some x →
    last_name_by_id st !! u = Some x
    ∨ (Py.str (Py.path_join (Py.chars notesdir) (Py.chars path)), commit) = x).
  { intros path commit. unfold remember_name.
    destruct (last_name_by_id st !! cr_uid r); [by left|].
    destruct (decide (cr_uid r = u)) as [->|Hne].
    - rewrite lookup_insert_eq. intros [= <-]. by right.
    - rewrite lookup_insert_ne by done. by left. }
  destruct r; simpl in *; try (intros [?|<-]%Hname; [by left | by right]).
  by left.
Qed.

Lemma apply_changes_names records : ∀ st u x,
  last_name_by_id (foldl (apply_change notesdir) st records) !! u = Some x →
  last_name_by_id st !! u = Some x
  ∨ ∃ r, r ∈ records ∧ note_name notesdir r = Some x.
Proof.
  induction records as [|r records IH]; intros st u x; simpl; [by left|].
  intros [[?|?]%apply_change_names|(r' & ? & ?)]%IH.
  - by left.
  - right. exists r. split; [left | done].
  - right. exists r'. split; [by right | done].
Qed.

Lemma enter_commit_names st tags :
  last_name_by_id (enter_commit st tags).1 = last_name_by_id st.
Proof. unfold enter_commit. by destruct (last tags). Qed.

Lemma scan_records_names seen : ∀ st u x,
  last_name_by_id (scan_records notesdir st seen) !! u = Some x →
  last_name_by_id st !! u = Some x
  ∨ ∃ d r, d ∈ seen ∧ r ∈ d.2 ∧ note_name notesdir r = Some x.
Proof.
  induction seen as [|d seen IH]; intros st u x; [by left|].
  rewrite scan_records_cons.
  intros [[Hst|(r & ? & ?)]%apply_changes_names|(d' & r & ? & ? & ?)]%IH.
  - left. by rewrite enter_commit_names in Hst.
  - right. exists d, r. split; [left | done].
  - right. exists d', r. split; [by right | done].
Qed.

Lemma collapse_files_origin known collapsing k x :
  x ∈ files_of k (collapse known collapsing) →
  ∃ ov, x ∈ files_of ov collapsing.
Proof.
  unfold collapse. rewrite collapse_fold_concat. unfold files_of at 1. simpl.
  intros (l & Hx & (ov & -> & _)%list_elem_of_fmap)%elem_of_concat.
  by exists ov.
Qed.

End Provenance.

Section NamedPaths.
Variable commit : sha.

Lemma decode_path_inv o p : decode_path o = Some p → o = Some p.
Proof. destruct o as [[|]|]; simpl; congruence. Qed.

Lemma classify_names c u e :
  classify commit c = Some (u, e) →
  uc_type e ≠ CHANGE_DELETE → names_path c (uc_path e).
Proof.
  unfold classify, names_path.
  destruct (tc_type c); try done.
  - destruct (decode_path (tc_new_path c)) as [p|] eqn:Hp; simpl; [|done].
    apply decode_path_inv in Hp.
    destruct (_note_file (Some p)); [|done]. intros [= <- <-]. simpl. auto.
  - destruct (decode_path (tc_new_path c)) as [p|] eqn:Hp; simpl; [|done].
    apply decode_path_inv in Hp.
    destruct (_note_file (Some p)); [|done]. intros [= <- <-]. simpl. auto.
  - destruct (decode_path (tc_old_path c)) as [p|] eqn:Hp; simpl; [|done].
    destruct (_note_file (Some p)); [|done]. by intros [= <- <-].
Qed.

Lemma raw_group_names u cs e :
  e ∈ raw_group commit u cs →
  uc_type e ≠ CHANGE_DELETE → ∃ c, c ∈ cs ∧ names_path c (uc_path e).
Proof.
  intros (c & Hin & Hc)%list_elem_of_omap Htype.
  destruct (classify commit c) as [[u' e']|] eqn:Hclass; [|done].
  simpl in Hc. destruct (decide (u' = u)) as [->|]; [|done].
  injection Hc as <-. exists c. split; [done | by eapply classify_names].
Qed.

(** The path a record names is the path of an add or a modification
    of its group. *)
Lemma resolve_group_names u g rs r p :
  resolve_group commit u g = Ok rs → r ∈ rs → cr_new_path r = Some p →
  ∃ e, e ∈ g ∧ uc_type e ≠ CHANGE_DELETE ∧ uc_path e = p.
Proof.
  destruct (decide (length g = 1)) as [Hlen|Hlen].
  - destruct g as [|e [|e' g]]; try done.
    destruct e; simpl; intros [= <-] ->%list_elem_of_singleton; simpl;
      intros [= <-]; eexists; (split; [left | done]).
  - rewrite resolve_group_many by done. unfold resolve_many.
    destruct (types_are [CHANGE_ADD; CHANGE_DELETE] g).
    + destruct (first_added g) as [[q s]|] eqn:Hadd; simpl; [|done].
      destruct (first_deleted g) as [old|]; simpl; [|done].
      intros [= <-] ->%list_elem_of_singleton. simpl. intros [= <-].
      exists (UAdd q s). split; [by apply first_added_elem | done].
    + destruct (types_are [CHANGE_MODIFY] g) eqn:Htypes; [|done].
      apply types_are_spec in Htypes.
      intros [= <-] (e & -> & He)%list_elem_of_fmap. simpl. intros [= <-].
      exists e. split_and!; [done | | done].
      assert (Ht : uc_type e ∈ [CHANGE_MODIFY])
        by (apply Htypes, list_elem_of_fmap; eauto).
      apply list_elem_of_singleton in Ht. by rewrite Ht.
Qed.

(** The path a record of [_aggregate_changes] names is one a raw change
    of the stream adds or modifies. *)
Lemma aggregate_names changes results r p :
  _aggregate_changes commit changes = Ok results →
  r ∈ results → cr_new_path r = Some p →
  ∃ c, c ∈ flat_changes changes ∧ names_path c p.
Proof.
  intros (L & rss & -> & _ & Hgroups & Hall)%aggregate_groups.
  intros (rs & Hr & Hrs)%elem_of_concat Hp.
  rewrite Forall_forall in Hgroups.
  apply list_elem_of_lookup in Hrs as [i Hi].
  destruct (Forall2_lookup_r _ _ _ _ _ Hall Hi) as ([u g] & HL & Hrun).
  simpl in Hrun.
  destruct (resolve_group_names u g rs r p Hrun Hr Hp) as (e & He & Htype & <-).
  pose proof (Hgroups (u, g) (list_elem_of_lookup_2 _ _ _ HL)) as Hg.
  simpl in Hg. rewrite Hg in He. by eapply raw_group_names.
Qed.

End NamedPaths.

(** X29. Every note of the result was named by a commit the traversal
    yields: the hash beside it is the id of such a commit, and its path
    is the notes directory joined with a path ending in [.yaml] that one
    of the changes of this commit below the notes directory adds or
    modifies (the new name of a rename is the path of its add). *)
Theorem X29_result_notes_come_from_scanned_commits
    (get_walker : sha → list Commit)
    (tree_changes : option sha → option sha → list change_item)
    (tree_changes_for_merge : list sha → option sha → list change_item)
    (repo : RenoRepo) (conf : Config) (fuel : nat)
    (out : list (string * list (string * sha)))
    (v : string) (files : list (string * sha)) (path : string) (s : sha) :
  get_notes_by_version get_walker tree_changes tree_changes_for_merge
    repo conf fuel = Some (Ok out) →
  (v, files) ∈ out →
  (path, s) ∈ files →
  ∃ entries final entry changes c p,
    _topo_traversal get_walker repo fuel (branch conf) = Some (entries, final)
    ∧ entry ∈ entries
    ∧ s = commit_id entry
    ∧ _changes_in_subdir tree_changes tree_changes_for_merge repo entry
        (notespath conf) = Ok changes
    ∧ c ∈ flat_changes changes
    ∧ (tc_type c = CHANGE_ADD ∨ tc_type c = CHANGE_MODIFY)
    ∧ tc_new_path c = Some p
    ∧ _note_file (Some p) = true
    ∧ path = Py.str (Py.path_join (Py.chars (notespath conf)) (Py.chars p)).
Proof.
  unfold get_notes_by_version.
  destruct (scan_setup _ _ _) as [[[vbd earliest] bbt]|]; [|done].
  destruct (_get_current_version _ _ _) as [[cv|]|]; [|done..].
  destruct (_topo_traversal _ _ _ _) as [[entries final]|]; [|done].
  destruct (scan_loop _ _ _ _ _ _ _ _) as [st|] eqn:Hscan; simpl; [|done].
  intros [= <-] [Hin|(_ & _ & ->)]%trim_entries Hfile;
    [by apply elem_of_nil in Hin|].
  apply elem_of_py_sorted in Hfile.
  assert (Hinv : ∃ ov, (path, s) ∈ files_of ov (invert_earliest_seen st)).
  { destruct (collapse_pre_releases conf); [|by exists v].
    by eapply collapse_files_origin. }
  destruct Hinv as [ov (_ & u & _ & Hname)%invert_earliest_seen_files].
  destruct (scan_loop_seen _ _ _ _ _ _ _ _ _ Hscan) as (seen & Hseen & ->).
  apply scan_records_names in Hname as [Hinit|(d & r & Hd & Hr & Hname)];
    [simpl in Hinit; by rewrite lookup_empty in Hinit|].
  apply list_elem_of_lookup in Hd as [i Hi].
  destruct (Forall2_lookup_r _ _ _ _ _ Hseen Hi)
    as (entry & Hentry & _ & changes & Hchanges & Hagg).
  pose proof (aggregate_record_of_commit _ _ _ r Hagg Hr) as Hrec.
  assert (Hin : entry ∈ entries).
  { rewrite <- (take_drop (length seen) entries). apply elem_of_app. left.
    by eapply list_elem_of_lookup_2. }
  assert (Hp : ∃ p, cr_new_path r = Some p
                    ∧ _note_file (Some p) = true
                    ∧ s = commit_id entry
                    ∧ path = Py.str (Py.path_join (Py.chars (notespath conf))
                                       (Py.chars p))).
  { destruct r as [u' p c|u' p|u' p c|u' old p c]; simpl in *; try done;
      injection Hname as <- <-; exists p; naive_solver. }
  destruct Hp as (p & Hp & Hnote & -> & ->).
  destruct (aggregate_names _ _ _ r p Hagg Hr Hp) as (c & Hc & Htype & Hnew).
  by exists entries, final, entry, changes, c, p.
Qed.

Lemma X29_result_notes_come_from_scanned_commits_witness :
  ∃ entries final entry changes c p,
    _topo_traversal branch_walker branch_repo 10 (Some "stable/2")
    = Some (entries, final)
    ∧ entry ∈ entries
    ∧ "s1" = commit_id entry
    ∧ _changes_in_subdir branch_tree_changes (fun _ _ => []) branch_repo entry
        "notes" = Ok changes
    ∧ c ∈ flat_changes changes
    ∧ (tc_type c = CHANGE_ADD ∨ tc_type c = CHANGE_MODIFY)
    ∧ tc_new_path c = Some p
    ∧ _note_file (Some p) = true
    ∧ "notes/slug21-0000000000000004.yaml"
      = Py.str (Py.path_join (Py.chars "notes") (Py.chars p)).
Proof.
  apply (X29_result_notes_come_from_scanned_commits branch_walker
           branch_tree_changes (fun _ _ => []) branch_repo
           (branch_config (Some "stable/2")) 10
           [("2.0.0-1", [("notes/slug21-0000000000000004.yaml", "s1")]);
            ("2.0.0", [("notes/slug2-0000000000000002.yaml", "c2")])]
           "2.0.0-1" [("notes/slug21-0000000000000004.yaml", "s1")]).
  - vm_compute. reflexivity.
  - left.
  - left.
Defined.

Section Disjoint.
Variable notesdir : string.

Lemma apply_change_disjoint st r :
  names_and_deleted_disjoint st →
  names_and_deleted_disjoint (apply_change notesdir st r).
Proof.
  unfold names_and_deleted_disjoint, apply_change. intros Hinv.
  destruct (bool_decide (cr_uid r ∈ uniqueids_deleted st)) eqn:Hdel; [done|].
  apply bool_decide_eq_false in Hdel.
  assert (Hadd : ∀ path commit uid,
    uid ∈ uniqueids_deleted st →
    remember_name notesdir (cr_uid r) path commit (last_name_by_id st) !! uid
    = None).
  { intros path commit uid Huid.
    rewrite remember_name_lookup_ne; [by apply Hinv | congruence]. }
  destruct r as [u p c|u p|u p c|u old p c]; simpl in *;
    try (intros u' Hu'; by apply Hadd).
  intros u'. destruct (last_name_by_id st !! u) eqn:Hname; [apply Hinv|].
  intros [->%elem_of_singleton|?]%elem_of_union; [done | by apply Hinv].
Qed.

Lemma scan_events_disjoint evs : ∀ st,
  names_and_deleted_disjoint st →
  names_and_deleted_disjoint (foldl (scan_step notesdir) st evs).
Proof.
  induction evs as [|ev evs IH]; intros st Hinv; [done|]. simpl. apply IH.
  destruct ev as [tags|r]; simpl; [|by apply apply_change_disjoint].
  unfold enter_commit. by destruct (last tags).
Qed.

End Disjoint.

(** X30. All through the scan no identifier is both named and counted
    as deleted: a note recorded as deleted never gets a file name, and a
    note with a file name is never recorded as deleted. *)
Theorem X30_deleted_notes_are_never_named
    (tree_changes : option sha → option sha → list change_item)
    (tree_changes_for_merge : list sha → option sha → list change_item)
    (repo : RenoRepo) (notesdir : string) (branch_base_tag : option string)
    (cv0 : string) (entries : list Commit) (final : option exn) (st : ScanState) :
  scan_loop tree_changes tree_changes_for_merge repo notesdir branch_base_tag
    (initial_state cv0) entries final = Ok st →
  ∀ uid, uid ∈ uniqueids_deleted st → last_name_by_id st !! uid = None.
Proof.
  intros Hrun.
  destruct (scan_loop_seen _ _ _ _ _ _ _ _ _ Hrun) as (seen & _ & ->).
  apply scan_events_disjoint. intros uid Huid. by apply elem_of_empty in Huid.
Qed.

Lemma X30_deleted_notes_are_never_named_witness :
  ∃ st,
    scan_loop readd_tree_changes (fun _ _ => []) readd_repo "notes" None
      (initial_state "3.0.0") readd_commits None = Ok st
    ∧ ∀ uid, uid ∈ uniqueids_deleted st → last_name_by_id st !! uid = None.
Proof.
  assert (Hrun : ∃ st,
            scan_loop readd_tree_changes (fun _ _ => []) readd_repo "notes" None
              (initial_state "3.0.0") readd_commits None = Ok st).
  { vm_compute. eexists. reflexivity. }
  destruct Hrun as [st Hrun]. exists st. split; [exact Hrun|].
  exact (X30_deleted_notes_are_never_named readd_tree_changes (fun _ _ => [])
           readd_repo "notes" None "3.0.0" readd_commits None st Hrun).
Defined.
